(** * SuperAgent: a shallow embedding of the agent loop, the MCP tool
    registry and the Summary tool, with the properties of their
    specification.

    Sources embedded here:
    - [src/app/agent/superagent.py]  (class [SuperAgent])
    - [src/app/tool/summary.py]      (class [Summary])
    - [src/app/api/main.py]          (the endpoint [stream_prompt])

    Python objects are records, attribute mutation is explicit state
    passing, exceptions are an outcome of the computation, an async
    generator is a computation that also produces the ordered list of the
    things it did (events yielded, log calls, collaborators awaited). *)

From stdpp Require Import base option list gmap strings.
From Stdlib Require Import NArith.

Set Default Proof Using "Type".

(** ** Python strings

    A Python [str] is a sequence of Unicode code points; it is modelled as
    a list of code points so that [str.strip] can be given its real
    (Unicode) meaning.  Literals of the source are ASCII and are written
    through [of_string]. *)

Module PyStr.

Abbreviation str := (list N).

Fixpoint of_string (s : string) : str :=
  match s with
  | EmptyString => []
  | String c s' => Ascii.N_of_ascii c :: of_string s'
  end.

(** The double quote character, code point 34. *)
Definition dquote : str := [34%N].

(** [str.isspace] on one code point: the white space table of CPython
    ([_PyUnicode_IsWhitespace]). *)
Definition isspace (c : N) : bool :=
  (((9 <=? c) && (c <=? 13)) || ((28 <=? c) && (c <=? 32))
   || (c =? 133) || (c =? 160) || (c =? 5760)
   || ((8192 <=? c) && (c <=? 8202))
   || (c =? 8232) || (c =? 8233) || (c =? 8239) || (c =? 8287)
   || (c =? 12288))%N.

(** [s.lstrip()], [s.rstrip()], [s.strip()] with no argument. *)
Fixpoint lstrip (s : str) : str :=
  match s with
  | [] => []
  | c :: s' => if isspace c then lstrip s' else s
  end.

Definition rstrip (s : str) : str := reverse (lstrip (reverse s)).

Definition strip (s : str) : str := rstrip (lstrip s).

(** Truth value of a string: [if s:] holds for the non-empty ones. *)
Definition truthy (s : str) : bool :=
  match s with [] => false | _ :: _ => true end.

Definition eqb (a b : str) : bool := bool_decide (a = b).

Definition all_space (s : str) : Prop := Forall (λ c, isspace c = true) s.

End PyStr.
Import PyStr.

(** The termination sentinel of [SuperAgent.stream], line 198:
    the text [{"status":"success"}]. *)
Definition SENTINEL : str :=
  of_string "{" ++ dquote ++ of_string "status" ++ dquote ++ of_string ":"
  ++ dquote ++ of_string "success" ++ dquote ++ of_string "}".

(** [isinstance(result, str) and result.strip() == '{"status":"success"}']
    (lines 196-199); the result of [act] is a [str], so the [isinstance]
    test holds. *)
Definition is_termination (result : str) : bool := eqb (strip result) SENTINEL.


(** ** Data model

    The classes imported by [superagent.py] from [app.schema], [app.tool]
    and [app.tool.mcp] are not part of the sources at hand; the parts of
    them that [SuperAgent] reads and writes are modelled below. *)

(** [app.schema.AgentState]. *)
Inductive AgentState := IDLE | RUNNING | FINISHED | ERROR.

(** A tool invocation [tc] of an assistant message: [tc.function.name]
    and [tc.function.arguments]. *)
Record ToolCall := { function_name : str; function_arguments : str }.

Inductive Role := user | assistant | tool | system.

(** [app.schema.Message]: [content] and [tool_calls] are optional. *)
Record Message := {
  role : Role;
  content : option str;
  tool_calls : option (list ToolCall)
}.

(** [app.schema.Memory]. *)
Record Memory := { messages : list Message }.

(** A registered tool.  [server_id] is [Some sid] on an [MCPClientTool]
    (a proxy for a tool of the remote server [sid]) and [None] on a
    locally defined tool, so that [isinstance(tool, MCPClientTool)] is
    [is_Some (server_id tool)]. *)
Record Tool := {
  name : str;
  description : str;
  parameters : str;
  server_id : option str
}.

#[global] Instance AgentState_eq_dec : EqDecision AgentState.
Proof. solve_decision. Defined.
#[global] Instance ToolCall_eq_dec : EqDecision ToolCall.
Proof. solve_decision. Defined.
#[global] Instance Role_eq_dec : EqDecision Role.
Proof. solve_decision. Defined.
#[global] Instance Message_eq_dec : EqDecision Message.
Proof. solve_decision. Defined.
#[global] Instance Tool_eq_dec : EqDecision Tool.
Proof. solve_decision. Defined.

(** Modelled from the spec: [Message.user_message(prompt)] of
    [app.schema], which is not in the sources; a message of role "user"
    with the prompt as its content. *)
Definition user_message (prompt : str) : Message :=
  {| role := user; content := Some prompt; tool_calls := None |}.

(** Modelled from the spec: [Memory.add_message] of [app.schema], which
    is not in the sources; "append-only ordered sequence of Message". *)
Definition add_message (msg : Message) (m : Memory) : Memory :=
  {| messages := messages m ++ [msg] |}.

(** Modelled from the spec: [Memory.get_last_assistant_message] of
    [app.schema], which is not in the sources; "the last assistant
    message if present". *)
Definition get_last_assistant_message (m : Memory) : option Message :=
  last (filter (λ msg, role msg = assistant) (messages m)).

(** *** The tool registry *)

(** Modelled from the spec: [ToolCollection.add_tool] of [app.tool], which
    is not in the sources; "upserts by name, preserving first-seen order
    for names not previously present, replacing in place for names that
    were".  A [ToolCollection] is the ordered list [tools]. *)
Fixpoint add_tool (t : Tool) (c : list Tool) : list Tool :=
  match c with
  | [] => [t]
  | u :: c' => if bool_decide (name u = name t) then t :: c' else u :: add_tool t c'
  end.

(** [collection.add_tools] applied to the tools [ts]: one [add_tool] per
    argument, in order. *)
Definition add_tools (c : list Tool) (ts : list Tool) : list Tool :=
  foldl (λ c t, add_tool t c) c ts.

(** The constructor [ToolCollection] applied to the tools [ts]. *)
Definition ToolCollection (ts : list Tool) : list Tool := add_tools [] ts.

(** *** The remote tool servers *)

(** The two transports of [MCPClients]: [connect_sse] and [connect_stdio]. *)
Inductive Transport := SSE | STDIO.

(** Modelled from the spec: class [MCPClients] of [app.tool.mcp], which is
    not in the sources.  It holds the open sessions, by server id, and the
    proxies of the tools the connected servers advertised, "each tagged
    with [server_id]". *)
Record MCPClients := { sessions : gset str; tools : list Tool }.

(** The tag put on an advertised tool. *)
Definition tag (sid : str) (t : Tool) : Tool :=
  {| name := name t; description := description t;
     parameters := parameters t; server_id := Some sid |}.

(** Modelled from the spec: [MCPClients.disconnect(server_id)]; "closes the
    session if open (no-op if not connected) and evicts exactly the tool
    names that server contributed; disconnecting with no id tears down all
    remote servers". *)
Definition MCPClients_disconnect (sid : str) (m : MCPClients) : MCPClients :=
  if truthy sid then
    {| sessions := sessions m ∖ {[sid]};
       tools := filter (λ t, server_id t ≠ Some sid) (tools m) |}
  else {| sessions := ∅; tools := [] |}.

(** One entry of [config.mcp_config.servers]. *)
Record ServerConfig := {
  type : str;
  url : option str;
  command : option str;
  args : list str
}.

(** *** Exceptions and outcomes *)

(** An instance [e] of [Exception]; [msg] is [str(e)]. *)
Inductive Exn := Exception (msg : str).

Definition str_of (e : Exn) : str := let 'Exception msg := e in msg.

(** What an awaited collaborator answers: a value, or an exception. *)
Inductive Answer (A : Type) := Ok (a : A) | Err (e : Exn).
Arguments Ok {A} a.
Arguments Err {A} e.

(** How a piece of code ends: it returns; it raises an [Exception]; it is
    left by the [GeneratorExit] that is thrown at a [yield] when the
    consumer closes the generator (not an instance of [Exception]); or it
    is still running when the fuel of its loop is spent. *)
Inductive Outcome (A : Type) :=
| Ret (a : A)
| Raise (e : Exn)
| GeneratorExit
| Fuel.
Arguments Ret {A} a.
Arguments Raise {A} e.
Arguments GeneratorExit {A}.
Arguments Fuel {A}.

(** *** The agent *)

(** The attributes [SuperAgent] inherits from [ToolCallAgent] and that its
    collaborators ([super().think], [act], [observe], the browser context
    helper) read and write; [browser] tells whether the browser tool
    holds a live browser session. *)
Record ToolCallAgent := {
  state : AgentState;
  memory : Memory;
  next_step_prompt : str;
  browser : bool
}.

(** The attributes of [SuperAgent], lines 37-61.  [browser_context_helper]
    is installed by the validator [initialize_helper] on every instance
    and never reset, so that the test of line 143 holds. *)
Record SuperAgent := {
  base : ToolCallAgent;
  mcp_clients : MCPClients;
  available_tools : list Tool;
  connected_servers : gmap str str;
  _initialized : bool
}.

(** What the code does, in order. *)

(** The events of the stream: [{"content": s}] and [{"error": s}]. *)
Inductive StreamEvent := content_event (s : str) | error_event (s : str).

(** The logging statements of [superagent.py], one constructor each. *)
Inductive LogRec :=
| LConnectedSse (sid url : str)          (* logger.info, line 84 *)
| LConnectedStdio (sid command : str)    (* logger.info, line 95 *)
| LConnectFailed (sid : str) (e : str)   (* logger.error, line 99 *)
| LTermination                           (* logger.info, line 200 *)
| LActError (e : str)                    (* logger.error, line 203 *)
| LObserveError (e : str)                (* logger.error, line 211 *)
| LStreamError (e : str).                (* logger.error, line 221 *)

(** The calls whose occurrence the properties count. *)
Inductive Called :=
| initialize_mcp_servers_called
| connect_called (tr : Transport) (endpoint : str) (sid : str)
| disconnect_called (sid : str)
| cleanup_called
| format_next_step_prompt_called
| super_think_called (prompt : str)
| act_called
| observe_called.

Inductive Obs :=
| Emit (ev : StreamEvent)
| Log (r : LogRec)
| Call (c : Called).

#[global] Instance StreamEvent_eq_dec : EqDecision StreamEvent.
Proof. solve_decision. Defined.
#[global] Instance LogRec_eq_dec : EqDecision LogRec.
Proof. solve_decision. Defined.
#[global] Instance Transport_eq_dec : EqDecision Transport.
Proof. solve_decision. Defined.
#[global] Instance Called_eq_dec : EqDecision Called.
Proof. solve_decision. Defined.
#[global] Instance Obs_eq_dec : EqDecision Obs.
Proof. solve_decision. Defined.

(** The generator: the agent it runs on, and the consumer.  [budget] is
    [Some k] when the consumer closes the generator after it has received
    [k] more events, and [None] when it consumes the stream to its end. *)
Record Gen := { self : SuperAgent; budget : option nat }.

(** The collaborators of [SuperAgent] that the sources do not define. *)
Record Env := {
  (** what the server behind an endpoint advertises, or how the
      connection fails *)
  server : Transport → str → list str → Answer (list Tool);
  (** [config.mcp_config.servers.items()] *)
  config : list (str * ServerConfig);
  (** [BrowserUseTool().name] *)
  BrowserUseTool_name : str;
  (** [ToolCallAgent.think], [act] and [observe]; the first two consult
      the tool registry *)
  super_think : list Tool → ToolCallAgent → Answer bool * ToolCallAgent;
  act : list Tool → ToolCallAgent → Answer str * ToolCallAgent;
  observe : ToolCallAgent → Answer unit * ToolCallAgent;
  (** [BrowserContextHelper.format_next_step_prompt] *)
  format_next_step_prompt : ToolCallAgent → Answer str * ToolCallAgent
}.

(** ** The monad of the methods

    A method is run on a generator state and gives an outcome, the state
    it leaves (mutations survive an exception, as in Python) and the
    observations it made, oldest first. *)

Definition M (A : Type) : Type := Gen → Outcome A * Gen * list Obs.

#[global] Instance M_ret : MRet M := λ A a g, (Ret a, g, []).

#[global] Instance M_bind : MBind M := λ A B k m g,
  match m g with
  | (Ret a, g', tr) => let '(o, g'', tr') := k a g' in (o, g'', tr ++ tr')
  | (Raise e, g', tr) => (Raise e, g', tr)
  | (GeneratorExit, g', tr) => (GeneratorExit, g', tr)
  | (Fuel, g', tr) => (Fuel, g', tr)
  end.

Definition raise {A} (e : Exn) : M A := λ g, (Raise e, g, []).
Definition observe_ (o : Obs) : M unit := λ g, (Ret tt, g, [o]).
Definition log (r : LogRec) : M unit := observe_ (Log r).
Definition call (c : Called) : M unit := observe_ (Call c).
Definition get_self : M SuperAgent := λ g, (Ret (self g), g, []).
Definition modify_self (f : SuperAgent → SuperAgent) : M unit :=
  λ g, (Ret tt, {| self := f (self g); budget := budget g |}, []).

(** [try: m  except Exception as e: h e].  [except Exception] does not
    catch [GeneratorExit]. *)
Definition try_except {A} (m : M A) (h : Exn → M A) : M A := λ g,
  match m g with
  | (Raise e, g', tr) => let '(o, g'', tr') := h e g' in (o, g'', tr ++ tr')
  | r => r
  end.

(** [try: m  finally: f].  The [finally] block runs however [m] ends, and
    what it raises replaces the outcome of [m]; it has not run yet when
    the fuel is spent inside [m]. *)
Definition try_finally {A} (m : M A) (f : M unit) : M A := λ g,
  match m g with
  | (Fuel, g', tr) => (Fuel, g', tr)
  | (o, g', tr) =>
      match f g' with
      | (Ret _, g'', tr') => (o, g'', tr ++ tr')
      | (Raise e, g'', tr') => (Raise e, g'', tr ++ tr')
      | (GeneratorExit, g'', tr') => (GeneratorExit, g'', tr ++ tr')
      | (Fuel, g'', tr') => (Fuel, g'', tr ++ tr')
      end
  end.

(** [yield ev]: the event goes to the consumer, which then asks for the
    next one or, its budget spent, closes the generator: [GeneratorExit]
    is thrown at the [yield].  A generator that is closed already emits
    nothing. *)
Definition yield (ev : StreamEvent) : M unit := λ g,
  match budget g with
  | None => (Ret tt, g, [Emit ev])
  | Some 0 => (GeneratorExit, g, [])
  | Some 1 => (GeneratorExit, {| self := self g; budget := Some 0 |}, [Emit ev])
  | Some (S k) => (Ret tt, {| self := self g; budget := Some k |}, [Emit ev])
  end.

(** What a [while] body asks for: the next iteration, or [break]. *)
Inductive Flow := Next | Break.

(** [while cond: body], with [fuel] iterations at most. *)
Fixpoint while (fuel : nat) (cond : SuperAgent → bool) (body : M Flow) : M unit :=
  λ g,
    if cond (self g) then
      match fuel with
      | 0 => (Fuel, g, [])
      | S fuel' =>
          (f ← body;
           match f with
           | Break => mret tt
           | Next => while fuel' cond body
           end) g
      end
    else (Ret tt, g, []).

(** [for x in xs: body x]. *)
Fixpoint for_each {A} (xs : list A) (body : A → M unit) : M unit :=
  match xs with
  | [] => mret tt
  | x :: xs' => body x;; for_each xs' body
  end.

(** Attribute assignments on [self]. *)
Definition set_base (b : ToolCallAgent) (a : SuperAgent) : SuperAgent :=
  {| base := b; mcp_clients := mcp_clients a;
     available_tools := available_tools a;
     connected_servers := connected_servers a;
     _initialized := _initialized a |}.

Definition set_mcp_clients (m : MCPClients) (a : SuperAgent) : SuperAgent :=
  {| base := base a; mcp_clients := m;
     available_tools := available_tools a;
     connected_servers := connected_servers a;
     _initialized := _initialized a |}.

Definition set_available_tools (c : list Tool) (a : SuperAgent) : SuperAgent :=
  {| base := base a; mcp_clients := mcp_clients a;
     available_tools := c;
     connected_servers := connected_servers a;
     _initialized := _initialized a |}.

Definition set_connected_servers (s : gmap str str) (a : SuperAgent) : SuperAgent :=
  {| base := base a; mcp_clients := mcp_clients a;
     available_tools := available_tools a;
     connected_servers := s;
     _initialized := _initialized a |}.

Definition set_initialized (b : bool) (a : SuperAgent) : SuperAgent :=
  {| base := base a; mcp_clients := mcp_clients a;
     available_tools := available_tools a;
     connected_servers := connected_servers a;
     _initialized := b |}.

Definition set_next_step_prompt (p : str) (b : ToolCallAgent) : ToolCallAgent :=
  {| state := state b; memory := memory b; next_step_prompt := p;
     browser := browser b |}.

Definition set_memory (m : Memory) (b : ToolCallAgent) : ToolCallAgent :=
  {| state := state b; memory := m; next_step_prompt := next_step_prompt b;
     browser := browser b |}.

Definition set_browser (x : bool) (b : ToolCallAgent) : ToolCallAgent :=
  {| state := state b; memory := memory b;
     next_step_prompt := next_step_prompt b; browser := x |}.

(** [await f(...)] on a collaborator: it works on the inherited
    attributes and answers. *)
Definition await {A} (c : Called)
    (f : SuperAgent → Answer A * ToolCallAgent) : M A := λ g,
  let '(ans, b') := f (self g) in
  let g' := {| self := set_base b' (self g); budget := budget g |} in
  (match ans with
   | Ok a => Ret a
   | Err e => Raise e
   end, g', [Call c]).

(** [x or y] on strings. *)
Definition or_else (x y : str) : str := if truthy x then x else y.

(** [messages[-n:]]. *)
Definition last_n {A} (n : nat) (l : list A) : list A := drop (length l - n) l.

(** ** The methods of [SuperAgent] *)

Section SuperAgent.

Variable env : Env.

(** Modelled from the spec: [MCPClients.connect_sse] and
    [MCPClients.connect_stdio] of [app.tool.mcp], which are not in the
    sources; "opens a session using the chosen transport.  On success,
    the remote party advertises a set of tool descriptors; each is
    tagged with [server_id] and registered"; on failure the error is
    "surfaced to the caller of the connection attempt". *)
Definition MCPClients_connect (tr : Transport) (endpoint : str)
    (arguments : list str) (sid : str) : M unit :=
  call (connect_called tr endpoint sid);;
  match server env tr endpoint arguments with
  | Ok advertised =>
      modify_self (λ a,
        set_mcp_clients
          {| sessions := {[sid]} ∪ sessions (mcp_clients a);
             tools := add_tools (tools (mcp_clients a)) (tag sid <$> advertised) |}
          a)
  | Err e => raise e
  end.

Definition connect_sse (server_url sid : str) : M unit :=
  MCPClients_connect SSE server_url [] sid.

Definition connect_stdio (command : str) (arguments : list str) (sid : str) : M unit :=
  MCPClients_connect STDIO command arguments sid.

(** [SuperAgent.connect_mcp_server], lines 101-122. *)
Definition connect_mcp_server (server_url sid : str) (use_stdio : bool)
    (stdio_args : option (list str)) : M unit :=
  (if use_stdio then
     connect_stdio server_url (default [] stdio_args) sid;;
     modify_self (λ a,
       set_connected_servers
         (<[or_else sid server_url := server_url]> (connected_servers a)) a)
   else
     connect_sse server_url sid;;
     modify_self (λ a,
       set_connected_servers
         (<[or_else sid server_url := server_url]> (connected_servers a)) a));;
  a ← get_self;
  let new_tools :=
    filter (λ t, server_id t = Some sid) (tools (mcp_clients a)) in
  modify_self (λ a, set_available_tools (add_tools (available_tools a) new_tools) a).

(** The body of the loop of [initialize_mcp_servers], lines 80-99. *)
Definition connect_entry (entry : str * ServerConfig) : M unit :=
  let '(sid, server_config) := entry in
  try_except
    (if eqb (type server_config) (of_string "sse") then
       match url server_config with
       | Some u =>
           if truthy u then
             connect_mcp_server u sid false None;;
             log (LConnectedSse sid u)
           else mret tt
       | None => mret tt
       end
     else if eqb (type server_config) (of_string "stdio") then
       match command server_config with
       | Some c =>
           if truthy c then
             connect_mcp_server c sid true (Some (args server_config));;
             log (LConnectedStdio sid c)
           else mret tt
       | None => mret tt
       end
     else mret tt)
    (λ e, log (LConnectFailed sid (str_of e))).

(** [SuperAgent.initialize_mcp_servers], lines 77-99. *)
Definition initialize_mcp_servers : M unit :=
  call initialize_mcp_servers_called;;
  for_each (config env) connect_entry.

(** [SuperAgent.disconnect_mcp_server], lines 124-139. *)
Definition disconnect_mcp_server (sid : str) : M unit :=
  call (disconnect_called sid);;
  modify_self (λ a, set_mcp_clients (MCPClients_disconnect sid (mcp_clients a)) a);;
  (if truthy sid then
     modify_self (λ a, set_connected_servers (delete sid (connected_servers a)) a)
   else
     modify_self (λ a, set_connected_servers ∅ a));;
  a ← get_self;
  let base_tools := filter (λ t, ¬ is_Some (server_id t)) (available_tools a) in
  modify_self (set_available_tools (ToolCollection base_tools));;
  modify_self (λ a,
    set_available_tools (add_tools (available_tools a) (tools (mcp_clients a))) a).

(** Modelled from the spec: [BrowserContextHelper.cleanup_browser] of
    [app.agent.browser], which is not in the sources; "releases all
    resources held by stateful tools". *)
Definition cleanup_browser : M unit :=
  modify_self (λ a, set_base (set_browser false (base a)) a).

(** [SuperAgent.cleanup], lines 141-148. *)
Definition cleanup : M unit :=
  call cleanup_called;;
  cleanup_browser;;
  a ← get_self;
  if _initialized a then
    disconnect_mcp_server [];;
    modify_self (set_initialized false)
  else mret tt.

(** The test of lines 157-163: some tool call of the last three
    messages names the browser tool. *)
Definition browser_in_use (m : Memory) : bool :=
  let recent_messages := last_n 3 (messages m) in
  existsb (λ msg,
    match tool_calls msg with
    | Some tcs =>
        (* [if msg.tool_calls]: neither [None] nor the empty list *)
        if bool_decide (tcs ≠ []) then
          existsb (λ tc, eqb (function_name tc) (BrowserUseTool_name env)) tcs
        else false
    | None => false
    end) recent_messages.

(** The lazy initialization of [think], lines 152-154. *)
Definition ensure_initialized : M unit :=
  a ← get_self;
  if negb (_initialized a) then
    initialize_mcp_servers;;
    modify_self (set_initialized true)
  else mret tt.

(** [SuperAgent.think], lines 150-175. *)
Definition think : M bool :=
  ensure_initialized;;
  a ← get_self;
  let original_prompt := next_step_prompt (base a) in
  (if browser_in_use (memory (base a)) then
     p ← await format_next_step_prompt_called
           (λ a, format_next_step_prompt env (base a));
     modify_self (λ a, set_base (set_next_step_prompt p (base a)) a)
   else mret tt);;
  a ← get_self;
  result ← await (super_think_called (next_step_prompt (base a)))
             (λ a, super_think env (available_tools a) (base a));
  modify_self (λ a, set_base (set_next_step_prompt original_prompt (base a)) a);;
  mret result.

(** The act step of [stream], lines 191-205. *)
Definition act_step : M Flow :=
  try_except
    (result ← await act_called (λ a, act env (available_tools a) (base a));
     if truthy result then
       yield (content_event result);;
       if is_termination result then
         log LTermination;;
         mret Break
       else mret Next
     else mret Next)
    (λ e,
       log (LActError (str_of e));;
       yield (error_event (str_of e));;
       mret Break).

(** The observe step of [stream], lines 208-213. *)
Definition observe_step : M Flow :=
  try_except
    (await observe_called (λ a, observe env (base a));;
     mret Next)
    (λ e,
       log (LObserveError (str_of e));;
       yield (error_event (str_of e));;
       mret Break).

(** One iteration of the loop of [stream], lines 186-213. *)
Definition iteration : M Flow :=
  b ← think;
  if negb b then mret Break
  else
    f ← act_step;
    match f with
    | Break => mret Break
    | Next => observe_step
    end.

(** The condition of the loop, line 185. *)
Definition running (a : SuperAgent) : bool :=
  bool_decide (state (base a) ∉ [FINISHED; ERROR]).

(** The final flush of [stream], lines 216-218. *)
Definition flush : M unit :=
  a ← get_self;
  match get_last_assistant_message (memory (base a)) with
  | Some last_msg =>
      match content last_msg with
      | Some c => if truthy c then yield (content_event c) else mret tt
      | None => mret tt
      end
  | None => mret tt
  end.

(** The body of the generator [SuperAgent.stream], lines 177-225. *)
Definition stream_body (fuel : nat) (prompt : str) : M unit :=
  try_finally
    (try_except
       (modify_self (λ a,
          set_base (set_memory (add_message (user_message prompt)
                                  (memory (base a))) (base a)) a);;
        while fuel running iteration;;
        flush)
       (λ e,
          log (LStreamError (str_of e));;
          yield (error_event (str_of e))))
    cleanup.

(** [SuperAgent.stream] as its consumer runs it: a consumer that never
    asks for an event never starts the body. *)
Definition stream (fuel : nat) (prompt : str) : M unit := λ g,
  match budget g with
  | Some 0 => (GeneratorExit, g, [])
  | _ => stream_body fuel prompt g
  end.

End SuperAgent.

(** ** The notions the properties are stated with *)

Section notions.

Variable env : Env.

Implicit Types (a : SuperAgent) (g : Gen) (t u : Tool) (sid : str).
Implicit Types (advertised : list Tool).

(** The names a collection registers, in its order. *)
Definition names (c : list Tool) : list str := name <$> c.

(** A locally defined tool. *)
Definition local_tool (t : Tool) : Prop := server_id t = None.

(** The transport and the arguments [connect_mcp_server] hands to
    [MCPClients]. *)
Definition transport_of (use_stdio : bool) : Transport :=
  if use_stdio then STDIO else SSE.

Definition arguments_of (use_stdio : bool) (stdio_args : option (list str)) : list str :=
  if use_stdio then default [] stdio_args else [].

(** The agent after a connection that succeeded. *)
Definition connected (endpoint sid : str) (advertised : list Tool) a : SuperAgent :=
  let m := {| sessions := {[sid]} ∪ sessions (mcp_clients a);
              tools := add_tools (tools (mcp_clients a)) (tag sid <$> advertised) |} in
  {| base := base a;
     mcp_clients := m;
     available_tools :=
       add_tools (available_tools a) (filter (λ t, server_id t = Some sid) (tools m));
     connected_servers := <[or_else sid endpoint := endpoint]> (connected_servers a);
     _initialized := _initialized a |}.

(** The agent after [disconnect_mcp_server]. *)
Definition disconnected sid a : SuperAgent :=
  let m := MCPClients_disconnect sid (mcp_clients a) in
  {| base := base a;
     mcp_clients := m;
     available_tools :=
       add_tools (ToolCollection (filter (λ t, ¬ is_Some (server_id t)) (available_tools a)))
                 (tools m);
     connected_servers :=
       if truthy sid then delete sid (connected_servers a) else ∅;
     _initialized := _initialized a |}.

(** The invariant of the registry.

    The registry and the tools of [mcp_clients] have no duplicate names,
    the tools of [mcp_clients] are tagged with an open session, and the
    remote entries of the registry are the tools of [mcp_clients]. *)
Record consistent a : Prop := {
  registry_NoDup : NoDup (names (available_tools a));
  mcp_NoDup : NoDup (names (tools (mcp_clients a)));
  mcp_tagged : ∀ t, t ∈ tools (mcp_clients a) →
               ∃ sid, server_id t = Some sid ∧ sid ∈ sessions (mcp_clients a);
  registry_mcp : ∀ t, is_Some (server_id t) →
                 t ∈ available_tools a ↔ t ∈ tools (mcp_clients a)
}.

(** The states an agent goes through: it is built with local tools only,
    then servers are connected and disconnected; its collaborators work
    on the inherited attributes. *)
Inductive reachable : SuperAgent → Prop :=
| reachable_new b locals :
    Forall local_tool locals →
    reachable {| base := b;
                 mcp_clients := {| sessions := ∅; tools := [] |};
                 available_tools := ToolCollection locals;
                 connected_servers := ∅;
                 _initialized := false |}
| reachable_connect a server_url sid use_stdio stdio_args bud o g' tr :
    reachable a →
    connect_mcp_server env server_url sid use_stdio stdio_args
      {| self := a; budget := bud |} = (o, g', tr) →
    reachable (self g')
| reachable_disconnect a sid bud o g' tr :
    reachable a →
    disconnect_mcp_server sid {| self := a; budget := bud |} = (o, g', tr) →
    reachable (self g')
| reachable_base a b : reachable a → reachable (set_base b a)
| reachable_initialized a x : reachable a → reachable (set_initialized x a).

(** The connection an entry of the configuration asks for, lines 81-93:
    the [use_stdio] flag, the endpoint and the arguments; [None] when the
    entry asks for none (another [type], or no [url] or [command]). *)
Definition attempt (server_config : ServerConfig)
    : option (bool * str * option (list str)) :=
  if eqb (type server_config) (of_string "sse") then
    match url server_config with
    | Some u => if truthy u then Some (false, u, None) else None
    | None => None
    end
  else if eqb (type server_config) (of_string "stdio") then
    match command server_config with
    | Some c => if truthy c then Some (true, c, Some (args server_config)) else None
    | None => None
    end
  else None.

(** What the server of an attempted connection answers. *)
Definition answer (att : bool * str * option (list str)) : Answer (list Tool) :=
  let '(use_stdio, endpoint, stdio_args) := att in
  server env (transport_of use_stdio) endpoint (arguments_of use_stdio stdio_args).

(** The log record of a connection that succeeded, lines 84 and 95. *)
Definition connected_record (sid : str) (att : bool * str * option (list str)) : LogRec :=
  let '(use_stdio, endpoint, _) := att in
  if use_stdio then LConnectedStdio sid endpoint else LConnectedSse sid endpoint.

(** The call of [MCPClients] an attempted connection makes. *)
Definition connect_call (sid : str) (att : bool * str * option (list str)) : Called :=
  let '(use_stdio, endpoint, _) := att in
  connect_called (transport_of use_stdio) endpoint sid.

(** Observations of the set-up of the remote servers. *)
Definition setup (o : Obs) : Prop :=
  match o with
  | Call initialize_mcp_servers_called | Call (connect_called _ _ _) => True
  | Log (LConnectedSse _ _) | Log (LConnectedStdio _ _) | Log (LConnectFailed _ _) => True
  | _ => False
  end.

(** Observations that end neither the loop nor the stream: no error
    event, none of the log records of lines 200-221, no cleanup. *)
Definition steady (o : Obs) : Prop :=
  match o with
  | Emit (error_event _) => False
  | Log LTermination | Log (LActError _) | Log (LObserveError _)
  | Log (LStreamError _) => False
  | Call cleanup_called => False
  | _ => True
  end.

(** Observations of a step of the loop: a collaborator is awaited. *)
Definition stepping (o : Obs) : Prop :=
  match o with
  | Call act_called | Call observe_called | Call (super_think_called _)
  | Call format_next_step_prompt_called => True
  | _ => False
  end.

(** The events of a trace, and the numbers the properties count. *)
Definition is_error_event (o : Obs) : Prop :=
  match o with Emit (error_event _) => True | _ => False end.

Definition is_content_event (o : Obs) : Prop :=
  match o with Emit (content_event _) => True | _ => False end.

#[global] Instance setup_dec o : Decision (setup o).
Proof. destruct o as [?|[]|[]]; simpl; apply _. Defined.
#[global] Instance steady_dec o : Decision (steady o).
Proof. destruct o as [[]|[]|[]]; simpl; apply _. Defined.
#[global] Instance stepping_dec o : Decision (stepping o).
Proof. destruct o as [?|?|[]]; simpl; apply _. Defined.
#[global] Instance is_error_event_dec o : Decision (is_error_event o).
Proof. destruct o as [[]|?|?]; simpl; apply _. Defined.
#[global] Instance is_content_event_dec o : Decision (is_content_event o).
Proof. destruct o as [[]|?|?]; simpl; apply _. Defined.

(** How often [cleanup] was entered, [initialize_mcp_servers] was
    entered, and an error event was emitted. *)
Definition cleanups (tr : list Obs) : nat :=
  length (filter (λ o, o = Call cleanup_called) tr).

Definition initializations (tr : list Obs) : nat :=
  length (filter (λ o, o = Call initialize_mcp_servers_called) tr).

Definition error_events (tr : list Obs) : nat :=
  length (filter is_error_event tr).

Definition content_events (tr : list Obs) : nat :=
  length (filter is_content_event tr).

(** The agent after [cleanup]. *)
Definition cleaned a : SuperAgent :=
  let a1 := set_base (set_browser false (base a)) a in
  if _initialized a then set_initialized false (disconnected [] a1) else a1.

(** An outcome without its value. *)
Inductive Ending := returned | raised (e : Exn) | closed | unfinished.

Definition ending {A} (o : Outcome A) : Ending :=
  match o with
  | Ret _ => returned
  | Raise e => raised e
  | GeneratorExit => closed
  | Fuel => unfinished
  end.

(** How the loop of [stream], or a part of it, ends, with the generator
    [g'] it leaves and its trace.  Either nothing but steady observations
    were made; or the trace ends with the failure of [act] or of
    [observe], logged and emitted; or it ends with the result of [act]
    that the termination test accepts, emitted and logged.  The consumer
    is still there unless the generator was closed. *)
Inductive ends : Ending → Gen → list Obs → Prop :=
| ends_steady k g' tr :
    Forall steady tr →
    k = closed ∨ budget g' ≠ Some 0 →
    ends k g' tr
| ends_act_error k g' m pre :
    Forall steady pre →
    k = returned ∧ budget g' ≠ Some 0 ∨ k = closed →
    ends k g' (pre ++ [Call act_called; Log (LActError m); Emit (error_event m)])
| ends_observe_error k g' m pre :
    Forall steady pre →
    k = returned ∧ budget g' ≠ Some 0 ∨ k = closed →
    ends k g' (pre ++ [Call observe_called; Log (LObserveError m); Emit (error_event m)])
| ends_termination g' r pre :
    Forall steady pre →
    is_termination r = true →
    budget g' ≠ Some 0 →
    ends returned g' (pre ++ [Call act_called; Emit (content_event r); Log LTermination]).

(** Observations of [cleanup]. *)
Definition closing (o : Obs) : Prop :=
  match o with
  | Call cleanup_called | Call (disconnect_called _) => True
  | _ => False
  end.

#[global] Instance closing_dec o : Decision (closing o).
Proof. destruct o as [?|?|[]]; simpl; apply _. Defined.

End notions.

(** ** Concrete agents and servers *)

Module Sample.

(** A local tool and a tool descriptor, by name. *)
Definition local (n : string) : Tool :=
  {| name := of_string n; description := []; parameters := []; server_id := None |}.

Definition fresh_base : ToolCallAgent :=
  {| state := IDLE; memory := {| messages := [] |};
     next_step_prompt := of_string "next"; browser := false |}.

(** The agent as its constructor builds it, lines 41-61 (the names of the
    tools are those of the upstream tools). *)
Definition agent0 : SuperAgent :=
  {| base := fresh_base;
     mcp_clients := {| sessions := ∅; tools := [] |};
     available_tools :=
       ToolCollection [local "python_execute"; local "browser_use"; local "summary";
                       local "str_replace_editor"; local "ask_human"; local "terminate"];
     connected_servers := ∅;
     _initialized := false |}.

Definition assistant_says (c : string) : Message :=
  {| role := assistant; content := Some (of_string c); tool_calls := None |}.

Definition sse_entry (sid u : string) : str * ServerConfig :=
  (of_string sid,
   {| type := of_string "sse"; url := Some (of_string u); command := None; args := [] |}).

(** Server [http://a] advertises a tool [search] and a tool named
    [summary], as the local tool is; server [http://c] advertises
    [translate]; nothing else answers. *)
Definition servers (tr : Transport) (endpoint : str) (arguments : list str)
    : Answer (list Tool) :=
  if eqb endpoint (of_string "http://a") then Ok [local "search"; local "summary"]
  else if eqb endpoint (of_string "http://c") then Ok [local "translate"]
  else Err (Exception (of_string "unreachable")).

Definition set_state (s : AgentState) (b : ToolCallAgent) : ToolCallAgent :=
  {| state := s; memory := memory b; next_step_prompt := next_step_prompt b;
     browser := browser b |}.

(** A world with the configuration [entries], in which [super().think]
    appends one assistant message and answers [thought], [act] answers
    [result] and leaves the agent in state [after], and [observe] answers
    [observed]. *)
Definition world_of (entries : list (str * ServerConfig))
    (thought : Answer bool) (result : Answer str)
    (after : AgentState) (observed : Answer unit) : Env :=
  {| server := servers;
     config := entries;
     BrowserUseTool_name := of_string "browser_use";
     super_think := λ _ b,
       (thought, set_memory (add_message (assistant_says "thinking") (memory b)) b);
     act := λ _ b, (result, set_state after b);
     observe := λ b, (observed, b);
     format_next_step_prompt := λ b, (Ok (of_string "augmented"), b) |}.

(** The world without configured servers in which [super().think] asks
    to go on, [act] answers [result] and [observe] succeeds. *)
Definition world (result : Answer str) : Env :=
  world_of [] (Ok true) result IDLE (Ok tt).

(** The same world with three configured servers, the second of which
    does not answer. *)
Definition configured (result : Answer str) : Env :=
  world_of [sse_entry "A" "http://a"; sse_entry "B" "http://b";
            sse_entry "C" "http://c"]
    (Ok true) result IDLE (Ok tt).

Definition boom : Exn := Exception (of_string "boom").

(** [agent0] with a memory of four messages, the third of which calls the
    browser tool. *)
Definition browsing : SuperAgent :=
  set_base
    (set_memory
       {| messages :=
            [user_message (of_string "open the page");
             assistant_says "opening";
             {| role := assistant; content := None;
                tool_calls := Some [{| function_name := of_string "browser_use";
                                       function_arguments := of_string "{}" |}] |};
             {| role := tool; content := Some (of_string "opened");
                tool_calls := None |}] |}
       fresh_base)
    agent0.

(** [agent0] after [connect_mcp_server("http://a", "A")]. *)
Definition agent1 : SuperAgent :=
  connected (of_string "http://a") (of_string "A") [local "search"; local "summary"] agent0.

End Sample.

(** ** The Summary tool ([src/app/tool/summary.py]) *)

Module Summary.

(** A value decoded from JSON, as [response.json()] returns it; the
    members of an object are those of the decoded [dict], each key once. *)
#[local] Unset Elimination Schemes.
Inductive Json :=
| JNull
| JBool (b : bool)
| JInt (z : Z)
| JFloat (repr : str)
| JStr (s : str)
| JArr (items : list Json)
| JObj (members : list (str * Json)).
#[local] Set Elimination Schemes.

Definition quote : str := [39%N].

(** [d[key]] on the members of a [dict]. *)
Fixpoint lookup_member (key : str) (members : list (str * Json)) : option Json :=
  match members with
  | [] => None
  | (k, v) :: members' => if eqb k key then Some v else lookup_member key members'
  end.

(** [value[key]] with a string key: only a [dict] that has the key answers. *)
Definition getitem (value : Json) (key : str) : Answer Json :=
  match value with
  | JObj members =>
      match lookup_member key members with
      | Some v => Ok v
      | None => Err (Exception (quote ++ key ++ quote))            (* KeyError *)
      end
  | JArr _ =>
      Err (Exception (of_string "list indices must be integers or slices, not str"))
  | JStr _ => Err (Exception (of_string "string indices must be integers, not 'str'"))
  | JNull => Err (Exception (of_string "'NoneType' object is not subscriptable"))
  | JBool _ => Err (Exception (of_string "'bool' object is not subscriptable"))
  | JInt _ => Err (Exception (of_string "'int' object is not subscriptable"))
  | JFloat _ => Err (Exception (of_string "'float' object is not subscriptable"))
  end.

(** [value[0]]: the first item of a list, the first character of a
    string; a [dict] decoded from JSON has no key [0]. *)
Definition getitem0 (value : Json) : Answer Json :=
  match value with
  | JArr (x :: _) => Ok x
  | JArr [] => Err (Exception (of_string "list index out of range"))
  | JStr (c :: _) => Ok (JStr [c])
  | JStr [] => Err (Exception (of_string "string index out of range"))
  | JObj _ => Err (Exception (of_string "0"))                       (* KeyError *)
  | JNull => Err (Exception (of_string "'NoneType' object is not subscriptable"))
  | JBool _ => Err (Exception (of_string "'bool' object is not subscriptable"))
  | JInt _ => Err (Exception (of_string "'int' object is not subscriptable"))
  | JFloat _ => Err (Exception (of_string "'float' object is not subscriptable"))
  end.

(** [res["choices"][0]["message"]["content"]], line 71. *)
Definition extract (res : Json) : Answer Json :=
  match getitem res (of_string "choices") with
  | Err e => Err e
  | Ok choices =>
      match getitem0 choices with
      | Err e => Err e
      | Ok choice =>
          match getitem choice (of_string "message") with
          | Err e => Err e
          | Ok message => getitem message (of_string "content")
          end
      end
  end.

(** The request of lines 43-67. *)
Record Request := {
  endpoint : str;
  authorization : str;
  content_type : str;
  payload : Json;
  timeout : Z
}.

Definition member (k : string) (v : Json) : str * Json := (of_string k, v).

Definition request (api_key query : str) : Request :=
  {| endpoint := of_string "https://api.perplexity.ai/chat/completions";
     authorization := of_string "Bearer " ++ api_key;
     content_type := of_string "application/json";
     payload :=
       JObj [member "model" (JStr (of_string "sonar-pro"));
             member "messages"
               (JArr [JObj [member "role" (JStr (of_string "system"));
                            member "content"
                              (JStr (of_string "You are a helpful assistant who excels at providing up to date and accurate data"))];
                      JObj [member "role" (JStr (of_string "user"));
                            member "content" (JStr query)]]);
             member "web_search_options"
               (JObj [member "search_context_size" (JStr (of_string "medium"))])];
     timeout := 30 |}.

(** The response: its status code, and what [response.json()] gives. *)
Record Response := { status_code : Z; json : Answer Json }.

(** What [execute] depends on: the configured key (reading
    [config.llm['default'].perplexity_api_key] can raise) and the network
    ([requests.post] can raise). *)
Record World := {
  perplexity_api_key : Answer str;
  post : Request → Answer Response
}.

(** The logging statements of [summary.py]. *)
Inductive LogRec :=
| LStatus (code : Z)      (* logger.warning, line 73 *)
| LSearchError (e : str). (* logger.error, line 78 *)

(** The [try] block of [execute], lines 42-75: it returns a value
    ([Ok (Some v)]), falls through to line 80 ([Ok None]), or raises. *)
Definition try_block (w : World) (query : str) : Answer (option Json) * list LogRec :=
  match perplexity_api_key w with
  | Err e => (Err e, [])
  | Ok api_key =>
      match post w (request api_key query) with
      | Err e => (Err e, [])
      | Ok response =>
          if (status_code response =? 200)%Z then
            match json response with
            | Err e => (Err e, [])
            | Ok res =>
                match extract res with
                | Err e => (Err e, [])
                | Ok c => (Ok (Some c), [])
                end
            end
          else (Ok None, [LStatus (status_code response)])
      end
  end.

(** [Summary.execute], lines 28-80; [num_results] and [search_params] are
    not used by the body. *)
Definition execute (w : World) (query : str) (num_results : option Z)
    (search_params : option Json) : Answer Json * list LogRec :=
  match try_block w query with
  | (Ok (Some c), logs) => (Ok c, logs)
  | (Ok None, logs) => (Ok (JArr []), logs)
  | (Err e, logs) => (Ok (JArr []), logs ++ [LSearchError (str_of e)])
  end.

(** A response with status 200 whose body holds one choice. *)
Definition answer_with (c : Json) : Response :=
  {| status_code := 200;
     json := Ok (JObj [member "choices"
                         (JArr [JObj [member "message"
                                        (JObj [member "content" c])]])]) |}.

End Summary.

(** ** The factory, and the notions of the life cycle *)

Section factory.

Variable env : Env.

(** [SuperAgent.create], lines 69-75, run on the instance the constructor
    has built: the servers of the configuration are connected, then the
    flag is set. *)
Definition create : M unit :=
  initialize_mcp_servers env;;
  modify_self (set_initialized true).

(** The instance the constructor builds, lines 37-61: the local tools, no
    session, no entry in the server table, the flag down. *)
Definition built (b : ToolCallAgent) (locals : list Tool) : SuperAgent :=
  {| base := b;
     mcp_clients := {| sessions := ∅; tools := [] |};
     available_tools := ToolCollection locals;
     connected_servers := ∅;
     _initialized := false |}.

(** What one entry of the configuration leaves in the trace of
    [initialize_mcp_servers]: nothing when it asks for no connection, and
    otherwise the connection attempt and one log record, of the success
    or of the failure. *)
Definition entry_trace (entry : str * ServerConfig) : list Obs :=
  match attempt entry.2 with
  | None => []
  | Some att =>
      [Call (connect_call entry.1 att);
       Log (match answer env att with
            | Ok _ => connected_record entry.1 att
            | Err e => LConnectFailed entry.1 (str_of e)
            end)]
  end.

(** A tool that a reachable server of the configuration advertised,
    with the tag of that server. *)
Definition offered (t : Tool) : Prop :=
  ∃ sid server_config att advertised,
    (sid, server_config) ∈ config env
    ∧ attempt server_config = Some att
    ∧ answer env att = Ok advertised
    ∧ t ∈ tag sid <$> advertised.

(** The registry of the agent holds, under the name [n], a tool that a
    reachable server of the configuration advertised. *)
Definition serves (a : SuperAgent) (n : str) : Prop :=
  ∃ t, t ∈ available_tools a ∧ name t = n ∧ offered t.

(** The state of an agent whose loop goes on, line 185. *)
Definition alive (b : ToolCallAgent) : Prop := state b ∉ [FINISHED; ERROR].

(** How often [act] was awaited. *)
Definition acts (tr : list Obs) : nat :=
  length (filter (λ o, o = Call act_called) tr).

(** A content event carries a text that is not empty. *)
Definition worded (o : Obs) : Prop :=
  match o with
  | Emit (content_event c) => c ≠ []
  | _ => True
  end.

End factory.

(** ** Two servers that advertise the same name *)

Module Overlap.

(** Server [http://a] advertises [search] and [summary], server
    [http://d] advertises [search] too; nothing else answers. *)
Definition servers (tr : Transport) (endpoint : str) (arguments : list str)
    : Answer (list Tool) :=
  if eqb endpoint (of_string "http://a")
  then Ok [Sample.local "search"; Sample.local "summary"]
  else if eqb endpoint (of_string "http://d") then Ok [Sample.local "search"]
  else Err (Exception (of_string "unreachable")).

(** The world of [Sample.world] with these servers and the configuration
    [A], [B], [D], of which [B] does not answer. *)
Definition configured : Env :=
  {| server := servers;
     config := [Sample.sse_entry "A" "http://a"; Sample.sse_entry "B" "http://b";
                Sample.sse_entry "D" "http://d"];
     BrowserUseTool_name := of_string "browser_use";
     super_think := super_think (Sample.world (Ok []));
     act := act (Sample.world (Ok []));
     observe := observe (Sample.world (Ok []));
     format_next_step_prompt := format_next_step_prompt (Sample.world (Ok [])) |}.

End Overlap.

(** A method all of whose observations, in every run, satisfy [P]. *)
Definition traced {A} (P : Obs → Prop) (m : M A) : Prop :=
  ∀ g o g' tr, m g = (o, g', tr) → Forall P tr.

(** The events of a trace, and their number. *)
Definition is_event (o : Obs) : Prop :=
  match o with Emit _ => True | _ => False end.

#[global] Instance is_event_dec o : Decision (is_event o).
Proof. destruct o; simpl; apply _. Defined.

Definition events (tr : list Obs) : nat := length (filter is_event tr).

(** A method that keeps the account of the consumer and is left by
    [GeneratorExit] at an event only: what the consumer still asks for
    goes down by the number of events emitted; the method is left by
    [GeneratorExit] with the event the consumer asked for last; and the
    consumer is still there when it ends otherwise. *)
Definition polite {A} (m : M A) : Prop :=
  ∀ g o g' tr,
    budget g ≠ Some 0 → m g = (o, g', tr) →
    match budget g with
    | None => budget g' = None
    | Some k => ∃ k', budget g' = Some k' ∧ events tr + k' = k
    end
    ∧ match o with
      | GeneratorExit => budget g' = Some 0 ∧ ∃ pre ev, tr = pre ++ [Emit ev]
      | Fuel => True
      | _ => budget g' ≠ Some 0
      end.

(** ** The web endpoint ([src/app/api/main.py]) *)

Module Api.

(** *** The chunks of the response

    Every chunk is [data: ] followed by [json.dumps] of a dictionary of
    one entry, [content] or [error], and two line feeds (lines 42, 49,
    52, 61 and 65).  The dictionaries are the events of [StreamEvent]. *)

(** [format(n, 'x')] of a number below sixteen. *)
Definition hex_digit (n : N) : N :=
  if (n <? 10)%N then (48 + n)%N else (87 + n)%N.

(** [format(n, '04x')] of a number below 65536. *)
Definition hex4 (n : N) : str :=
  [hex_digit ((n / 4096) mod 16); hex_digit ((n / 256) mod 16);
   hex_digit ((n / 16) mod 16); hex_digit (n mod 16)]%N.

(** A backslash, [u], and four hexadecimal digits. *)
Definition backslash_u (n : N) : str := [92%N; 117%N] ++ hex4 n.

(** What [json.dumps], with [ensure_ascii] left to its default, writes
    for one code point of a string ([py_encode_basestring_ascii] of
    [json.encoder]): the double quote and the backslash get a backslash,
    the control characters with a short name get it, the other code
    points from the space to the tilde stand for themselves, and every
    other code point is written in hexadecimal, as a surrogate pair when
    it is above 65535. *)
Definition escape (c : N) : str :=
  (if c =? 34 then [92; 34]
   else if c =? 92 then [92; 92]
   else if c =? 10 then [92; 110]
   else if c =? 13 then [92; 114]
   else if c =? 9 then [92; 116]
   else if c =? 8 then [92; 98]
   else if c =? 12 then [92; 102]
   else if (32 <=? c) && (c <=? 126) then [c]
   else if c <? 65536 then backslash_u c
   else
     let n := c - 65536 in
     backslash_u (N.lor 55296 (N.land (N.shiftr n 10) 1023))
     ++ backslash_u (N.lor 56320 (N.land n 1023)))%N.

(** [json.dumps(s)] of a string. *)
Definition encode_basestring_ascii (s : str) : str :=
  dquote ++ concat (escape <$> s) ++ dquote.

(** [json.dumps({key: value})] of a dictionary of one entry, with the
    default separators. *)
Definition dumps (key value : str) : str :=
  of_string "{" ++ encode_basestring_ascii key ++ of_string ": "
  ++ encode_basestring_ascii value ++ of_string "}".

(** The chunk of an event. *)
Definition frame (ev : StreamEvent) : str :=
  of_string "data: "
  ++ match ev with
     | content_event s => dumps (of_string "content") s
     | error_event s => dumps (of_string "error") s
     end
  ++ [10%N; 10%N].

(** The code points from the space to the tilde. *)
Definition printable (c : N) : Prop := (32 <= c <= 126)%N.

(** *** The agent and the generator *)

(** Class [Manus] of [app.agent.manus] is not in the sources.  The
    endpoint uses of its agent what [ToolCallAgent] declares, [state],
    [memory], [think], [act] and [cleanup], and builds it with
    [Manus.create()]; these methods are what a world gives. *)
Record Manus := {
  create : Answer ToolCallAgent;
  think : ToolCallAgent → Answer bool * ToolCallAgent;
  act : ToolCallAgent → Answer str * ToolCallAgent;
  cleanup : ToolCallAgent → Answer unit * ToolCallAgent
}.

(** Modelled from the spec: the value of a member of [AgentState] of
    [app.schema], which is not in the sources; "state ∈ {IDLE, RUNNING,
    FINISHED, ERROR}".  Line 32 compares the state with these texts. *)
Definition AgentState_value (s : AgentState) : str :=
  match s with
  | IDLE => of_string "IDLE"
  | RUNNING => of_string "RUNNING"
  | FINISHED => of_string "FINISHED"
  | ERROR => of_string "ERROR"
  end.

(** The calls the properties count, and what the generator does, in
    order: the chunks it yields and the methods it awaits. *)
Inductive Called := think_called | act_called | cleanup_called.

Inductive Obs :=
| Chunk (s : str)
| Call (c : Called).

#[export] Instance Called_eq_dec : EqDecision Called.
Proof. solve_decision. Defined.
#[export] Instance Obs_eq_dec : EqDecision Obs.
Proof. solve_decision. Defined.

(** The generator: its agent, and its consumer (the server that sends
    the response), which closes it after [k] more chunks when [budget] is
    [Some k]. *)
Record Gen := { agent : ToolCallAgent; budget : option nat }.

Definition G (A : Type) : Type := Gen → Outcome A * Gen * list Obs.

#[export] Instance G_ret : MRet G := λ A a g, (Ret a, g, []).

#[export] Instance G_bind : MBind G := λ A B k m g,
  match m g with
  | (Ret a, g', tr) => let '(o, g'', tr') := k a g' in (o, g'', tr ++ tr')
  | (Raise e, g', tr) => (Raise e, g', tr)
  | (GeneratorExit, g', tr) => (GeneratorExit, g', tr)
  | (Fuel, g', tr) => (Fuel, g', tr)
  end.

Definition get_agent : G ToolCallAgent := λ g, (Ret (agent g), g, []).

Definition modify_agent (f : ToolCallAgent → ToolCallAgent) : G unit :=
  λ g, (Ret tt, {| agent := f (agent g); budget := budget g |}, []).

(** [await agent.f()]. *)
Definition await {A} (c : Called)
    (f : ToolCallAgent → Answer A * ToolCallAgent) : G A := λ g,
  let '(ans, a') := f (agent g) in
  (match ans with
   | Ok a => Ret a
   | Err e => Raise e
   end, {| agent := a'; budget := budget g |}, [Call c]).

(** [try: m  except Exception as e: h e]. *)
Definition try_except {A} (m : G A) (h : Exn → G A) : G A := λ g,
  match m g with
  | (Raise e, g', tr) => let '(o, g'', tr') := h e g' in (o, g'', tr ++ tr')
  | r => r
  end.

(** [try: m  finally: f]. *)
Definition try_finally {A} (m : G A) (f : G unit) : G A := λ g,
  match m g with
  | (Fuel, g', tr) => (Fuel, g', tr)
  | (o, g', tr) =>
      match f g' with
      | (Ret _, g'', tr') => (o, g'', tr ++ tr')
      | (Raise e, g'', tr') => (Raise e, g'', tr ++ tr')
      | (GeneratorExit, g'', tr') => (GeneratorExit, g'', tr ++ tr')
      | (Fuel, g'', tr') => (Fuel, g'', tr ++ tr')
      end
  end.

(** [yield] of the chunk of an event. *)
Definition yield (ev : StreamEvent) : G unit := λ g,
  match budget g with
  | None => (Ret tt, g, [Chunk (frame ev)])
  | Some 0 => (GeneratorExit, g, [])
  | Some 1 => (GeneratorExit, {| agent := agent g; budget := Some 0 |}, [Chunk (frame ev)])
  | Some (S k) => (Ret tt, {| agent := agent g; budget := Some k |}, [Chunk (frame ev)])
  end.

(** [while cond: body], with [fuel] iterations at most. *)
Fixpoint while (fuel : nat) (cond : ToolCallAgent → bool) (body : G Flow) : G unit :=
  λ g,
    if cond (agent g) then
      match fuel with
      | 0 => (Fuel, g, [])
      | S fuel' =>
          (f ← body;
           match f with
           | Break => mret tt
           | Next => while fuel' cond body
           end) g
      end
    else (Ret tt, g, []).

Section endpoint.

Variable w : Manus.

(** The act step, lines 38-53. *)
Definition act_step : G Flow :=
  try_except
    (result ← await act_called (act w);
     if truthy result then
       yield (content_event (of_string "Action taken: " ++ result));;
       if is_termination result then
         yield (content_event (of_string "Task completed successfully!"));;
         mret Break
       else mret Next
     else mret Next)
    (λ e,
       yield (error_event (str_of e));;
       mret Break).

(** One iteration of the loop, lines 33-55. *)
Definition iteration : G Flow :=
  b ← await think_called (think w);
  if negb b then mret Break else act_step.

(** The condition of the loop, line 32. *)
Definition running (a : ToolCallAgent) : bool :=
  bool_decide (AgentState_value (state a) ∉ [of_string "FINISHED"; of_string "ERROR"]).

(** [msg.role == "assistant" and msg.content], line 60. *)
Definition has_thoughts (msg : Message) : bool :=
  bool_decide (role msg = assistant)
  && match content msg with
     | Some c => truthy c
     | None => false
     end.

(** The loop of lines 59-62 over the messages [msgs], the most recent
    first: the first assistant message that has a content is yielded. *)
Fixpoint final_thoughts (msgs : list Message) : G unit :=
  match msgs with
  | [] => mret tt
  | msg :: msgs' =>
      if has_thoughts msg then
        yield (content_event (of_string "Final thoughts: " ++ default [] (content msg)))
      else final_thoughts msgs'
  end.

(** The body of the generator [generate], lines 25-67. *)
Definition generate_body (fuel : nat) (prompt : str) : G unit :=
  try_finally
    (try_except
       (modify_agent (λ a, set_memory (add_message (user_message prompt) (memory a)) a);;
        while fuel running iteration;;
        a ← get_agent;
        if bool_decide (messages (memory a) ≠ []) then
          final_thoughts (reverse (messages (memory a)))
        else mret tt)
       (λ e, yield (error_event (str_of e))))
    (await cleanup_called (cleanup w)).

(** [generate] as the server runs it: a server that never asks for a
    chunk never starts the body. *)
Definition generate (fuel : nat) (prompt : str) : G unit := λ g,
  match budget g with
  | Some 0 => (GeneratorExit, g, [])
  | _ => generate_body fuel prompt g
  end.

(** What [stream_prompt] answers, lines 19-72: the streaming response
    over the generator of a new agent, or the error 500 when the agent
    cannot be built. *)
Inductive Reply :=
| StreamingResponse (body : nat → option nat → Outcome unit * Gen * list Obs)
| HTTPException (status_code : Z) (detail : str).

Definition stream_prompt (prompt : str) : Reply :=
  match create w with
  | Ok a =>
      StreamingResponse
        (λ fuel consumer, generate fuel prompt {| agent := a; budget := consumer |})
  | Err e => HTTPException 500 (str_of e)
  end.

End endpoint.

(** How often [cleanup] was awaited. *)
Definition cleanups (tr : list Obs) : nat :=
  length (filter (λ o, o = Call cleanup_called) tr).

(** The chunks of a trace. *)
Definition chunks (tr : list Obs) : list str :=
  omap (λ o, match o with Chunk s => Some s | Call _ => None end) tr.

(** A chunk is one event of the event stream: the field [data], a text
    of printable ASCII characters, and the empty line that ends the
    event. *)
Definition one_event (s : str) : Prop :=
  ∃ body, s = of_string "data: " ++ body ++ [10%N; 10%N] ∧ Forall printable body.

Definition framed (o : Obs) : Prop :=
  match o with
  | Chunk s => one_event s
  | Call _ => True
  end.

(** A method all of whose observations, in every run, satisfy [P]. *)
Definition traced {A} (P : Obs → Prop) (m : G A) : Prop :=
  ∀ g o g' tr, m g = (o, g', tr) → Forall P tr.

(** The most recent assistant message of [msgs] that has a content. *)
Definition last_thoughts (msgs : list Message) : option Message :=
  last (filter (λ msg, has_thoughts msg = true) msgs).

(** A world of the endpoint: the agent is built in state [IDLE] with an
    empty memory, [think] appends one assistant message and asks to go
    on, [act] answers [result], [cleanup] answers [cleaned]. *)
Definition manus (result : Answer str) (cleaned : Answer unit) : Manus :=
  {| create := Ok Sample.fresh_base;
     think := λ a,
       (Ok true,
        set_memory (add_message (Sample.assistant_says "thinking") (memory a)) a);
     act := λ a, (result, a);
     cleanup := λ a, (cleaned, a) |}.

End Api.

(** * Properties *)

(** ** [str.strip] and the termination test *)

Section strip_facts.

Lemma lstrip_spaces_app pre s : all_space pre → lstrip (pre ++ s) = lstrip s.
Proof.
  induction 1 as [|c pre Hc _ IH]; simpl; [done|]. by rewrite Hc.
Qed.

Lemma lstrip_decompose s : ∃ pre, all_space pre ∧ s = pre ++ lstrip s.
Proof.
  induction s as [|c s [pre [Hpre Heq]]]; simpl.
  - exists []. split; [constructor | done].
  - destruct (isspace c) eqn:Hc.
    + exists (c :: pre). split; [by constructor|]. simpl. by f_equal.
    + exists []. split; [constructor | done].
Qed.

Lemma lstrip_head c s : isspace c = false → lstrip (c :: s) = c :: s.
Proof. intros Hc. simpl. by rewrite Hc. Qed.

Lemma all_space_rev s : all_space s → all_space (reverse s).
Proof. unfold all_space. by rewrite Forall_reverse. Qed.

Lemma rstrip_spaces_app s post : all_space post → rstrip (s ++ post) = rstrip s.
Proof.
  intros Hpost. unfold rstrip. rewrite reverse_app.
  by rewrite lstrip_spaces_app; [|apply all_space_rev].
Qed.

Lemma rstrip_decompose s : ∃ post, all_space post ∧ s = rstrip s ++ post.
Proof.
  destruct (lstrip_decompose (reverse s)) as [pre [Hpre Heq]].
  exists (reverse pre). split; [by apply all_space_rev|].
  unfold rstrip. rewrite <- reverse_app, <- Heq. by rewrite reverse_involutive.
Qed.

Lemma rstrip_last s c : isspace c = false → rstrip (s ++ [c]) = s ++ [c].
Proof.
  intros Hc. unfold rstrip. rewrite reverse_app, reverse_singleton. simpl.
  rewrite Hc. by rewrite reverse_cons, reverse_involutive.
Qed.

(** A word that neither starts nor ends with white space is what [strip]
    returns exactly on the paddings of that word. *)
Lemma strip_padded c w d pre post :
  isspace c = false → isspace d = false →
  all_space pre → all_space post →
  strip (pre ++ (c :: w ++ [d]) ++ post) = c :: w ++ [d].
Proof.
  intros Hc Hd Hpre Hpost. unfold strip.
  rewrite lstrip_spaces_app by done.
  change ((c :: w ++ [d]) ++ post) with (c :: (w ++ [d]) ++ post).
  rewrite lstrip_head by done.
  change (c :: (w ++ [d]) ++ post) with ((c :: w ++ [d]) ++ post).
  rewrite rstrip_spaces_app by done.
  change (c :: w ++ [d]) with ((c :: w) ++ [d]).
  by rewrite rstrip_last.
Qed.

Lemma strip_decompose s :
  ∃ pre post, all_space pre ∧ all_space post ∧ s = pre ++ strip s ++ post.
Proof.
  destruct (lstrip_decompose s) as [pre [Hpre Heq]].
  destruct (rstrip_decompose (lstrip s)) as [post [Hpost Heq']].
  exists pre, post. split; [done|]. split; [done|].
  unfold strip. by rewrite <- Heq', <- Heq.
Qed.

(** The termination test accepts exactly the sentinel padded with white
    space on either side. *)
Lemma is_termination_spec result :
  is_termination result = true ↔
  ∃ pre post, all_space pre ∧ all_space post ∧ result = pre ++ SENTINEL ++ post.
Proof.
  unfold is_termination, eqb. rewrite bool_decide_eq_true. split.
  - intros Heq. destruct (strip_decompose result) as (pre & post & H1 & H2 & H3).
    exists pre, post. by rewrite <- Heq.
  - intros (pre & post & H1 & H2 & ->).
    change SENTINEL with
      (123%N :: (dquote ++ of_string "status" ++ dquote ++ of_string ":"
                 ++ dquote ++ of_string "success" ++ dquote) ++ [125%N]).
    by apply strip_padded.
Qed.

End strip_facts.

(** ** The tool registry: upsert by name *)

Section registry.

Implicit Types (t u : Tool) (c ts : list Tool) (n : str).


Lemma add_tools_snoc c ts t : add_tools c (ts ++ [t]) = add_tool t (add_tools c ts).
Proof. unfold add_tools. by rewrite foldl_app. Qed.

Lemma elem_of_add_tool_self t c : t ∈ add_tool t c.
Proof.
  induction c as [|u c IH]; simpl; [by apply list_elem_of_singleton|].
  case_bool_decide; [left | by right].
Qed.

Lemma elem_of_add_tool_inv u t c : u ∈ add_tool t c → u = t ∨ u ∈ c.
Proof.
  induction c as [|v c IH]; simpl.
  - intros ->%list_elem_of_singleton. by left.
  - case_bool_decide.
    + intros [->|?]%elem_of_cons; [by left | right; by right].
    + intros [->|?]%elem_of_cons; [right; left | ].
      destruct IH as [?|?]; [done | by left | right; by right].
Qed.

Lemma elem_of_add_tool_other u t c : u ∈ c → name u ≠ name t → u ∈ add_tool t c.
Proof.
  induction c as [|v c IH]; simpl; [by intros ?%elem_of_nil|].
  intros [->|Hu]%elem_of_cons Hne.
  - rewrite bool_decide_eq_false_2 by done. left.
  - case_bool_decide; right; [done | by apply IH].
Qed.

Lemma names_add_tool t c :
  names (add_tool t c) = if decide (name t ∈ names c) then names c else names c ++ [name t].
Proof.
  unfold names. induction c as [|v c IH].
  - rewrite decide_False; [done | by intros ?%elem_of_nil].
  - cbn [add_tool]. case_bool_decide as Hv; rewrite !fmap_cons.
    + rewrite decide_True; [by rewrite Hv | rewrite Hv; left].
    + rewrite IH. destruct (decide (name t ∈ name <$> c)) as [Hin|Hin].
      * rewrite decide_True; [done | by right].
      * rewrite decide_False; [done|].
        intros [?|?]%elem_of_cons; [by apply Hv | done].
Qed.

Lemma NoDup_names_add_tool t c : NoDup (names c) → NoDup (names (add_tool t c)).
Proof.
  intros Hc. rewrite names_add_tool. case_decide; [done|].
  apply NoDup_app. split; [done|]. split; [|apply NoDup_singleton].
  intros x Hx ->%list_elem_of_singleton. done.
Qed.

Lemma names_add_tool_mono n t c : n ∈ names c → n ∈ names (add_tool t c).
Proof.
  intros Hn. rewrite names_add_tool. case_decide; [done|].
  apply elem_of_app. by left.
Qed.

Lemma NoDup_names_add_tools c ts : NoDup (names c) → NoDup (names (add_tools c ts)).
Proof.
  induction ts as [|t ts IH] using rev_ind; [done|].
  intros Hc. rewrite add_tools_snoc. by apply NoDup_names_add_tool, IH.
Qed.

Lemma names_add_tools_mono n c ts : n ∈ names c → n ∈ names (add_tools c ts).
Proof.
  induction ts as [|t ts IH] using rev_ind; [done|].
  intros Hc. rewrite add_tools_snoc. by apply names_add_tool_mono, IH.
Qed.

(** Nothing but the added tools enters the collection. *)
Lemma elem_of_add_tools_inv u c ts : u ∈ add_tools c ts → u ∈ c ∨ u ∈ ts.
Proof.
  induction ts as [|t ts IH] using rev_ind; [by left|].
  rewrite add_tools_snoc. intros [->|Hu]%elem_of_add_tool_inv.
  - right. apply elem_of_app. right. by apply list_elem_of_singleton.
  - destruct (IH Hu) as [?|?]; [by left|]. right. apply elem_of_app. by left.
Qed.

(** An entry stays when no added tool has its name. *)
Lemma elem_of_add_tools_other u c ts : u ∈ c → name u ∉ names ts → u ∈ add_tools c ts.
Proof.
  induction ts as [|t ts IH] using rev_ind; [done|].
  intros Hu Hn. rewrite add_tools_snoc. unfold names in Hn.
  rewrite fmap_app in Hn. apply not_elem_of_app in Hn as [Hn1 Hn2].
  apply elem_of_add_tool_other; [by apply IH|].
  intros Heq. apply Hn2. rewrite Heq. by apply list_elem_of_singleton.
Qed.

(** Every added name is registered, for one of the added tools. *)
Lemma elem_of_add_tools_name n c ts :
  n ∈ names ts → ∃ t, t ∈ ts ∧ name t = n ∧ t ∈ add_tools c ts.
Proof.
  induction ts as [|t ts IH] using rev_ind; [by intros ?%elem_of_nil|].
  unfold names. rewrite fmap_app, add_tools_snoc. intros Hn.
  destruct (decide (name t = n)) as [Heq|Hne].
  - exists t. split; [apply elem_of_app; right; by apply list_elem_of_singleton|].
    split; [done | apply elem_of_add_tool_self].
  - apply elem_of_app in Hn as [Hn|Hn].
    + destruct (IH Hn) as (t' & H1 & H2 & H3). exists t'.
      split; [apply elem_of_app; by left|]. split; [done|].
      apply elem_of_add_tool_other; [done | congruence].
    + apply list_elem_of_singleton in Hn. done.
Qed.

(** In a collection without duplicate names, the name determines the
    entry. *)
Lemma NoDup_names_inj c t u :
  NoDup (names c) → t ∈ c → u ∈ c → name t = name u → t = u.
Proof.
  unfold names. induction c as [|v c IH]; simpl; [by intros _ ?%elem_of_nil|].
  intros [Hv Hc]%NoDup_cons [->|Ht]%elem_of_cons [->|Hu]%elem_of_cons Heq; try done.
  - exfalso. apply Hv. rewrite Heq. by apply list_elem_of_fmap_2.
  - exfalso. apply Hv. rewrite <- Heq. by apply list_elem_of_fmap_2.
  - by apply IH.
Qed.

Lemma NoDup_names_filter (P : Tool → Prop) `{∀ t, Decision (P t)} c :
  NoDup (names c) → NoDup (names (filter P c)).
Proof.
  unfold names. induction c as [|v c IH]; simpl; [done|].
  intros [Hv Hc]%NoDup_cons. rewrite filter_cons. case_decide; [|by apply IH].
  simpl. apply NoDup_cons. split; [|by apply IH].
  intros (u & Hu1 & Hu2)%list_elem_of_fmap. apply list_elem_of_filter in Hu2 as [_ Hu2].
  apply Hv. rewrite Hu1. by apply list_elem_of_fmap_2.
Qed.

(** A tool added from a list without duplicate names is registered. *)
Lemma elem_of_add_tools_new t c ts : NoDup (names ts) → t ∈ ts → t ∈ add_tools c ts.
Proof.
  intros Hts Ht.
  destruct (elem_of_add_tools_name (name t) c ts) as (t' & H1 & H2 & H3).
  { by apply list_elem_of_fmap_2. }
  by rewrite <- (NoDup_names_inj ts t' t).
Qed.

(** An entry whose name is added is one of the added tools. *)
Lemma elem_of_add_tools_replaced u c ts :
  NoDup (names c) → u ∈ add_tools c ts → name u ∈ names ts → u ∈ ts.
Proof.
  intros Hc Hu Hn.
  destruct (elem_of_add_tools_name (name u) c ts Hn) as (t' & H1 & H2 & H3).
  by rewrite <- (NoDup_names_inj (add_tools c ts) t' u);
    [| apply NoDup_names_add_tools | | |].
Qed.

(** Tools with fresh, distinct names are appended in order. *)
Lemma add_tools_fresh c ts : NoDup (names (c ++ ts)) → add_tools c ts = c ++ ts.
Proof.
  revert c. induction ts as [|t ts IH]; intros c Hnd; [by rewrite app_nil_r|].
  change (add_tools c (t :: ts)) with (add_tools (add_tool t c) ts).
  assert (add_tool t c = c ++ [t]) as ->.
  { clear IH. unfold names in Hnd. rewrite fmap_app in Hnd.
    apply NoDup_app in Hnd as (_ & Hdisj & _).
    induction c as [|v c IHc]; simpl; [done|].
    rewrite bool_decide_eq_false_2.
    - f_equal. apply IHc. intros x Hx. apply Hdisj. by right.
    - intros Heq. apply (Hdisj (name v)); [left|]. rewrite Heq. left. }
  rewrite (cons_middle t c ts), app_assoc. apply IH.
  by rewrite <- app_assoc, <- cons_middle.
Qed.

Lemma ToolCollection_NoDup ts : NoDup (names (ToolCollection ts)).
Proof. apply NoDup_names_add_tools. constructor. Qed.

Lemma ToolCollection_id ts : NoDup (names ts) → ToolCollection ts = ts.
Proof. intros. unfold ToolCollection. by rewrite add_tools_fresh. Qed.

End registry.

(** ** Connecting and disconnecting remote servers *)

Section servers.

Variable env : Env.

Implicit Types (a : SuperAgent) (g : Gen) (t u : Tool) (sid : str).
Implicit Types (advertised : list Tool).





Lemma connect_mcp_server_Ok server_url sid use_stdio stdio_args advertised g :
  server env (transport_of use_stdio) server_url (arguments_of use_stdio stdio_args)
    = Ok advertised →
  connect_mcp_server env server_url sid use_stdio stdio_args g
  = (Ret tt,
     {| self := connected server_url sid advertised (self g); budget := budget g |},
     [Call (connect_called (transport_of use_stdio) server_url sid)]).
Proof.
  intros Hs. destruct g as [a bud].
  unfold connect_mcp_server, connect_stdio, connect_sse, MCPClients_connect.
  destruct use_stdio; simpl in Hs;
    unfold mbind, M_bind, call, observe_, modify_self, get_self; simpl;
    rewrite Hs; reflexivity.
Qed.

Lemma connect_mcp_server_Err server_url sid use_stdio stdio_args e g :
  server env (transport_of use_stdio) server_url (arguments_of use_stdio stdio_args)
    = Err e →
  connect_mcp_server env server_url sid use_stdio stdio_args g
  = (Raise e, g, [Call (connect_called (transport_of use_stdio) server_url sid)]).
Proof.
  intros Hs. destruct g as [a bud].
  unfold connect_mcp_server, connect_stdio, connect_sse, MCPClients_connect.
  destruct use_stdio; simpl in Hs;
    unfold mbind, M_bind, call, observe_, modify_self, get_self, raise; simpl;
    rewrite Hs; reflexivity.
Qed.

Lemma disconnect_mcp_server_run sid g :
  disconnect_mcp_server sid g
  = (Ret tt, {| self := disconnected sid (self g); budget := budget g |},
     [Call (disconnect_called sid)]).
Proof.
  destruct g as [a bud]. unfold disconnect_mcp_server.
  destruct sid; reflexivity.
Qed.


Lemma elem_of_tag sid t advertised : t ∈ tag sid <$> advertised → server_id t = Some sid.
Proof. by intros (d & -> & _)%list_elem_of_fmap. Qed.

Lemma consistent_connected endpoint sid advertised a :
  consistent a → consistent (connected endpoint sid advertised a).
Proof.
  intros [H1 H2 H3 H4].
  set (m := add_tools (tools (mcp_clients a)) (tag sid <$> advertised)).
  assert (NoDup (names m)) as Hm by by apply NoDup_names_add_tools.
  set (new := filter (λ t, server_id t = Some sid) m).
  assert (NoDup (names new)) as Hnew by by apply NoDup_names_filter.
  assert (NoDup (names (add_tools (available_tools a) new))) as Hreg
    by by apply NoDup_names_add_tools.
  split; simpl; fold m; fold new; try done.
  - intros t [Ht|Ht]%elem_of_add_tools_inv.
    + destruct (H3 t Ht) as (s & Hs1 & Hs2). exists s.
      split; [done | apply elem_of_union; by right].
    + exists sid.
      split; [by eapply elem_of_tag | apply elem_of_union; left; by apply elem_of_singleton].
  - intros t Hrem. split.
    + intros Ht. destruct (elem_of_add_tools_inv _ _ _ Ht) as [Hold|Hn].
      * apply H4 in Hold; [|done].
        destruct (decide (name t ∈ names (tag sid <$> advertised))) as [Hin|Hnin].
        -- destruct (elem_of_add_tools_name (name t) (tools (mcp_clients a)) _ Hin)
             as (t' & Ht1 & Ht2 & Ht3). fold m in Ht3.
           assert (t' ∈ new) as Ht4.
           { apply list_elem_of_filter. split; [by eapply elem_of_tag | done]. }
           apply (elem_of_add_tools_new _ (available_tools a)) in Ht4; [|done].
           by rewrite <- (NoDup_names_inj _ t' t Hreg Ht4 Ht Ht2).
        -- by apply elem_of_add_tools_other.
      * by apply list_elem_of_filter in Hn as [_ ?].
    + intros Ht. destruct (decide (server_id t = Some sid)) as [Hs|Hs].
      * apply elem_of_add_tools_new; [done|]. by apply list_elem_of_filter.
      * apply elem_of_add_tools_other.
        -- apply H4; [done|].
           apply elem_of_add_tools_inv in Ht as [?|Ht]; [done|].
           by apply elem_of_tag in Ht.
        -- intros (u & Hu1 & Hu2)%list_elem_of_fmap.
           apply list_elem_of_filter in Hu2 as [Hu2 Hu3].
           rewrite (NoDup_names_inj _ t u Hm Ht Hu3 Hu1) in Hs. done.
Qed.

(** What [disconnect_mcp_server] rebuilds: the local entries in their
    order, then the tools [mcp_clients] still holds. *)
Lemma disconnected_registry sid a :
  consistent a →
  available_tools (disconnected sid a)
  = filter local_tool (available_tools a)
    ++ tools (MCPClients_disconnect sid (mcp_clients a)).
Proof.
  intros [H1 H2 H3 H4]. unfold disconnected; simpl.
  assert (filter (λ t, ¬ is_Some (server_id t)) (available_tools a)
          = filter local_tool (available_tools a)) as ->.
  { apply list_filter_iff. intros t. unfold local_tool.
    rewrite <- eq_None_not_Some. done. }
  assert (NoDup (names (filter local_tool (available_tools a)))) as Hl
    by by apply NoDup_names_filter.
  rewrite ToolCollection_id by done.
  apply add_tools_fresh. unfold names. rewrite fmap_app.
  apply NoDup_app. split; [done|]. split.
  - intros n (t & -> & Ht)%list_elem_of_fmap (u & Hu1 & Hu2)%list_elem_of_fmap.
    apply list_elem_of_filter in Ht as [Ht1 Ht2].
    assert (u ∈ tools (mcp_clients a)) as Hu3.
    { unfold MCPClients_disconnect in Hu2. destruct (truthy sid); simpl in Hu2.
      - by apply list_elem_of_filter in Hu2 as [_ ?].
      - by apply elem_of_nil in Hu2. }
    destruct (H3 u Hu3) as (s & Hs & _).
    assert (u ∈ available_tools a) as Hu4 by (apply H4; [by rewrite Hs | done]).
    rewrite (NoDup_names_inj _ t u H1 Ht2 Hu4 Hu1) in Ht1.
    unfold local_tool in Ht1. congruence.
  - unfold MCPClients_disconnect. destruct (truthy sid); simpl.
    + by apply (NoDup_names_filter _ _ H2).
    + constructor.
Qed.

Lemma consistent_disconnected sid a : consistent a → consistent (disconnected sid a).
Proof.
  intros Ha. pose proof (disconnected_registry sid a Ha) as Hreg.
  destruct Ha as [H1 H2 H3 H4].
  assert (∀ t, t ∈ tools (MCPClients_disconnect sid (mcp_clients a)) →
               t ∈ tools (mcp_clients a) ∧ server_id t ≠ Some sid ∧ truthy sid = true)
    as Hsub.
  { intros t. unfold MCPClients_disconnect. destruct (truthy sid); simpl.
    - intros [? ?]%list_elem_of_filter. done.
    - by intros ?%elem_of_nil. }
  split.
  - rewrite Hreg. unfold names. rewrite fmap_app. apply NoDup_app.
    split; [by apply NoDup_names_filter|]. split.
    + intros n (t & -> & Ht)%list_elem_of_fmap (u & Hu1 & Hu2)%list_elem_of_fmap.
      apply list_elem_of_filter in Ht as [Ht1 Ht2].
      apply Hsub in Hu2 as (Hu2 & _ & _).
      destruct (H3 u Hu2) as (s & Hs & _).
      assert (u ∈ available_tools a) as Hu4 by (apply H4; [by rewrite Hs | done]).
      rewrite (NoDup_names_inj _ t u H1 Ht2 Hu4 Hu1) in Ht1.
      unfold local_tool in Ht1. congruence.
    + simpl. unfold MCPClients_disconnect. destruct (truthy sid); simpl.
      * by apply (NoDup_names_filter _ _ H2).
      * constructor.
  - simpl. unfold MCPClients_disconnect. destruct (truthy sid); simpl.
    + by apply (NoDup_names_filter _ _ H2).
    + constructor.
  - intros t Ht. pose proof (Hsub t Ht) as (Ht1 & Ht2 & Ht3).
    destruct (H3 t Ht1) as (s & Hs1 & Hs2). exists s. split; [done|].
    simpl. unfold MCPClients_disconnect. rewrite Ht3. simpl.
    apply elem_of_difference. split; [done|].
    intros ->%elem_of_singleton. congruence.
  - intros t Hrem. rewrite Hreg. rewrite elem_of_app, list_elem_of_filter.
    unfold local_tool. split; [|by right].
    intros [[Hloc _]|?]; [|done]. rewrite Hloc in Hrem. by destruct Hrem.
Qed.

Lemma consistent_set_base b a : consistent a → consistent (set_base b a).
Proof. by intros [? ? ? ?]. Qed.

Lemma consistent_set_initialized x a : consistent a → consistent (set_initialized x a).
Proof. by intros [? ? ? ?]. Qed.


Lemma reachable_consistent a : reachable env a → consistent a.
Proof.
  induction 1 as [b locals Hloc
                 | a url sid us sa bud o g' tr _ IH Hrun
                 | a sid bud o g' tr _ IH Hrun
                 | a b _ IH | a x _ IH].
  - split; simpl.
    + apply ToolCollection_NoDup.
    + constructor.
    + by intros t ?%elem_of_nil.
    + intros t Hrem. split; [|by intros ?%elem_of_nil].
      intros [?%elem_of_nil|Ht]%elem_of_add_tools_inv; [done|].
      rewrite Forall_forall in Hloc. apply Hloc in Ht.
      unfold local_tool in Ht. rewrite Ht in Hrem. by destruct Hrem.
  - destruct (server env (transport_of us) url (arguments_of us sa)) as [adv|e] eqn:Hs.
    + rewrite (connect_mcp_server_Ok _ _ _ _ _ _ Hs) in Hrun.
      injection Hrun as _ <- _. simpl. by apply consistent_connected.
    + rewrite (connect_mcp_server_Err _ _ _ _ _ _ Hs) in Hrun.
      by injection Hrun as _ <- _.
  - rewrite disconnect_mcp_server_run in Hrun. injection Hrun as _ <- _.
    by apply consistent_disconnected.
  - by apply consistent_set_base.
  - by apply consistent_set_initialized.
Qed.

Lemma names_tag sid advertised : names (tag sid <$> advertised) = names advertised.
Proof. unfold names. rewrite <- list_fmap_compose. done. Qed.

Lemma filter_all {A} (P : A → Prop) `{∀ x, Decision (P x)} (l : list A) :
  Forall P l → filter P l = l.
Proof.
  induction 1 as [|x l Hx _ IH]; [done|].
  rewrite filter_cons, decide_True by done. by f_equal.
Qed.

(** C5 (as amended).  In every state reached by connects and disconnects,
    [disconnect_mcp_server(server_id)] raises nothing and rebuilds the
    registry as its local tools, in their order, followed by the tools
    [mcp_clients] still holds.  With a server id it removes exactly the
    entries tagged with that id: every local tool and every tool of
    another server stays registered.  With an id that was never connected
    the sessions, the remote tools, the server table and the set of
    registered tools are unchanged.  With no id it leaves exactly the local
    tools, no session and an empty server table. *)
Theorem disconnect_mcp_server_evicts a sid bud o g' tr :
  reachable env a →
  disconnect_mcp_server sid {| self := a; budget := bud |} = (o, g', tr) →
  o = Ret tt
  ∧ available_tools (self g')
    = filter local_tool (available_tools a) ++ tools (mcp_clients (self g'))
  ∧ (sid ≠ [] →
     ∀ t, t ∈ available_tools (self g') ↔
          t ∈ available_tools a ∧ server_id t ≠ Some sid)
  ∧ (sid ≠ [] → sid ∉ sessions (mcp_clients a) → connected_servers a !! sid = None →
     (∀ t, t ∈ available_tools (self g') ↔ t ∈ available_tools a)
     ∧ mcp_clients (self g') = mcp_clients a
     ∧ connected_servers (self g') = connected_servers a)
  ∧ (sid = [] →
     available_tools (self g') = filter local_tool (available_tools a)
     ∧ sessions (mcp_clients (self g')) = ∅
     ∧ connected_servers (self g') = ∅).
Proof.
  intros Hreach Hrun. pose proof (reachable_consistent a Hreach) as Ha.
  rewrite disconnect_mcp_server_run in Hrun. injection Hrun as <- <- <-.
  cbn [self]. pose proof (disconnected_registry sid a Ha) as Hreg.
  destruct Ha as [H1 H2 H3 H4].
  assert (∀ t, is_Some (server_id t) ∨ local_tool t) as Hcase.
  { intros t. unfold local_tool. destruct (server_id t); [left; by eexists | by right]. }
  assert (sid ≠ [] →
          ∀ t, t ∈ available_tools (disconnected sid a) ↔
               t ∈ available_tools a ∧ server_id t ≠ Some sid) as Hevict.
  { intros Hsid t. rewrite Hreg. unfold MCPClients_disconnect.
    destruct sid as [|c sid]; [done|]. cbn [truthy tools].
    rewrite elem_of_app, !list_elem_of_filter. unfold local_tool. split.
    - intros [[Hloc Ht]|[Hne Ht]].
      + split; [done | congruence].
      + split; [|done]. destruct (H3 t Ht) as (s & Hs & _).
        apply H4; [by rewrite Hs | done].
    - intros [Ht Hne]. destruct (Hcase t) as [Hrem|Hloc]; [right | by left].
      split; [done | by apply H4].
  }
  split; [done|]. split; [exact Hreg|]. split; [exact Hevict|]. split.
  - intros Hsid Hsess Hconn.
    assert (Forall (λ t, server_id t ≠ Some sid) (tools (mcp_clients a))) as Hall.
    { apply Forall_forall. intros t Ht Heq. destruct (H3 t Ht) as (s & Hs1 & Hs2).
      congruence. }
    split; [|split].
    + intros t. rewrite (Hevict Hsid). split; [by intros [? _]|].
      intros Ht. split; [done|]. intros Heq.
      assert (t ∈ tools (mcp_clients a)) as Hm by (apply H4; [by rewrite Heq | done]).
      rewrite Forall_forall in Hall. by apply (Hall t Hm).
    + unfold disconnected, MCPClients_disconnect; cbn [mcp_clients].
      destruct sid as [|c sid]; [done|]. cbn [truthy].
      rewrite (filter_all _ _ Hall).
      destruct (mcp_clients a) as [ss ts]; cbn [sessions tools] in *. f_equal.
      apply leibniz_equiv. intros x. rewrite elem_of_difference, elem_of_singleton.
      split; [by intros [? _]|]. intros Hx. split; [done|]. by intros ->.
    + unfold disconnected; cbn [connected_servers].
      destruct sid as [|c sid]; [done|]. cbn [truthy]. by apply delete_id.
  - intros ->. rewrite Hreg. unfold disconnected, MCPClients_disconnect.
    cbn [truthy mcp_clients tools sessions connected_servers].
    by rewrite app_nil_r.
Qed.

(** C7 (as amended).  A [connect_mcp_server] that succeeds, in a state
    reached by connects and disconnects, registers under every advertised
    name one of the advertised tools, tagged with the server id; it adds
    no other tool; it leaves registered every entry, local or of another
    server, whose name the server does not advertise; and an entry whose
    name the server advertises is replaced by the advertised tool. *)
Theorem connect_mcp_server_registers a server_url sid use_stdio stdio_args
    advertised bud o g' tr :
  reachable env a →
  server env (transport_of use_stdio) server_url (arguments_of use_stdio stdio_args)
    = Ok advertised →
  connect_mcp_server env server_url sid use_stdio stdio_args
    {| self := a; budget := bud |} = (o, g', tr) →
  o = Ret tt
  ∧ (∀ d, d ∈ advertised →
     ∃ t, t ∈ available_tools (self g') ∧ name t = name d
          ∧ t ∈ tag sid <$> advertised)
  ∧ (∀ t, t ∈ available_tools (self g') →
     t ∈ available_tools a ∨ t ∈ tag sid <$> advertised)
  ∧ (∀ t, t ∈ available_tools a → name t ∉ names advertised →
     t ∈ available_tools (self g'))
  ∧ (∀ t, t ∈ available_tools (self g') → name t ∈ names advertised →
     t ∈ tag sid <$> advertised).
Proof.
  intros Hreach Hs Hrun. pose proof (reachable_consistent a Hreach) as [H1 H2 H3 H4].
  rewrite (connect_mcp_server_Ok _ _ _ _ _ _ Hs) in Hrun. injection Hrun as <- <- <-.
  cbn [self]. unfold connected; cbn [available_tools tools].
  set (m := add_tools (tools (mcp_clients a)) (tag sid <$> advertised)).
  assert (NoDup (names m)) as Hm by by apply NoDup_names_add_tools.
  set (new := filter (λ t, server_id t = Some sid) m).
  assert (NoDup (names new)) as Hnew by by apply NoDup_names_filter.
  assert (NoDup (names (add_tools (available_tools a) new))) as Hreg
    by by apply NoDup_names_add_tools.
  assert (∀ n, n ∈ names advertised →
          ∃ t, t ∈ add_tools (available_tools a) new ∧ name t = n
               ∧ t ∈ tag sid <$> advertised) as Hadv.
  { intros n Hn. rewrite <- (names_tag sid) in Hn.
    destruct (elem_of_add_tools_name n (tools (mcp_clients a)) _ Hn)
      as (t' & Ht1 & Ht2 & Ht3). fold m in Ht3. exists t'.
    split; [|done]. apply elem_of_add_tools_new; [done|].
    apply list_elem_of_filter. split; [by eapply elem_of_tag | done]. }
  split; [done|]. split; [|split; [|split]].
  - intros d Hd. apply Hadv. by apply list_elem_of_fmap_2.
  - intros t [Ht|Ht]%elem_of_add_tools_inv; [by left|].
    apply list_elem_of_filter in Ht as [Ht1 Ht2].
    apply elem_of_add_tools_inv in Ht2 as [Ht2|Ht2]; [left | by right].
    apply H4; [by rewrite Ht1 | done].
  - intros t Ht Hn.
    destruct (decide (name t ∈ names new)) as [Hin|Hnin];
      [|by apply elem_of_add_tools_other].
    apply list_elem_of_fmap in Hin as (u & Hu1 & Hu2).
    pose proof Hu2 as Hu3. apply list_elem_of_filter in Hu3 as [Hu3 Hu4].
    apply elem_of_add_tools_inv in Hu4 as [Hu4|Hu4].
    + assert (u ∈ available_tools a) as Hu5 by (apply H4; [by rewrite Hu3 | done]).
      rewrite (NoDup_names_inj _ t u H1 Ht Hu5 Hu1).
      by apply elem_of_add_tools_new.
    + exfalso. apply Hn. rewrite Hu1, <- (names_tag sid).
      by apply list_elem_of_fmap_2.
  - intros t Ht Hn. destruct (Hadv _ Hn) as (t' & Ht1 & Ht2 & Ht3).
    by rewrite <- (NoDup_names_inj _ t' t Hreg Ht1 Ht Ht2).
Qed.

End servers.

(** ** The sample agent and its servers *)

(** Closed decidable facts are settled by evaluation. *)
Ltac by_computation :=
  match goal with
  | |- ?P => refine (@bool_decide_unpack P _ _); vm_compute; exact I
  end.

Section sample_facts.

Import Sample.

Lemma agent0_reachable result : reachable (world result) agent0.
Proof. apply reachable_new. unfold local_tool. repeat constructor. Qed.

Lemma agent1_reachable result : reachable (world result) agent1.
Proof.
  apply (reachable_connect (world result) agent0 (of_string "http://a")
           (of_string "A") false None None (Ret tt)
           {| self := agent1; budget := None |}
           [Call (connect_called SSE (of_string "http://a") (of_string "A"))]).
  - apply agent0_reachable.
  - reflexivity.
Qed.

Lemma disconnect_mcp_server_evicts_witness :
  reachable (world (Ok [])) agent1
  ∧ ∀ t, t ∈ available_tools (disconnected (of_string "A") agent1) ↔
         t ∈ available_tools agent1 ∧ server_id t ≠ Some (of_string "A").
Proof.
  split; [apply agent1_reachable|].
  refine (proj1 (proj2 (proj2
    (disconnect_mcp_server_evicts (world (Ok [])) agent1 (of_string "A") None
       (Ret tt) {| self := disconnected (of_string "A") agent1; budget := None |}
       [Call (disconnect_called (of_string "A"))]
       (agent1_reachable _) eq_refl))) _).
  discriminate.
Defined.

(** C5, as stated, fails: [agent1] never connected a server [Z], and
    disconnecting [Z] changes its registry.  The remote tool [summary] had
    replaced the local tool of that name, in its place; the rebuilt
    registry lists it after the local tools. *)
Lemma disconnect_unknown_reorders :
  let g' := (disconnect_mcp_server (of_string "Z")
               {| self := agent1; budget := None |}).1.2 in
  reachable (world (Ok [])) agent1
  ∧ (of_string "Z" ∉ sessions (mcp_clients agent1))
  ∧ connected_servers agent1 !! of_string "Z" = None
  ∧ available_tools (self g') ≠ available_tools agent1.
Proof.
  split; [apply agent1_reachable|]. split; [by_computation|].
  split; [by_computation | by_computation].
Qed.

Lemma connect_mcp_server_registers_witness :
  reachable (world (Ok [])) agent0
  ∧ ∀ t, t ∈ available_tools agent0 →
         name t ∉ names [local "search"; local "summary"] →
         t ∈ available_tools agent1.
Proof.
  split; [apply agent0_reachable|].
  exact (proj1 (proj2 (proj2 (proj2
    (connect_mcp_server_registers (world (Ok [])) agent0 (of_string "http://a")
       (of_string "A") false None [local "search"; local "summary"] None
       (Ret tt) {| self := agent1; budget := None |}
       [Call (connect_called SSE (of_string "http://a") (of_string "A"))]
       (agent0_reachable _) eq_refl eq_refl))))).
Defined.

(** C7, as stated, fails: the server advertises a tool named [summary];
    the connect succeeds and the local tool [summary] is no longer
    registered, the remote tool has replaced it. *)
Lemma connect_replaces_local_tool :
  let g' := (connect_mcp_server (world (Ok [])) (of_string "http://a")
               (of_string "A") false None {| self := agent0; budget := None |}).1.2 in
  reachable (world (Ok [])) agent0
  ∧ local "summary" ∈ available_tools agent0
  ∧ (local "summary" ∉ available_tools (self g'))
  ∧ tag (of_string "A") (local "summary") ∈ available_tools (self g').
Proof.
  split; [apply agent0_reachable|]. split; [by_computation|].
  split; [by_computation | by_computation].
Qed.

End sample_facts.

(** ** Bulk initialization *)

Section initialization.

Variable env : Env.

Implicit Types (g : Gen) (sid : str) (server_config : ServerConfig).

(** One entry of the configuration: nothing when it asks for no
    connection; the connection and a log record otherwise, and the state
    is left as it was when the connection fails. *)
Lemma connect_entry_run sid server_config g :
  connect_entry env (sid, server_config) g =
  match attempt server_config with
  | None => (Ret tt, g, [])
  | Some att =>
      match answer env att with
      | Ok advertised =>
          (Ret tt,
           {| self := connected att.1.2 sid advertised (self g); budget := budget g |},
           [Call (connect_call sid att); Log (connected_record sid att)])
      | Err e =>
          (Ret tt, g, [Call (connect_call sid att); Log (LConnectFailed sid (str_of e))])
      end
  end.
Proof.
  unfold connect_entry, attempt.
  destruct (eqb (type server_config) (of_string "sse")).
  - destruct (url server_config) as [u|]; [|done].
    destruct (truthy u); [|done]. cbn [answer connect_call connected_record fst snd].
    unfold try_except, mbind, M_bind.
    destruct (server env (transport_of false) u (arguments_of false None)) eqn:Hs.
    + by rewrite (connect_mcp_server_Ok _ _ _ _ _ _ _ Hs).
    + by rewrite (connect_mcp_server_Err _ _ _ _ _ _ _ Hs).
  - destruct (eqb (type server_config) (of_string "stdio")); [|done].
    destruct (command server_config) as [c|]; [|done].
    destruct (truthy c); [|done]. cbn [answer connect_call connected_record fst snd].
    unfold try_except, mbind, M_bind.
    destruct (server env (transport_of true) c
                (arguments_of true (Some (args server_config)))) eqn:Hs.
    + by rewrite (connect_mcp_server_Ok _ _ _ _ _ _ _ Hs).
    + by rewrite (connect_mcp_server_Err _ _ _ _ _ _ _ Hs).
Qed.

Lemma for_each_cons {A} (x : A) xs body g :
  for_each (x :: xs) body g
  = match body x g with
    | (Ret _, g1, tr1) => let '(o, g2, tr2) := for_each xs body g1 in (o, g2, tr1 ++ tr2)
    | (Raise e, g1, tr1) => (Raise e, g1, tr1)
    | (GeneratorExit, g1, tr1) => (GeneratorExit, g1, tr1)
    | (Fuel, g1, tr1) => (Fuel, g1, tr1)
    end.
Proof.
  cbn [for_each]. unfold mbind, M_bind. by destruct (body x g) as [[[[]| | |] ?] ?].
Qed.

Lemma names_connected endpoint sid advertised a n :
  n ∈ names (available_tools a) →
  n ∈ names (available_tools (connected endpoint sid advertised a)).
Proof. apply names_add_tools_mono. Qed.

Lemma names_connected_advertised endpoint sid advertised a d :
  d ∈ advertised → name d ∈ names (available_tools (connected endpoint sid advertised a)).
Proof.
  intros Hd. unfold connected; cbn [available_tools tools].
  destruct (elem_of_add_tools_name (name d) (tools (mcp_clients a)) (tag sid <$> advertised))
    as (t & Ht1 & Ht2 & Ht3).
  { rewrite names_tag. by apply list_elem_of_fmap_2. }
  set (new := filter _ _).
  destruct (elem_of_add_tools_name (name d) (available_tools a) new) as (u & _ & Hu2 & Hu3).
  { rewrite <- Ht2. apply list_elem_of_fmap_2, list_elem_of_filter.
    split; [by eapply elem_of_tag | done]. }
  rewrite <- Hu2. by apply list_elem_of_fmap_2.
Qed.

(** The loop of [initialize_mcp_servers] over any list of entries. *)
Lemma for_each_connect_entry entries g :
  ∃ g' tr,
    for_each entries (connect_entry env) g = (Ret tt, g', tr)
    ∧ budget g' = budget g
    ∧ base (self g') = base (self g)
    ∧ _initialized (self g') = _initialized (self g)
    ∧ Forall (λ o, ∃ sid att, o = Call (connect_call sid att)
                              ∨ o = Log (connected_record sid att)
                              ∨ ∃ e, o = Log (LConnectFailed sid e)) tr
    ∧ (∀ n, n ∈ names (available_tools (self g)) →
            n ∈ names (available_tools (self g')))
    ∧ ∀ sid server_config att,
        (sid, server_config) ∈ entries → attempt server_config = Some att →
        Call (connect_call sid att) ∈ tr
        ∧ (∀ e, answer env att = Err e → Log (LConnectFailed sid (str_of e)) ∈ tr)
        ∧ (∀ advertised, answer env att = Ok advertised →
           Log (connected_record sid att) ∈ tr
           ∧ ∀ d, d ∈ advertised → name d ∈ names (available_tools (self g'))).
Proof.
  revert g. induction entries as [|[sid0 cfg0] entries IH]; intros g.
  - exists g, []. do 4 (split; [done|]). split; [constructor|]. split; [done|].
    by intros ??? ?%elem_of_nil.
  - rewrite for_each_cons, connect_entry_run.
    assert (∃ g1 tr1,
      match attempt cfg0 with
      | None => (Ret tt, g, [])
      | Some att =>
          match answer env att with
          | Ok advertised =>
              (Ret tt,
               {| self := connected att.1.2 sid0 advertised (self g); budget := budget g |},
               [Call (connect_call sid0 att); Log (connected_record sid0 att)])
          | Err e =>
              (Ret tt, g,
               [Call (connect_call sid0 att); Log (LConnectFailed sid0 (str_of e))])
          end
      end = (Ret tt, g1, tr1)
      ∧ budget g1 = budget g ∧ base (self g1) = base (self g)
      ∧ _initialized (self g1) = _initialized (self g)
      ∧ Forall (λ o, ∃ sid att, o = Call (connect_call sid att)
                                ∨ o = Log (connected_record sid att)
                                ∨ ∃ e, o = Log (LConnectFailed sid e)) tr1
      ∧ (∀ n, n ∈ names (available_tools (self g)) →
              n ∈ names (available_tools (self g1)))
      ∧ ∀ att, attempt cfg0 = Some att →
          Call (connect_call sid0 att) ∈ tr1
          ∧ (∀ e, answer env att = Err e → Log (LConnectFailed sid0 (str_of e)) ∈ tr1)
          ∧ (∀ advertised, answer env att = Ok advertised →
             Log (connected_record sid0 att) ∈ tr1
             ∧ ∀ d, d ∈ advertised → name d ∈ names (available_tools (self g1))))
      as (g1 & tr1 & -> & Hb1 & Hbase1 & Hini1 & Hshape1 & Hmono1 & Hhead).
    { destruct (attempt cfg0) as [att|].
      - destruct (answer env att) as [adv|e] eqn:Hans.
        + eexists _, _. split; [done|]. do 3 (split; [done|]). split.
          { repeat constructor; exists sid0, att; eauto. }
          split. { intros n. apply names_connected. }
          intros att' [= <-]. split; [left|]. split.
          { intros e He. congruence. }
          intros adv' Hadv. rewrite Hans in Hadv. injection Hadv as <-.
          split; [right; left|]. intros d Hd. by apply names_connected_advertised.
        + eexists _, _. split; [done|]. do 3 (split; [done|]). split.
          { repeat constructor; exists sid0, att; eauto. }
          split; [done|].
          intros att' [= <-]. split; [left|]. split.
          { intros e' He. rewrite Hans in He. injection He as <-. right. left. }
          intros adv' Hadv. congruence.
      - exists g, []. split; [done|]. do 3 (split; [done|]).
        split; [constructor|]. split; [done|]. by intros att' [=]. }
    destruct (IH g1) as (g2 & tr2 & -> & Hb2 & Hbase2 & Hini2 & Hshape2 & Hmono2 & Htail).
    exists g2, (tr1 ++ tr2). split; [done|].
    split; [congruence|]. split; [congruence|]. split; [congruence|].
    split; [by apply Forall_app|]. split; [by auto|].
    intros sid cfg att [[= -> ->]|Hin]%elem_of_cons Hatt.
    + destruct (Hhead att Hatt) as (H1 & H2 & H3). split; [|split].
      * apply elem_of_app. by left.
      * intros e He. apply elem_of_app. left. by apply H2.
      * intros adv Hadv. destruct (H3 adv Hadv) as [H4 H5].
        split; [apply elem_of_app; by left|]. intros d Hd. by apply Hmono2, H5.
    + destruct (Htail sid cfg att Hin Hatt) as (H1 & H2 & H3). split; [|split].
      * apply elem_of_app. by right.
      * intros e He. apply elem_of_app. right. by apply H2.
      * intros adv Hadv. destruct (H3 adv Hadv) as [H4 H5].
        split; [apply elem_of_app; by right | done].
Qed.

(** A connection that a reachable entry of the configuration asks for
    keeps the tools of [mcp_clients] among the offered ones, keeps every
    name that is served, and serves the names it advertises. *)
Lemma connected_offered sid server_config att advertised a :
  (sid, server_config) ∈ config env →
  attempt server_config = Some att →
  answer env att = Ok advertised →
  Forall (offered env) (tools (mcp_clients a)) →
  Forall (offered env) (tools (mcp_clients (connected att.1.2 sid advertised a)))
  ∧ (∀ n, serves env a n → serves env (connected att.1.2 sid advertised a) n)
  ∧ ∀ d, d ∈ advertised → serves env (connected att.1.2 sid advertised a) (name d).
Proof.
  intros Hin Hatt Hans Hmcp.
  set (tagged := tag sid <$> advertised).
  set (m := add_tools (tools (mcp_clients a)) tagged).
  set (new_tools := filter (λ t, server_id t = Some sid) m).
  assert (Forall (offered env) m) as Hm.
  { apply Forall_forall. intros t [Ht|Ht]%elem_of_add_tools_inv.
    - rewrite Forall_forall in Hmcp. by apply Hmcp.
    - by exists sid, server_config, att, advertised. }
  assert (Forall (offered env) new_tools) as Hnew.
  { apply Forall_forall. intros t Ht. apply list_elem_of_filter in Ht as [_ Ht].
    rewrite Forall_forall in Hm. by apply Hm. }
  assert (∀ n, n ∈ names new_tools →
               serves env (connected att.1.2 sid advertised a) n) as Hserved.
  { intros n Hn.
    destruct (elem_of_add_tools_name n (available_tools a) new_tools Hn)
      as (t & Ht & Hname & Hreg).
    exists t. split; [exact Hreg|]. split; [done|].
    rewrite Forall_forall in Hnew. by apply Hnew. }
  split; [exact Hm|]. split.
  - intros n (t & Ht & Hname & Hoff).
    destruct (decide (n ∈ names new_tools)) as [Hn|Hn]; [by apply Hserved|].
    exists t. split; [|done].
    cbn [connected available_tools]. apply elem_of_add_tools_other; [done|].
    by rewrite Hname.
  - intros d Hd. apply Hserved.
    assert (name d ∈ names tagged) as Hnd.
    { unfold tagged. rewrite names_tag. by apply list_elem_of_fmap_2. }
    destruct (elem_of_add_tools_name (name d) (tools (mcp_clients a)) tagged Hnd)
      as (t & Ht & Hname & Hreg).
    rewrite <- Hname. apply list_elem_of_fmap_2, list_elem_of_filter.
    split; [by eapply elem_of_tag | done].
Qed.

Lemma for_each_connect_entry_offered entries g g' tr :
  (∀ entry, entry ∈ entries → entry ∈ config env) →
  for_each entries (connect_entry env) g = (Ret tt, g', tr) →
  Forall (offered env) (tools (mcp_clients (self g))) →
  Forall (offered env) (tools (mcp_clients (self g')))
  ∧ (∀ n, serves env (self g) n → serves env (self g') n)
  ∧ ∀ sid server_config att advertised d,
      (sid, server_config) ∈ entries → attempt server_config = Some att →
      answer env att = Ok advertised → d ∈ advertised →
      serves env (self g') (name d).
Proof.
  revert g tr. induction entries as [|[sid cfg] entries IH]; intros g tr Hsub Hrun Hmcp.
  - injection Hrun as <- <-. split; [done|]. split; [done|].
    by intros sid cfg att adv d Hin%elem_of_nil.
  - assert (∀ entry, entry ∈ entries → entry ∈ config env) as Hsub'
      by (intros entry Hentry; apply Hsub; by right).
    assert ((sid, cfg) ∈ config env) as Hhead by (apply Hsub; by left).
    rewrite for_each_cons, connect_entry_run in Hrun.
    destruct (attempt cfg) as [att|] eqn:Hatt.
    + destruct (answer env att) as [advertised|e] eqn:Hans.
      * destruct (for_each entries (connect_entry env) _) as [[o2 g2] tr2] eqn:Hrest.
        injection Hrun as -> <- <-.
        destruct (connected_offered sid cfg att advertised (self g) Hhead Hatt Hans Hmcp)
          as (Hm1 & Hkeep1 & Hnew1).
        destruct (IH _ _ Hsub' Hrest Hm1) as (Hm2 & Hkeep2 & Hnew2).
        split; [done|]. split; [by intros n Hn; apply Hkeep2, Hkeep1|].
        intros sid' cfg' att' adv' d [[= -> ->]|Hin]%elem_of_cons Hatt' Hans' Hd.
        -- rewrite Hatt in Hatt'. injection Hatt' as <-.
           rewrite Hans in Hans'. injection Hans' as <-.
           by apply Hkeep2, Hnew1.
        -- by apply (Hnew2 sid' cfg' att' adv').
      * destruct (for_each entries (connect_entry env) g) as [[o2 g2] tr2] eqn:Hrest.
        injection Hrun as -> <- <-.
        destruct (IH _ _ Hsub' Hrest Hmcp) as (Hm2 & Hkeep2 & Hnew2).
        split; [done|]. split; [done|].
        intros sid' cfg' att' adv' d [[= -> ->]|Hin]%elem_of_cons Hatt' Hans' Hd.
        -- rewrite Hatt in Hatt'. injection Hatt' as <-. congruence.
        -- by apply (Hnew2 sid' cfg' att' adv').
    + destruct (for_each entries (connect_entry env) g) as [[o2 g2] tr2] eqn:Hrest.
      injection Hrun as -> <- <-.
      destruct (IH _ _ Hsub' Hrest Hmcp) as (Hm2 & Hkeep2 & Hnew2).
      split; [done|]. split; [done|].
      intros sid' cfg' att' adv' d [[= -> ->]|Hin]%elem_of_cons Hatt' Hans' Hd.
      -- congruence.
      -- by apply (Hnew2 sid' cfg' att' adv').
Qed.

(** C6 (as amended).  [initialize_mcp_servers] never raises.  Every entry
    of the configuration that asks for a connection has its connection
    attempted, whatever happened to the entries before it; a connection
    that fails is logged; and every name a reachable server advertises is
    registered when the initialization returns.  On an agent that holds
    no remote tool, the tool registered under such a name is one that a
    reachable server of the configuration advertised under that name,
    with the tag of that server: the server's own tool when no other
    reachable server of the configuration advertises the name. *)
Theorem initialize_mcp_servers_isolates g :
  ∃ g' tr,
    initialize_mcp_servers env g = (Ret tt, g', tr)
    ∧ ∀ sid server_config att,
        (sid, server_config) ∈ config env → attempt server_config = Some att →
        Call (connect_call sid att) ∈ tr
        ∧ (∀ e, answer env att = Err e → Log (LConnectFailed sid (str_of e)) ∈ tr)
        ∧ (∀ advertised, answer env att = Ok advertised →
           Log (connected_record sid att) ∈ tr
           ∧ ∀ d, d ∈ advertised →
               name d ∈ names (available_tools (self g'))
               ∧ (tools (mcp_clients (self g)) = [] →
                  (∃ t, t ∈ available_tools (self g') ∧ name t = name d
                        ∧ offered env t)
                  ∧ ((∀ sid' server_config' att' advertised',
                        (sid', server_config') ∈ config env →
                        attempt server_config' = Some att' →
                        answer env att' = Ok advertised' →
                        name d ∈ names advertised' →
                        sid' = sid ∧ advertised' = advertised) →
                     ∃ t, t ∈ available_tools (self g') ∧ name t = name d
                          ∧ t ∈ tag sid <$> advertised))).
Proof.
  destruct (for_each_connect_entry (config env) g)
    as (g' & tr & Hrun & _ & _ & _ & _ & _ & Hall).
  exists g', (Call initialize_mcp_servers_called :: tr). split.
  - unfold initialize_mcp_servers, mbind, M_bind, call, observe_. by rewrite Hrun.
  - intros sid cfg att Hin Hatt. destruct (Hall sid cfg att Hin Hatt) as (H1 & H2 & H3).
    split; [by right|]. split.
    + intros e He. right. by apply H2.
    + intros adv Hadv. destruct (H3 adv Hadv) as [H4 H5]. split; [by right|].
      intros d Hd. split; [by apply H5|]. intros Hfresh.
      destruct (for_each_connect_entry_offered (config env) g g' tr) as (_ & _ & Hserved);
        [done | done | by rewrite Hfresh|].
      destruct (Hserved sid cfg att adv d Hin Hatt Hadv Hd) as (t & Ht & Hname & Hoff).
      split; [by exists t|]. intros Honly. exists t. split; [done|]. split; [done|].
      destruct Hoff as (sid' & cfg' & att' & adv' & Hin' & Hatt' & Hans' & Ht').
      destruct (Honly sid' cfg' att' adv' Hin' Hatt' Hans') as [-> ->]; [|done].
      rewrite <- Hname, <- (names_tag sid'). by apply list_elem_of_fmap_2.
Qed.

End initialization.

(** ** Counting in traces *)

Section traces.

Implicit Types (tr : list Obs) (o : Obs).

Lemma filter_none {A} (P : A → Prop) `{∀ x, Decision (P x)} (l : list A) :
  Forall (λ x, ¬ P x) l → filter P l = [].
Proof.
  induction 1 as [|x l Hx _ IH]; [done|]. by rewrite filter_cons, decide_False.
Qed.

Lemma cleanups_app tr1 tr2 : cleanups (tr1 ++ tr2) = cleanups tr1 + cleanups tr2.
Proof. unfold cleanups. by rewrite filter_app, length_app. Qed.

Lemma error_events_app tr1 tr2 :
  error_events (tr1 ++ tr2) = error_events tr1 + error_events tr2.
Proof. unfold error_events. by rewrite filter_app, length_app. Qed.

Lemma content_events_app tr1 tr2 :
  content_events (tr1 ++ tr2) = content_events tr1 + content_events tr2.
Proof. unfold content_events. by rewrite filter_app, length_app. Qed.

Lemma initializations_app tr1 tr2 :
  initializations (tr1 ++ tr2) = initializations tr1 + initializations tr2.
Proof. unfold initializations. by rewrite filter_app, length_app. Qed.

Lemma setup_steady o : setup o → steady o.
Proof. by destruct o as [[]|[]|[]]. Qed.

Lemma stepping_steady o : stepping o → steady o.
Proof. by destruct o as [[]|[]|[]]. Qed.

Lemma cleanups_steady tr : Forall steady tr → cleanups tr = 0.
Proof.
  intros H. unfold cleanups. rewrite filter_none; [done|].
  eapply Forall_impl; [exact H|]. by intros o Ho ->.
Qed.

Lemma error_events_steady tr : Forall steady tr → error_events tr = 0.
Proof.
  intros H. unfold error_events. rewrite filter_none; [done|].
  eapply Forall_impl; [exact H|]. intros [[]|[]|[]]; simpl; tauto.
Qed.

Lemma initializations_stepping tr : Forall stepping tr → initializations tr = 0.
Proof.
  intros H. unfold initializations. rewrite filter_none; [done|].
  eapply Forall_impl; [exact H|]. by intros o Ho ->.
Qed.

Lemma filter_stepping_setup tr : Forall setup tr → filter stepping tr = [].
Proof.
  intros H. apply filter_none. eapply Forall_impl; [exact H|]. intros [[]|[]|[]]; simpl; tauto.
Qed.

End traces.

(** ** The reasoning step *)

Section thinking.

Variable env : Env.

Implicit Types (g : Gen) (tr : list Obs).

Lemma initialize_mcp_servers_run g :
  ∃ g0 tr0,
    initialize_mcp_servers env g = (Ret tt, g0, tr0)
    ∧ budget g0 = budget g
    ∧ base (self g0) = base (self g)
    ∧ _initialized (self g0) = _initialized (self g)
    ∧ Forall setup tr0
    ∧ initializations tr0 = 1
    ∧ ∀ sid server_config att,
        (sid, server_config) ∈ config env → attempt server_config = Some att →
        Call (connect_call sid att) ∈ tr0.
Proof.
  destruct (for_each_connect_entry env (config env) g)
    as (g0 & tr & Hrun & Hb & Hbase & Hini & Hshape & _ & Hall).
  exists g0, (Call initialize_mcp_servers_called :: tr). split.
  { unfold initialize_mcp_servers, mbind, M_bind, call, observe_. by rewrite Hrun. }
  assert (Forall setup tr) as Hsetup.
  { eapply Forall_impl; [exact Hshape|].
    intros o (sid & [[us ep] sa] & [->|[->|[e ->]]]); [done | | done].
    simpl. by destruct us. }
  do 3 (split; [done|]). split; [by constructor|]. split.
  - unfold initializations. rewrite filter_cons, decide_True by done.
    cbn [length]. f_equal. rewrite filter_none; [done|].
    eapply Forall_impl; [exact Hshape|].
    intros o (sid & [[us ep] sa] & [->|[->|[e ->]]]); [done | | done].
    simpl. by destruct us.
  - intros sid cfg att Hin Hatt. right. by apply (Hall sid cfg att Hin Hatt).
Qed.

(** The lazy initialization returns, with the flag set; it does nothing
    on an initialized agent, and runs [initialize_mcp_servers] once on
    another. *)
Lemma ensure_initialized_run g :
  ∃ g1 tr1,
    ensure_initialized env g = (Ret tt, g1, tr1)
    ∧ budget g1 = budget g
    ∧ base (self g1) = base (self g)
    ∧ _initialized (self g1) = true
    ∧ Forall setup tr1
    ∧ (if _initialized (self g) then g1 = g ∧ tr1 = []
       else ∃ g0, initialize_mcp_servers env g = (Ret tt, g0, tr1)
                  ∧ self g1 = set_initialized true (self g0)).
Proof.
  unfold ensure_initialized, mbind, M_bind, get_self.
  destruct (_initialized (self g)) eqn:Hflag; cbn [negb].
  - exists g, []. by repeat split.
  - destruct (initialize_mcp_servers_run g)
      as (g0 & tr0 & -> & Hb & Hbase & Hini & Hsetup & _).
    eexists _, _. cbn. split; [done|]. cbn. rewrite app_nil_r.
    do 3 (split; [done|]). split; [done|]. by exists g0.
Qed.

(** [think] runs the lazy initialization, then awaits the prompt helper
    when the browser is in use, then awaits [super().think].  Its outcome
    is that of the awaited collaborators. *)
Lemma think_run g o g' tr :
  think env g = (o, g', tr) →
  ∃ g1 tr1 tr2,
    ensure_initialized env g = (Ret tt, g1, tr1)
    ∧ tr = tr1 ++ tr2
    ∧ Forall stepping tr2
    ∧ budget g' = budget g
    ∧ mcp_clients (self g') = mcp_clients (self g1)
    ∧ available_tools (self g') = available_tools (self g1)
    ∧ connected_servers (self g') = connected_servers (self g1)
    ∧ _initialized (self g') = true
    ∧ match o with
      | Ret r =>
          next_step_prompt (base (self g')) = next_step_prompt (base (self g))
          ∧ if browser_in_use env (memory (base (self g))) then
              ∃ p b, format_next_step_prompt env (base (self g)) = (Ok p, b)
                     ∧ tr2 = [Call format_next_step_prompt_called;
                              Call (super_think_called p)]
            else tr2 = [Call (super_think_called (next_step_prompt (base (self g))))]
      | Raise e => True
      | GeneratorExit | Fuel => False
      end.
Proof.
  intros Hrun.
  destruct (ensure_initialized_run g) as (g1 & tr1 & Hini & Hb & Hbase & Hflag & _ & _).
  exists g1, tr1. unfold think, mbind, M_bind in Hrun. rewrite Hini in Hrun.
  unfold get_self, await, modify_self in Hrun. cbn in Hrun.
  rewrite <- Hbase.
  destruct (browser_in_use env (memory (base (self g1)))).
  - destruct (format_next_step_prompt env (base (self g1))) as [[p|e] b]; cbn in Hrun.
    + destruct (super_think env (available_tools (self g1))
                  (set_next_step_prompt p b)) as [[r|e] b']; cbn in Hrun;
        injection Hrun as <- <- <-; eexists; (split; [done|]);
        (split; [done|]); (split; [by repeat constructor|]); cbn;
        repeat split; eauto.
    + injection Hrun as <- <- <-. eexists; (split; [done|]);
        (split; [done|]); (split; [by repeat constructor|]); cbn;
        repeat split; eauto.
  - cbn in Hrun.
    destruct (super_think env (available_tools (self g1)) (base (self g1)))
      as [[r|e] b']; cbn in Hrun;
      injection Hrun as <- <- <-; eexists; (split; [done|]);
      (split; [done|]); (split; [by repeat constructor|]); cbn;
      repeat split; eauto.
Qed.

(** The test of [think] holds exactly when a tool call of one of the last
    three messages names the browser tool. *)
Lemma browser_in_use_spec (m : Memory) :
  browser_in_use env m = true ↔
  ∃ msg tcs tc,
    msg ∈ last_n 3 (messages m) ∧ tool_calls msg = Some tcs ∧ tc ∈ tcs
    ∧ function_name tc = BrowserUseTool_name env.
Proof.
  unfold browser_in_use. rewrite existsb_exists. split.
  - intros (msg & Hmsg & Hex). apply list_elem_of_In in Hmsg.
    destruct (tool_calls msg) as [tcs|] eqn:Htcs; [|done].
    case_bool_decide; [|done].
    apply existsb_exists in Hex as (tc & Htc & Heq). apply list_elem_of_In in Htc.
    unfold eqb in Heq. apply bool_decide_eq_true in Heq. by exists msg, tcs, tc.
  - intros (msg & tcs & tc & Hmsg & Htcs & Htc & Heq). exists msg.
    split; [by apply list_elem_of_In|]. rewrite Htcs.
    rewrite bool_decide_eq_true_2 by (intros ->; by apply elem_of_nil in Htc).
    apply existsb_exists. exists tc. split; [by apply list_elem_of_In|].
    unfold eqb. by apply bool_decide_eq_true.
Qed.

(** When [think] returns, the next-step prompt is what it was when
    [think] was called.  If a tool call of one of the last three messages
    names the browser tool, the prompt of the browser context helper is
    the prompt of the one inference call [think] makes; otherwise that
    call is made with the unchanged prompt. *)
Lemma think_prompt_restored g r g' tr :
  think env g = (Ret r, g', tr) →
  next_step_prompt (base (self g')) = next_step_prompt (base (self g))
  ∧ (browser_in_use env (memory (base (self g))) = true ↔
     ∃ msg tcs tc,
       msg ∈ last_n 3 (messages (memory (base (self g))))
       ∧ tool_calls msg = Some tcs ∧ tc ∈ tcs
       ∧ function_name tc = BrowserUseTool_name env)
  ∧ if browser_in_use env (memory (base (self g))) then
      ∃ p b, format_next_step_prompt env (base (self g)) = (Ok p, b)
             ∧ filter stepping tr
               = [Call format_next_step_prompt_called; Call (super_think_called p)]
    else
      filter stepping tr
      = [Call (super_think_called (next_step_prompt (base (self g))))].
Proof.
  intros Hrun. destruct (think_run g _ _ _ Hrun)
    as (g1 & tr1 & tr2 & Hini & -> & Hstep & _ & _ & _ & _ & _ & Hprompt & Hcalls).
  destruct (ensure_initialized_run g) as (g1' & tr1' & Hini' & _ & _ & _ & Hsetup & _).
  rewrite Hini in Hini'. injection Hini' as <- <-.
  split; [done|]. split; [apply browser_in_use_spec|].
  rewrite filter_app, (filter_stepping_setup _ Hsetup), (filter_all _ _ Hstep).
  done.
Qed.

(** C10.  After [think], however it ends, the agent is initialized.  On an
    agent that was not, [think] first runs [initialize_mcp_servers], once:
    every connection the configuration asks for is attempted, and the
    reasoning follows.  On an initialized agent, and so in every later
    [think], no initialization is run and the servers and the registry
    are left as they are. *)
Theorem think_initializes_once g o g' tr :
  think env g = (o, g', tr) →
  _initialized (self g') = true
  ∧ (_initialized (self g) = false →
     initializations tr = 1
     ∧ (∀ sid server_config att,
          (sid, server_config) ∈ config env → attempt server_config = Some att →
          Call (connect_call sid att) ∈ tr)
     ∧ ∃ g0 tr0 tr2,
         initialize_mcp_servers env g = (Ret tt, g0, tr0)
         ∧ tr = tr0 ++ tr2 ∧ Forall stepping tr2
         ∧ mcp_clients (self g') = mcp_clients (self g0)
         ∧ available_tools (self g') = available_tools (self g0)
         ∧ connected_servers (self g') = connected_servers (self g0))
  ∧ (_initialized (self g) = true →
     initializations tr = 0
     ∧ mcp_clients (self g') = mcp_clients (self g)
     ∧ available_tools (self g') = available_tools (self g)
     ∧ connected_servers (self g') = connected_servers (self g))
  ∧ ∀ o2 g2 tr2, think env g' = (o2, g2, tr2) → initializations tr2 = 0.
Proof.
  assert (∀ g o g' tr, think env g = (o, g', tr) → _initialized (self g) = true →
          initializations tr = 0
          ∧ mcp_clients (self g') = mcp_clients (self g)
          ∧ available_tools (self g') = available_tools (self g)
          ∧ connected_servers (self g') = connected_servers (self g)) as Hlater.
  { clear. intros g o g' tr Hrun Hflag.
    destruct (think_run g _ _ _ Hrun)
      as (g1 & tr1 & tr2 & Hini & -> & Hstep & _ & Hm & Ha & Hc & _).
    destruct (ensure_initialized_run g) as (g1' & tr1' & Hini' & _ & _ & _ & _ & Hcase).
    rewrite Hini in Hini'. injection Hini' as <- <-.
    rewrite Hflag in Hcase. destruct Hcase as [-> ->].
    split; [|done]. by apply initializations_stepping. }
  intros Hrun. destruct (think_run g _ _ _ Hrun)
    as (g1 & tr1 & tr2 & Hini & Htr & Hstep & _ & Hm & Ha & Hc & Hflag & _).
  split; [done|]. split; [|split].
  - intros Hnot.
    destruct (ensure_initialized_run g) as (g1' & tr1' & Hini' & _ & _ & _ & _ & Hcase).
    rewrite Hini in Hini'. injection Hini' as <- <-.
    rewrite Hnot in Hcase. destruct Hcase as (g0 & Hrun0 & Hself).
    destruct (initialize_mcp_servers_run g)
      as (g0' & tr0' & Hrun0' & _ & _ & _ & _ & Hone & Hall).
    rewrite Hrun0 in Hrun0'. injection Hrun0' as <- <-.
    split; [|split].
    + rewrite Htr, initializations_app, Hone, (initializations_stepping _ Hstep). done.
    + intros sid cfg att Hin Hatt. rewrite Htr. apply elem_of_app. left. by eapply Hall.
    + exists g0, tr1, tr2. rewrite Hm, Ha, Hc, Hself. done.
  - intros Hyes. by apply (Hlater g o).
  - intros o2 g2 tr2' Hrun2. by apply (Hlater g' o2 g2 tr2' Hrun2).
Qed.

End thinking.

(** ** Cleanup *)

Section cleaning.

Implicit Types (g : Gen) (a : SuperAgent).

Lemma cleanup_run g :
  cleanup g
  = (Ret tt, {| self := cleaned (self g); budget := budget g |},
     Call cleanup_called
     :: if _initialized (self g) then [Call (disconnect_called [])] else []).
Proof.
  destruct g as [a bud]. unfold cleanup, cleaned, cleanup_browser.
  unfold mbind, M_bind, call, observe_, modify_self, get_self. cbn.
  destruct (_initialized a) eqn:Hflag; [|done].
  by rewrite disconnect_mcp_server_run.
Qed.

Lemma cleaned_idempotent a : cleaned (cleaned a) = cleaned a.
Proof.
  unfold cleaned. destruct (_initialized a) eqn:Hflag; cbn; [done|].
  by rewrite Hflag.
Qed.

(** C8 (as amended).  [cleanup] never raises and a second call leaves
    the agent as the first call left it.  The first call releases the
    browser and clears the [_initialized] flag.  On an initialized agent
    it closes every session, empties the server table and leaves only
    local tools in the registry; on an agent whose flag is not set it
    leaves the sessions, the server table and the registry as they are. *)
Theorem cleanup_idempotent g :
  ∃ g1 tr1 g2 tr2,
    cleanup g = (Ret tt, g1, tr1)
    ∧ cleanup g1 = (Ret tt, g2, tr2)
    ∧ self g2 = self g1
    ∧ browser (base (self g1)) = false
    ∧ _initialized (self g1) = false
    ∧ cleanups tr1 = 1
    ∧ (if _initialized (self g) then
         sessions (mcp_clients (self g1)) = ∅
         ∧ tools (mcp_clients (self g1)) = []
         ∧ connected_servers (self g1) = ∅
         ∧ Forall local_tool (available_tools (self g1))
       else
         mcp_clients (self g1) = mcp_clients (self g)
         ∧ connected_servers (self g1) = connected_servers (self g)
         ∧ available_tools (self g1) = available_tools (self g)).
Proof.
  eexists _, _, _, _. split; [apply cleanup_run|]. split; [apply cleanup_run|].
  cbn [self budget]. split; [apply cleaned_idempotent|].
  unfold cleaned. destruct (_initialized (self g)) eqn:Hflag; cbn.
  - do 2 (split; [done|]). split; [done|]. do 3 (split; [done|]).
    apply Forall_forall.
    intros t [Ht|Ht]%elem_of_add_tools_inv; [by apply elem_of_nil in Ht|].
    apply list_elem_of_filter in Ht as [Ht _]. unfold local_tool.
    by apply eq_None_not_Some.
  - by rewrite Hflag.
Qed.

End cleaning.

(** ** The sample agent: reasoning and cleanup *)

Section sample_runs.

Import Sample.

Lemma think_initializes_once_witness :
  let g := {| self := agent0; budget := None |} in
  let res := think (configured (Ok [])) g in
  think (configured (Ok [])) g = (Ret true, res.1.2, res.2)
  ∧ _initialized (self res.1.2) = true.
Proof.
  assert (think (configured (Ok [])) {| self := agent0; budget := None |}
          = (Ret true,
             (think (configured (Ok [])) {| self := agent0; budget := None |}).1.2,
             (think (configured (Ok [])) {| self := agent0; budget := None |}).2)) as Hrun
    by (vm_compute; reflexivity).
  split; [exact Hrun|].
  exact (proj1 (think_initializes_once _ _ _ _ _ Hrun)).
Defined.

(** C8, as stated, fails: [agent1] has connected server [A] through
    [connect_mcp_server] and its [_initialized] flag is not set; after
    [cleanup] the session of [A] is still open and its tool [search] is
    still registered. *)
Lemma cleanup_keeps_session_open :
  let g' := (cleanup {| self := agent1; budget := None |}).1.2 in
  reachable (world (Ok [])) agent1
  ∧ of_string "A" ∈ sessions (mcp_clients agent1)
  ∧ (cleanup {| self := agent1; budget := None |}).1.1 = Ret tt
  ∧ of_string "A" ∈ sessions (mcp_clients (self g'))
  ∧ tag (of_string "A") (local "search") ∈ available_tools (self g').
Proof.
  split; [apply agent1_reachable|]. split; [by_computation|].
  split; [reflexivity|]. split; by_computation.
Qed.

End sample_runs.

(** ** The loop of [stream] *)

Section looping.

Variable env : Env.

Implicit Types (g : Gen) (tr : list Obs) (k : Ending).

Lemma ends_app_l k g' pre tr : Forall steady pre → ends k g' tr → ends k g' (pre ++ tr).
Proof.
  intros Hpre [k0 g0 tr0 H1 H2 | k0 g0 m p H1 H2 | k0 g0 m p H1 H2 | g0 r p H1 H2 H3].
  - apply ends_steady; [by apply Forall_app | done].
  - rewrite app_assoc. apply ends_act_error; [by apply Forall_app | done].
  - rewrite app_assoc. apply ends_observe_error; [by apply Forall_app | done].
  - rewrite app_assoc. apply ends_termination; [by apply Forall_app | done | done].
Qed.

(** The act step: what [act] answers decides how it ends. *)
Lemma act_step_run g o g' tr :
  budget g ≠ Some 0 →
  act_step env g = (o, g', tr) →
  ∃ ans b,
    act env (available_tools (self g)) (base (self g)) = (ans, b)
    ∧ self g' = set_base b (self g)
    ∧ match ans with
      | Err e =>
          tr = [Call act_called; Log (LActError (str_of e)); Emit (error_event (str_of e))]
          ∧ (o = Ret Break ∧ budget g' ≠ Some 0 ∧ budget g ≠ Some 1
             ∨ o = GeneratorExit ∧ budget g = Some 1)
      | Ok r =>
          if truthy r then
            budget g = Some 1 ∧ o = GeneratorExit
            ∧ tr = [Call act_called; Emit (content_event r)]
            ∨ budget g ≠ Some 1 ∧ budget g' ≠ Some 0
              ∧ if is_termination r then
                  o = Ret Break
                  ∧ tr = [Call act_called; Emit (content_event r); Log LTermination]
                else
                  o = Ret Next ∧ tr = [Call act_called; Emit (content_event r)]
          else o = Ret Next ∧ tr = [Call act_called] ∧ budget g' = budget g
      end.
Proof.
  intros Hb Hrun. destruct g as [a bud]. cbn [self budget] in *.
  unfold act_step, try_except, mbind, M_bind, await, yield, log, observe_, mret, M_ret
    in Hrun.
  cbn [self budget] in Hrun.
  destruct (act env (available_tools a) (base a)) as [[r|e] b] eqn:Hact.
  - exists (Ok r), b. split; [done|]. destruct (truthy r) eqn:Htr.
    + destruct bud as [[|[|n]]|]; [done| | |].
      * cbn in Hrun. injection Hrun as <- <- <-. split; [done|]. by left.
      * destruct (is_termination r); cbn in Hrun; injection Hrun as <- <- <-;
          (split; [done|]); right; by repeat split.
      * destruct (is_termination r); cbn in Hrun; injection Hrun as <- <- <-;
          (split; [done|]); right; by repeat split.
    + cbn in Hrun. injection Hrun as <- <- <-. by repeat split.
  - exists (Err e), b. split; [done|].
    destruct bud as [[|[|n]]|]; [done| | |]; cbn in Hrun; injection Hrun as <- <- <-;
      (split; [done|]); (split; [done|]).
    + by right.
    + left. by repeat split.
    + left. by repeat split.
Qed.

(** The observe step. *)
Lemma observe_step_run g o g' tr :
  budget g ≠ Some 0 →
  observe_step env g = (o, g', tr) →
  ∃ ans b,
    observe env (base (self g)) = (ans, b)
    ∧ self g' = set_base b (self g)
    ∧ match ans with
      | Err e =>
          tr = [Call observe_called; Log (LObserveError (str_of e));
                Emit (error_event (str_of e))]
          ∧ (o = Ret Break ∧ budget g' ≠ Some 0 ∨ o = GeneratorExit)
      | Ok _ => o = Ret Next ∧ tr = [Call observe_called] ∧ budget g' = budget g
      end.
Proof.
  intros Hb Hrun. destruct g as [a bud]. cbn [self budget] in *.
  unfold observe_step, try_except, mbind, M_bind, await, yield, log, observe_, mret, M_ret
    in Hrun.
  cbn [self budget] in Hrun.
  destruct (observe env (base a)) as [[[]|e] b] eqn:Hobs.
  - exists (Ok tt), b. cbn in Hrun. injection Hrun as <- <- <-. by repeat split.
  - exists (Err e), b. split; [done|].
    destruct bud as [[|[|n]]|]; [done| | |]; cbn in Hrun; injection Hrun as <- <- <-;
      (split; [done|]); (split; [done|]).
    + by right.
    + left. by split.
    + left. by split.
Qed.

Lemma act_step_ends g o g' tr :
  budget g ≠ Some 0 →
  act_step env g = (o, g', tr) →
  ends (ending o) g' tr ∧ o ≠ Fuel
  ∧ (∀ f, o = Ret f → budget g' ≠ Some 0)
  ∧ (o = Ret Next → Forall steady tr).
Proof.
  intros Hb Hrun. destruct (act_step_run g o g' tr Hb Hrun) as (ans & b & _ & _ & Hcase).
  destruct ans as [r|e].
  - destruct (truthy r).
    + destruct Hcase as [(Hb1 & -> & ->)|(Hb1 & Hb' & Hcase)].
      * split; [apply ends_steady; [by repeat constructor | by left]|]. by repeat split.
      * destruct (is_termination r) eqn:Hterm; destruct Hcase as [-> ->].
        -- split; [by apply (ends_termination g' r [])|]. by repeat split.
        -- split; [apply ends_steady; [by repeat constructor | by right]|].
           repeat split; [done | done | by repeat constructor].
    + destruct Hcase as (-> & -> & Hb'). rewrite <- Hb' in Hb.
      split; [apply ends_steady; [by repeat constructor | by right]|].
      repeat split; [done | done | by repeat constructor].
  - destruct Hcase as [-> Hcase]. destruct Hcase as [(-> & Hb' & Hb1)|[-> Hb1]].
    + split; [apply (ends_act_error _ g' _ []); [constructor | by left]|].
      by repeat split.
    + split; [apply (ends_act_error _ g' _ []); [constructor | by right]|].
      by repeat split.
Qed.

Lemma observe_step_ends g o g' tr :
  budget g ≠ Some 0 →
  observe_step env g = (o, g', tr) →
  ends (ending o) g' tr ∧ o ≠ Fuel
  ∧ (∀ f, o = Ret f → budget g' ≠ Some 0)
  ∧ (o = Ret Next → Forall steady tr).
Proof.
  intros Hb Hrun.
  destruct (observe_step_run g o g' tr Hb Hrun) as (ans & b & _ & _ & Hcase).
  destruct ans as [[]|e].
  - destruct Hcase as (-> & -> & Hb'). rewrite <- Hb' in Hb.
    split; [apply ends_steady; [by repeat constructor | by right]|].
    repeat split; [done | done | by repeat constructor].
  - destruct Hcase as [-> Hcase]. destruct Hcase as [[-> Hb'] | ->].
    + split; [apply (ends_observe_error _ g' _ []); [constructor | by left]|].
      by repeat split.
    + split; [apply (ends_observe_error _ g' _ []); [constructor | by right]|].
      by repeat split.
Qed.

Lemma think_steady g o g' tr :
  think env g = (o, g', tr) →
  Forall steady tr ∧ budget g' = budget g ∧ o ≠ Fuel ∧ o ≠ GeneratorExit.
Proof.
  intros Hrun. destruct (think_run env g o g' tr Hrun)
    as (g1 & tr1 & tr2 & Hini & -> & Hstep & Hb & _ & _ & _ & _ & Ho).
  destruct (ensure_initialized_run env g) as (g1' & tr1' & Hini' & _ & _ & _ & Hsetup & _).
  rewrite Hini in Hini'. injection Hini' as <- <-.
  split; [|split; [done|]].
  - apply Forall_app. split.
    + eapply Forall_impl; [exact Hsetup | apply setup_steady].
    + eapply Forall_impl; [exact Hstep | apply stepping_steady].
  - by destruct o.
Qed.

(** One iteration of the loop. *)
Lemma iteration_ends g o g' tr :
  budget g ≠ Some 0 →
  iteration env g = (o, g', tr) →
  ends (ending o) g' tr ∧ o ≠ Fuel
  ∧ (o = Ret Next → Forall steady tr ∧ budget g' ≠ Some 0).
Proof.
  intros Hb Hrun. unfold iteration, mbind, M_bind in Hrun.
  destruct (think env g) as [[ot gt] ttr] eqn:Ht.
  destruct (think_steady g ot gt ttr Ht) as (Hst & Hbt & Hnf & Hng).
  assert (budget gt ≠ Some 0) as Hbt' by by rewrite Hbt.
  destruct ot as [[|]|e| |]; [| | |done|done].
  - cbn [negb] in Hrun.
    destruct (act_step env gt) as [[oa ga] atr] eqn:Ha.
    destruct (act_step_ends gt oa ga atr Hbt' Ha) as (Hea & Hnfa & Hba & Hsa).
    destruct oa as [[|]|e| |]; [| | | |done].
    + destruct (observe_step env ga) as [[oo go] otr] eqn:Ho.
      destruct (observe_step_ends ga oo go otr (Hba _ eq_refl) Ho) as (Heo & Hnfo & Hbo & Hso).
      injection Hrun as <- <- <-. split; [|split; [done|]].
      * apply ends_app_l; [done|]. apply ends_app_l; [by apply Hsa | done].
      * intros ->. split; [|by eapply Hbo].
        apply Forall_app. split; [done|]. apply Forall_app. split; [by apply Hsa | by apply Hso].
    + unfold mret, M_ret in Hrun. injection Hrun as <- <- <-.
      rewrite app_nil_r. split; [by apply ends_app_l|]. by split.
    + injection Hrun as <- <- <-. split; [by apply ends_app_l|]. by split.
    + injection Hrun as <- <- <-. split; [by apply ends_app_l|]. by split.
  - cbn [negb] in Hrun. unfold mret, M_ret in Hrun. injection Hrun as <- <- <-.
    rewrite app_nil_r. split; [apply ends_steady; [done | by right]|]. by split.
  - injection Hrun as <- <- <-.
    split; [apply ends_steady; [done | by right]|]. by split.
Qed.

(** The loop. *)
Lemma while_ends fuel g o g' tr :
  budget g ≠ Some 0 →
  while fuel running (iteration env) g = (o, g', tr) →
  ends (ending o) g' tr.
Proof.
  revert g tr. induction fuel as [|fuel IH]; intros g tr Hb Hrun; cbn [while] in Hrun.
  - destruct (running (self g)); injection Hrun as <- <- <-;
      (apply ends_steady; [constructor | by right]).
  - destruct (running (self g)).
    + unfold mbind, M_bind in Hrun.
      destruct (iteration env g) as [[oi gi] itr] eqn:Hi.
      destruct (iteration_ends g oi gi itr Hb Hi) as (Hei & Hnf & Hnext).
      destruct oi as [[|]|e| |]; [| | | |done].
      * destruct (Hnext eq_refl) as [Hst Hbi].
        destruct (while fuel running (iteration env) gi) as [[ow gw] wtr] eqn:Hw.
        injection Hrun as <- <- <-. apply ends_app_l; [done|]. by apply (IH gi).
      * unfold mret, M_ret in Hrun. injection Hrun as <- <- <-. by rewrite app_nil_r.
      * by injection Hrun as <- <- <-.
      * by injection Hrun as <- <- <-.
    + injection Hrun as <- <- <-. apply ends_steady; [constructor | by right].
Qed.

End looping.

(** ** The stream *)

Section streaming.

Variable env : Env.

Implicit Types (g : Gen) (tr : list Obs) (k : Ending).

Lemma flush_run g o g' tr :
  budget g ≠ Some 0 →
  flush g = (o, g', tr) →
  self g' = self g
  ∧ (o = Ret tt ∨ o = GeneratorExit)
  ∧ (tr = []
     ∨ ∃ msg c, get_last_assistant_message (memory (base (self g))) = Some msg
                ∧ content msg = Some c ∧ tr = [Emit (content_event c)]).
Proof.
  intros Hb Hrun. destruct g as [a bud]. cbn [self budget] in *.
  unfold flush, mbind, M_bind, get_self, yield, mret, M_ret in Hrun.
  cbn [self budget] in Hrun.
  destruct (get_last_assistant_message (memory (base a))) as [msg|] eqn:Hlast.
  - destruct (content msg) as [c|] eqn:Hc.
    + destruct (truthy c).
      * destruct bud as [[|[|n]]|]; [done| | |]; cbn in Hrun;
          injection Hrun as <- <- <-; (split; [done|]);
          (split; [by auto|]); right; by exists msg, c.
      * cbn in Hrun. injection Hrun as <- <- <-. by auto.
    + cbn in Hrun. injection Hrun as <- <- <-. by auto.
  - cbn in Hrun. injection Hrun as <- <- <-. by auto.
Qed.

Lemma cleanup_closing g :
  ∃ g' ctr, cleanup g = (Ret tt, g', ctr)
            ∧ Forall closing ctr ∧ cleanups ctr = 1
            ∧ memory (base (self g')) = memory (base (self g))
            ∧ state (base (self g')) = state (base (self g)).
Proof.
  eexists _, _. split; [apply cleanup_run|]. cbn [self].
  unfold cleaned. destruct (_initialized (self g)); by repeat constructor.
Qed.

Lemma closing_facts ctr :
  Forall closing ctr →
  error_events ctr = 0 ∧ content_events ctr = 0 ∧ Forall (λ o, ¬ stepping o) ctr
  ∧ (∀ r, Log r ∉ ctr) ∧ (∀ ev, Emit ev ∉ ctr).
Proof.
  intros H. unfold error_events, content_events.
  rewrite !filter_none; [repeat split| |].
  - eapply Forall_impl; [exact H|]. intros [[]|[]|[]]; simpl; tauto.
  - intros r Hin. rewrite Forall_forall in H. by apply H in Hin.
  - intros r Hin. rewrite Forall_forall in H. by apply H in Hin.
  - eapply Forall_impl; [exact H|]. intros [[]|[]|[]]; simpl; tauto.
  - eapply Forall_impl; [exact H|]. intros [[]|[]|[]]; simpl; tauto.
Qed.

(** The body of the generator: the loop, then the flush or the report of
    an exception, then [cleanup]; nothing follows a loop that is still
    running. *)
Lemma stream_body_run fuel prompt g o g' tr :
  budget g ≠ Some 0 →
  stream_body env fuel prompt g = (o, g', tr) →
  ∃ (ol : Outcome unit) gl ltr rest,
    tr = ltr ++ rest
    ∧ ends (ending ol) gl ltr
    ∧ match ol with
      | Fuel => o = Fuel ∧ rest = []
      | GeneratorExit =>
          o = GeneratorExit ∧ Forall closing rest ∧ cleanups rest = 1
      | Raise e =>
          o ≠ Fuel ∧ Forall steady ltr
          ∧ ∃ ctr, rest = [Log (LStreamError (str_of e)); Emit (error_event (str_of e))]
                          ++ ctr
                   ∧ Forall closing ctr ∧ cleanups ctr = 1
      | Ret _ =>
          o ≠ Fuel
          ∧ state (base (self g')) = state (base (self gl))
          ∧ ∃ ftr ctr,
              rest = ftr ++ ctr ∧ Forall closing ctr ∧ cleanups ctr = 1
              ∧ (ftr = []
                 ∨ ∃ msg c,
                     get_last_assistant_message (memory (base (self g'))) = Some msg
                     ∧ content msg = Some c ∧ ftr = [Emit (content_event c)])
      end.
Proof.
  intros Hb Hrun.
  unfold stream_body, try_finally, try_except, mbind, M_bind, modify_self in Hrun.
  match type of Hrun with
  | context [while ?f ?c ?b ?g0] =>
      destruct (while f c b g0) as [[ol gl] ltr] eqn:Hw;
      assert (ends (ending ol) gl ltr) as Hends by (by apply (while_ends env f g0))
  end.
  exists ol, gl, ltr. cbn [app] in Hrun.
  destruct ol as [[]|e| |].
  - destruct (flush gl) as [[ofl gf] ftr] eqn:Hf.
    assert (budget gl ≠ Some 0) as Hbl.
    { inversion Hends as [k0 g0 tr0 H1 [H2|H2] | k0 g0 m p H1 [[H2 H3]|H2]
                         | k0 g0 m p H1 [[H2 H3]|H2] | g0 r p H1 H2 H3]; done. }
    destruct (flush_run gl ofl gf ftr Hbl Hf) as (Hself & Hof & Hftr).
    destruct (cleanup_closing gf) as (gc & ctr & Hc & Hclosing & Hone & Hmem & Hstate).
    exists (ftr ++ ctr).
    destruct Hof as [-> | ->]; cbn in Hrun; rewrite Hc in Hrun;
      injection Hrun as <- <- <-.
    all: split; [by rewrite app_assoc|]; split; [done|]; split; [done|].
    all: split; [by rewrite Hstate, Hself|].
    all: exists ftr, ctr; split; [done|]; split; [done|]; split; [done|].
    all: destruct Hftr as [->|(msg & c & H1 & H2 & ->)]; [by left|right].
    all: exists msg, c; by rewrite Hmem, Hself.
  - assert (Forall steady ltr ∧ budget gl ≠ Some 0) as [Hst Hbl].
    { inversion Hends as [k0 g0 tr0 H1 [H2|H2] | k0 g0 m p H1 [[H2 H3]|H2]
                         | k0 g0 m p H1 [[H2 H3]|H2] | ]; done. }
    unfold log, observe_, yield in Hrun.
    destruct (cleanup_closing gl) as (gc & ctr & Hc & Hclosing & Hone & _).
    destruct gl as [al [[|[|n]]|]]; [done| | |]; cbn in Hrun.
    + destruct (cleanup_closing {| self := al; budget := Some 0 |})
        as (gc' & ctr' & Hc' & Hclosing' & Hone' & _).
      rewrite Hc' in Hrun. injection Hrun as <- <- <-. eexists.
      split; [by rewrite <- app_assoc|]. split; [done|]. split; [done|].
      split; [done|]. by exists ctr'.
    + destruct (cleanup_closing {| self := al; budget := Some (S n) |})
        as (gc' & ctr' & Hc' & Hclosing' & Hone' & _).
      rewrite Hc' in Hrun. injection Hrun as <- <- <-. eexists.
      split; [by rewrite <- app_assoc|]. split; [done|]. split; [done|].
      split; [done|]. by exists ctr'.
    + rewrite Hc in Hrun. injection Hrun as <- <- <-. eexists.
      split; [by rewrite <- app_assoc|]. split; [done|]. split; [done|].
      split; [done|]. by exists ctr.
  - destruct (cleanup_closing gl) as (gc & ctr & Hc & Hclosing & Hone & _).
    rewrite Hc in Hrun. injection Hrun as <- <- <-. by exists ctr.
  - injection Hrun as <- <- <-. exists []. by rewrite app_nil_r.
Qed.

Lemma ends_counts k g' tr : ends k g' tr → cleanups tr = 0 ∧ error_events tr ≤ 1.
Proof.
  intros [k0 g0 tr0 H1 H2 | k0 g0 m p H1 H2 | k0 g0 m p H1 H2 | g0 r p H1 H2 H3].
  - rewrite cleanups_steady, error_events_steady by done. lia.
  - rewrite cleanups_app, error_events_app, cleanups_steady, error_events_steady by done.
    vm_compute. lia.
  - rewrite cleanups_app, error_events_app, cleanups_steady, error_events_steady by done.
    vm_compute. lia.
  - rewrite cleanups_app, error_events_app, cleanups_steady, error_events_steady by done.
    vm_compute. lia.
Qed.

Lemma steady_no_record tr r :
  Forall steady tr → Log r ∈ tr →
  match r with
  | LTermination | LActError _ | LObserveError _ | LStreamError _ => False
  | _ => True
  end.
Proof.
  intros H Hin. rewrite Forall_forall in H. apply H in Hin. by destruct r.
Qed.

(** A loop that has ended does not depend on the fuel it was given. *)
Lemma while_fuel_mono fuel fuel' cond body g (o : Outcome unit) g' tr :
  while fuel cond body g = (o, g', tr) → o ≠ Fuel → fuel ≤ fuel' →
  while fuel' cond body g = (o, g', tr).
Proof.
  revert fuel' g tr. induction fuel as [|fuel IH]; intros fuel' g tr Hrun Ho Hle.
  - cbn [while] in Hrun. destruct (cond (self g)) eqn:Hc.
    + injection Hrun as <- _ _. done.
    + destruct fuel'; cbn [while]; by rewrite Hc.
  - destruct fuel' as [|fuel']; [lia|]. cbn [while] in *.
    destruct (cond (self g)); [|done]. unfold mbind, M_bind in *.
    destruct (body g) as [[[[]| | |] gb] trb]; try done.
    destruct (while fuel cond body gb) as [[ow gw] trw] eqn:Hw.
    injection Hrun as <- <- <-. rewrite (IH fuel' gb trw); [done | done | done | lia].
Qed.

Lemma stream_fuel_mono fuel fuel' prompt g o g' tr :
  stream env fuel prompt g = (o, g', tr) → o ≠ Fuel → fuel ≤ fuel' →
  stream env fuel' prompt g = (o, g', tr).
Proof.
  intros Hrun Ho Hle. unfold stream in *.
  destruct (budget g) as [[|n]|]; [done| |];
    unfold stream_body, try_finally, try_except, mbind, M_bind, modify_self in *;
    match type of Hrun with
    | context [while fuel ?c ?b ?g0] =>
        destruct (while fuel c b g0) as [[ol gl] ltr] eqn:Hw;
        destruct ol as [[]|e| |];
        [ rewrite (while_fuel_mono _ fuel' _ _ _ _ _ _ Hw); [done | done | done]
        | rewrite (while_fuel_mono _ fuel' _ _ _ _ _ _ Hw); [done | done | done]
        | rewrite (while_fuel_mono _ fuel' _ _ _ _ _ _ Hw); [done | done | done]
        | injection Hrun as <- _ _; done ]
    end.
Qed.

(** C3.  Once the consumer has started the generator, however the stream
    ends (the loop condition, [think] answering no, the termination test,
    an exception of [think], [act] or [observe], the consumer closing the
    generator at any event), [cleanup] has been entered exactly once, and
    more fuel gives the same run; [cleanup] has not been entered while the
    loop is still running. *)
Theorem stream_cleans_up_once fuel prompt g o g' tr :
  budget g ≠ Some 0 →
  stream env fuel prompt g = (o, g', tr) →
  (o ≠ Fuel →
   cleanups tr = 1
   ∧ ∀ fuel', fuel ≤ fuel' → stream env fuel' prompt g = (o, g', tr))
  ∧ (o = Fuel → cleanups tr = 0).
Proof.
  intros Hb Hrun.
  assert (o ≠ Fuel → ∀ fuel', fuel ≤ fuel' → stream env fuel' prompt g = (o, g', tr))
    as Hmono by (intros Ho fuel' Hle; by apply (stream_fuel_mono fuel)).
  assert (stream_body env fuel prompt g = (o, g', tr)) as Hbody.
  { unfold stream in Hrun. by destruct (budget g) as [[|n]|]. }
  destruct (stream_body_run fuel prompt g o g' tr Hb Hbody)
    as (ol & gl & ltr & rest & -> & Hends & Hcase).
  rewrite cleanups_app.
  destruct (ends_counts _ _ _ Hends) as [-> _].
  destruct ol as [[]|e| |].
  - destruct Hcase as (Ho & _ & ftr & ctr & -> & Hclosing & Hone & Hftr).
    rewrite cleanups_app, Hone. split; [|done]. intros _.
    split; [|by apply Hmono].
    by destruct Hftr as [->|(msg & c & _ & _ & ->)].
  - destruct Hcase as (Ho & _ & ctr & -> & Hclosing & Hone).
    rewrite cleanups_app, Hone. split; [|done]. intros _. split; [done | by apply Hmono].
  - destruct Hcase as (-> & Hclosing & Hone). rewrite Hone.
    split; [|done]. intros _. split; [done | by apply Hmono].
  - destruct Hcase as (-> & ->). by split.
Qed.

(** What follows the loop: the records it logs and the events it emits. *)
Lemma stream_rest (ol o : Outcome unit) g' rest gl ltr :
  match ol with
  | Fuel => o = Fuel ∧ rest = []
  | GeneratorExit =>
      o = GeneratorExit ∧ Forall closing rest ∧ cleanups rest = 1
  | Raise e =>
      o ≠ Fuel ∧ Forall steady ltr
      ∧ ∃ ctr, rest = [Log (LStreamError (str_of e)); Emit (error_event (str_of e))]
                      ++ ctr
               ∧ Forall closing ctr ∧ cleanups ctr = 1
  | Ret _ =>
      o ≠ Fuel
      ∧ state (base (self g')) = state (base (self gl))
      ∧ ∃ ftr ctr,
          rest = ftr ++ ctr ∧ Forall closing ctr ∧ cleanups ctr = 1
          ∧ (ftr = []
             ∨ ∃ msg c,
                 get_last_assistant_message (memory (base (self g'))) = Some msg
                 ∧ content msg = Some c ∧ ftr = [Emit (content_event c)])
  end →
  Forall (λ o, ¬ stepping o) rest
  ∧ (∀ r, Log r ∈ rest → ∃ e, ol = Raise e ∧ r = LStreamError (str_of e))
  ∧ (ending ol = returned ∨ ending ol = closed →
     o ≠ Fuel ∧ cleanups rest = 1 ∧ error_events rest = 0 ∧ content_events rest ≤ 1
     ∧ ∀ c, Emit (content_event c) ∈ rest →
            ∃ msg, get_last_assistant_message (memory (base (self g'))) = Some msg
                   ∧ content msg = Some c).
Proof.
  destruct ol as [[]|e| |].
  - intros (Ho & _ & ftr & ctr & -> & Hclosing & Hone & Hftr).
    destruct (closing_facts ctr Hclosing) as (He & Hc & Hns & Hnl & Hne).
    rewrite cleanups_app, error_events_app, content_events_app, Hone, He, Hc.
    destruct Hftr as [->|(msg & c & Hmsg & Hcont & ->)].
    + split; [done|]. split; [intros r Hin; by apply Hnl in Hin|].
      intros _. do 4 (split; [by auto|]). intros c Hin. by apply Hne in Hin.
    + split.
    { apply Forall_app. split; [|done].
      repeat (apply Forall_cons; split; [simpl; tauto|]). constructor. }
      split.
      { intros r [Hin|Hin]%elem_of_app; [|by apply Hnl in Hin].
        apply list_elem_of_singleton in Hin. done. }
      intros _. split; [done|]. do 3 (split; [vm_compute; lia|]).
      intros c' [Hin|Hin]%elem_of_app; [|by apply Hne in Hin].
      apply list_elem_of_singleton in Hin. injection Hin as ->. by exists msg.
  - intros (Ho & _ & ctr & -> & Hclosing & Hone).
    destruct (closing_facts ctr Hclosing) as (He & Hc & Hns & Hnl & Hne).
    split.
    { apply Forall_app. split; [|done].
      repeat (apply Forall_cons; split; [simpl; tauto|]). constructor. }
    split; [|by intros [?|?]].
    intros r [Hin|Hin]%elem_of_app; [|by apply Hnl in Hin].
    apply elem_of_cons in Hin as [[= ->]|Hin]; [by exists e|].
    apply list_elem_of_singleton in Hin. done.
  - intros (-> & Hclosing & Hone).
    destruct (closing_facts rest Hclosing) as (He & Hc & Hns & Hnl & Hne).
    split; [done|]. split; [intros r Hin; by apply Hnl in Hin|].
    intros _. rewrite He, Hc. do 4 (split; [by auto|]).
    intros c Hin. by apply Hne in Hin.
  - intros (-> & ->). split; [constructor|].
    split; [by intros r ?%elem_of_nil | by intros [?|?]].
Qed.

(** C1 (as amended).  [act] raises exactly when the act step logs its
    error.  In a run in which [act] raises, the stream ends: the error is
    emitted as the one error event of the stream, no step of the loop
    follows it, at most one content event follows it, the flush of the
    last assistant message, and [cleanup] is entered exactly once. *)
Theorem act_error_ends_stream fuel prompt g o g' tr :
  budget g ≠ Some 0 →
  stream env fuel prompt g = (o, g', tr) →
  (∀ m, Log (LActError m) ∈ tr →
     o ≠ Fuel ∧ error_events tr = 1 ∧ cleanups tr = 1
     ∧ ∃ pre post,
         tr = pre ++ [Call act_called; Log (LActError m); Emit (error_event m)] ++ post
         ∧ Forall steady pre
         ∧ Forall (λ o, ¬ stepping o) post
         ∧ error_events post = 0
         ∧ content_events post ≤ 1
         ∧ ∀ c, Emit (content_event c) ∈ post →
                ∃ msg, get_last_assistant_message (memory (base (self g'))) = Some msg
                       ∧ content msg = Some c)
  ∧ ∀ gs os gs' trs ans b m,
      budget gs ≠ Some 0 →
      act_step env gs = (os, gs', trs) →
      act env (available_tools (self gs)) (base (self gs)) = (ans, b) →
      Log (LActError m) ∈ trs ↔ ∃ e, ans = Err e ∧ m = str_of e.
Proof.
  intros Hb Hrun. split.
  - intros m Hin.
    assert (stream_body env fuel prompt g = (o, g', tr)) as Hbody.
    { unfold stream in Hrun. by destruct (budget g) as [[|n]|]. }
    destruct (stream_body_run fuel prompt g o g' tr Hb Hbody)
      as (ol & gl & ltr & rest & -> & Hends & Hcase).
    destruct (stream_rest ol o g' rest gl ltr Hcase) as (Hns & Hlogs & Hrest).
    apply elem_of_app in Hin as [Hin|Hin];
      [|destruct (Hlogs _ Hin) as (e & Hol & Heq); discriminate Heq].
    inversion Hends as [k0 g0 tr0 H1 H2 | k0 g0 m0 p H1 H2 Hk Hg Htr
                       | k0 g0 m0 p H1 H2 Hk Hg Htr | g0 r p H1 H2 H3 Hk Hg Htr].
    + by apply (steady_no_record _ _ H1) in Hin.
    + subst ltr. apply elem_of_app in Hin as [Hin|Hin];
        [by apply (steady_no_record _ _ H1) in Hin|].
      assert (m0 = m) as ->.
      { apply elem_of_cons in Hin as [[=]|Hin].
        apply elem_of_cons in Hin as [[= ->]|Hin]; [done|].
        by apply list_elem_of_singleton in Hin. }
      destruct Hrest as (Ho & Hone & He & Hc & Hflush).
      { destruct H2 as [[-> _] | ->]; by auto. }
      split; [done|].
      rewrite !error_events_app, !cleanups_app, Hone, He.
      rewrite (error_events_steady _ H1), (cleanups_steady _ H1).
      split; [by vm_compute|]. split; [by vm_compute|].
      exists p, rest. by rewrite <- app_assoc.
    + subst ltr. apply elem_of_app in Hin as [Hin|Hin];
        [by apply (steady_no_record _ _ H1) in Hin|].
      apply elem_of_cons in Hin as [[=]|Hin].
      apply elem_of_cons in Hin as [[=]|Hin].
      by apply list_elem_of_singleton in Hin.
    + subst ltr. apply elem_of_app in Hin as [Hin|Hin];
        [by apply (steady_no_record _ _ H1) in Hin|].
      apply elem_of_cons in Hin as [[=]|Hin].
      apply elem_of_cons in Hin as [[=]|Hin].
      by apply list_elem_of_singleton in Hin.
  - intros gs os gs' trs ans b m Hbs Hstep Hact.
    destruct (act_step_run env gs os gs' trs Hbs Hstep) as (ans' & b' & Hact' & _ & Hcase).
    rewrite Hact in Hact'. injection Hact' as <- <-.
    destruct ans as [r|e].
    + split; [|by intros (? & [=] & _)].
      intros Hin. exfalso. destruct (truthy r).
      * destruct Hcase as [(_ & _ & ->)|(_ & _ & Hcase)].
        -- apply elem_of_cons in Hin as [[=]|Hin].
           by apply list_elem_of_singleton in Hin.
        -- destruct (is_termination r); destruct Hcase as [_ ->];
             apply elem_of_cons in Hin as [[=]|Hin];
             apply elem_of_cons in Hin as [[=]|Hin];
             try (by apply list_elem_of_singleton in Hin);
             by apply elem_of_nil in Hin.
      * destruct Hcase as (_ & -> & _). by apply list_elem_of_singleton in Hin.
    + destruct Hcase as [-> _]. split.
      * intros Hin. exists e. split; [done|].
        apply elem_of_cons in Hin as [[=]|Hin].
        apply elem_of_cons in Hin as [[= ->]|Hin]; [done|].
        by apply list_elem_of_singleton in Hin.
      * intros (e' & [= <-] & ->). right. left.
Qed.

(** The return path of [think].  When [think] returns, the next-step
    prompt is what it was when [think] was called: if a tool call of one
    of the last three messages names the browser tool, the prompt of the
    browser context helper is the prompt of the one inference call
    [think] makes, and otherwise that call is made with the unchanged
    prompt.  And when [think] does not return but raises, the stream
    reports the exception and runs no further step of that run. *)
Theorem think_restores_prompt :
  (∀ g r g' tr,
     think env g = (Ret r, g', tr) →
     next_step_prompt (base (self g')) = next_step_prompt (base (self g))
     ∧ (browser_in_use env (memory (base (self g))) = true ↔
        ∃ msg tcs tc,
          msg ∈ last_n 3 (messages (memory (base (self g))))
          ∧ tool_calls msg = Some tcs ∧ tc ∈ tcs
          ∧ function_name tc = BrowserUseTool_name env)
     ∧ if browser_in_use env (memory (base (self g))) then
         ∃ p b, format_next_step_prompt env (base (self g)) = (Ok p, b)
                ∧ filter stepping tr
                  = [Call format_next_step_prompt_called; Call (super_think_called p)]
       else
         filter stepping tr
         = [Call (super_think_called (next_step_prompt (base (self g))))])
  ∧ (∀ fuel prompt g o g' tr m,
       budget g ≠ Some 0 →
       stream env fuel prompt g = (o, g', tr) →
       Log (LStreamError m) ∈ tr →
       o ≠ Fuel
       ∧ ∃ pre post,
           tr = pre ++ [Log (LStreamError m); Emit (error_event m)] ++ post
           ∧ Forall steady pre ∧ Forall (λ o, ¬ stepping o) post).
Proof.
  split; [apply think_prompt_restored|].
  intros fuel prompt g o g' tr m Hb Hrun Hin.
  assert (stream_body env fuel prompt g = (o, g', tr)) as Hbody.
  { unfold stream in Hrun. by destruct (budget g) as [[|n]|]. }
  destruct (stream_body_run fuel prompt g o g' tr Hb Hbody)
    as (ol & gl & ltr & rest & -> & Hends & Hcase).
  destruct (stream_rest ol o g' rest gl ltr Hcase) as (Hns & Hlogs & _).
  apply elem_of_app in Hin as [Hin|Hin].
  - exfalso.
    inversion Hends as [k0 g0 tr0 H1 H2 | k0 g0 m0 p H1 H2 Hk Hg Htr
                       | k0 g0 m0 p H1 H2 Hk Hg Htr | g0 r p H1 H2 H3 Hk Hg Htr];
      [by apply (steady_no_record _ _ H1) in Hin | | |];
      subst ltr; (apply elem_of_app in Hin as [Hin|Hin];
        [by apply (steady_no_record _ _ H1) in Hin|]);
      apply elem_of_cons in Hin as [[=]|Hin];
      apply elem_of_cons in Hin as [[=]|Hin];
      by apply list_elem_of_singleton in Hin.
  - apply Hlogs in Hin as (e & -> & [= ->]).
    destruct Hcase as (Ho & Hst & ctr & -> & Hclosing & _).
    split; [done|]. exists ltr, ctr. split; [done|]. split; [done|].
    by destruct (closing_facts ctr Hclosing) as (_ & _ & ? & _).
Qed.

Lemma is_termination_truthy r : is_termination r = true → truthy r = true.
Proof. by destruct r. Qed.

(** C2 (as amended).  The loop is left through the termination branch
    exactly when [act] returns a result that is the sentinel text, with
    or without white space around it, and the consumer is there to take
    the next event.  The result has then been emitted as a content event,
    the act step leaves the agent as [act] left it (the stream does not
    set a state), no step of the loop follows, no error event is emitted
    and [cleanup] is entered exactly once. *)
Theorem termination_branch fuel prompt g o g' tr :
  budget g ≠ Some 0 →
  stream env fuel prompt g = (o, g', tr) →
  (Log LTermination ∈ tr →
   o ≠ Fuel ∧ cleanups tr = 1 ∧ error_events tr = 0
   ∧ ∃ pre post r ws1 ws2,
       tr = pre ++ [Call act_called; Emit (content_event r); Log LTermination] ++ post
       ∧ r = ws1 ++ SENTINEL ++ ws2 ∧ all_space ws1 ∧ all_space ws2
       ∧ Forall steady pre ∧ Forall (λ o, ¬ stepping o) post)
  ∧ ∀ gs os gs' trs ans b,
      budget gs ≠ Some 0 →
      act_step env gs = (os, gs', trs) →
      act env (available_tools (self gs)) (base (self gs)) = (ans, b) →
      self gs' = set_base b (self gs)
      ∧ (Log LTermination ∈ trs ↔
         ∃ r ws1 ws2, ans = Ok r ∧ r = ws1 ++ SENTINEL ++ ws2
                      ∧ all_space ws1 ∧ all_space ws2 ∧ budget gs ≠ Some 1)
      ∧ (Log LTermination ∈ trs → os = Ret Break).
Proof.
  intros Hb Hrun. split.
  - intros Hin.
    assert (stream_body env fuel prompt g = (o, g', tr)) as Hbody.
    { unfold stream in Hrun. by destruct (budget g) as [[|n]|]. }
    destruct (stream_body_run fuel prompt g o g' tr Hb Hbody)
      as (ol & gl & ltr & rest & -> & Hends & Hcase).
    destruct (stream_rest ol o g' rest gl ltr Hcase) as (Hns & Hlogs & Hrest).
    apply elem_of_app in Hin as [Hin|Hin];
      [|apply Hlogs in Hin as (e & _ & [=])].
    inversion Hends as [k0 g0 tr0 H1 H2 | k0 g0 m0 p H1 H2 Hk Hg Htr
                       | k0 g0 m0 p H1 H2 Hk Hg Htr | g0 r p H1 H2 H3 Hk Hg Htr].
    + by apply (steady_no_record _ _ H1) in Hin.
    + subst ltr. apply elem_of_app in Hin as [Hin|Hin];
        [by apply (steady_no_record _ _ H1) in Hin|].
      apply elem_of_cons in Hin as [[=]|Hin].
      apply elem_of_cons in Hin as [[=]|Hin].
      by apply list_elem_of_singleton in Hin.
    + subst ltr. apply elem_of_app in Hin as [Hin|Hin];
        [by apply (steady_no_record _ _ H1) in Hin|].
      apply elem_of_cons in Hin as [[=]|Hin].
      apply elem_of_cons in Hin as [[=]|Hin].
      by apply list_elem_of_singleton in Hin.
    + subst ltr. destruct Hrest as (Ho & Hone & He & Hc & Hflush); [by left|].
      split; [done|].
      rewrite !error_events_app, !cleanups_app, Hone, He.
      rewrite (error_events_steady _ H1), (cleanups_steady _ H1).
      split; [by vm_compute|]. split; [by vm_compute|].
      apply is_termination_spec in H2 as (ws1 & ws2 & Hw1 & Hw2 & Hr).
      exists p, rest, r, ws1, ws2. by rewrite <- app_assoc.
  - intros gs os gs' trs ans b Hbs Hstep Hact.
    destruct (act_step_run env gs os gs' trs Hbs Hstep) as (ans' & b' & Hact' & Hself & Hcase).
    rewrite Hact in Hact'. injection Hact' as <- <-. split; [done|].
    destruct ans as [r|e].
    + destruct (truthy r) eqn:Htruthy.
      * destruct Hcase as [(Hb1 & -> & ->)|(Hb1 & Hb' & Hcase)].
        -- split; [split|].
           ++ intros [[=]|Hin]%elem_of_cons. by apply list_elem_of_singleton in Hin.
           ++ by intros (? & ? & ? & _ & _ & _ & _ & ?).
           ++ intros [[=]|Hin]%elem_of_cons. by apply list_elem_of_singleton in Hin.
        -- destruct (is_termination r) eqn:Hterm; destruct Hcase as [-> ->].
           ++ split; [|done]. split; [|by intros _; do 2 right; left].
              intros _. apply is_termination_spec in Hterm as (ws1 & ws2 & ? & ? & ?).
              by exists r, ws1, ws2.
           ++ split; [split|].
              ** intros [[=]|Hin]%elem_of_cons. by apply list_elem_of_singleton in Hin.
              ** intros (r' & ws1 & ws2 & [= <-] & Hr & Hw1 & Hw2 & _).
                 assert (is_termination r = true) as Habs
                   by (apply is_termination_spec; by exists ws1, ws2).
                 congruence.
              ** intros [[=]|Hin]%elem_of_cons. by apply list_elem_of_singleton in Hin.
      * destruct Hcase as (-> & -> & _). split; [split|].
        -- by intros ?%list_elem_of_singleton.
        -- intros (r' & ws1 & ws2 & [= <-] & Hr & Hw1 & Hw2 & _).
           assert (is_termination r = true) as Habs
             by (apply is_termination_spec; by exists ws1, ws2).
           apply is_termination_truthy in Habs. congruence.
        -- by intros ?%list_elem_of_singleton.
    + destruct Hcase as [-> _]. split; [split|].
      * intros [[=]|Hin]%elem_of_cons. apply elem_of_cons in Hin as [[=]|Hin].
        by apply list_elem_of_singleton in Hin.
      * by intros (? & ? & ? & [=] & _).
      * intros [[=]|Hin]%elem_of_cons. apply elem_of_cons in Hin as [[=]|Hin].
        by apply list_elem_of_singleton in Hin.
Qed.

End streaming.

(** ** The sample agent: streams *)

Section sample_streams.

Import Sample.

Let start : Gen := {| self := agent0; budget := None |}.
Let hi : str := of_string "hi".

(** The exits of the stream, each with one [cleanup]: the termination
    test; an exception of [act], of [observe], of [think]; [think]
    answering no; the agent left in state [FINISHED]; the consumer closing
    the generator at its first event.  A loop that is still running has
    not cleaned up. *)
Example stream_exits :
  cleanups (stream (world (Ok SENTINEL)) 3 hi start).2 = 1
  ∧ cleanups (stream (world (Err boom)) 3 hi start).2 = 1
  ∧ cleanups (stream (world_of [] (Ok true) (Ok hi) IDLE (Err boom)) 3 hi start).2 = 1
  ∧ cleanups (stream (world_of [] (Err boom) (Ok hi) IDLE (Ok tt)) 3 hi start).2 = 1
  ∧ cleanups (stream (world_of [] (Ok false) (Ok hi) IDLE (Ok tt)) 3 hi start).2 = 1
  ∧ cleanups (stream (world_of [] (Ok true) (Ok hi) FINISHED (Ok tt)) 3 hi start).2 = 1
  ∧ cleanups (stream (world (Ok hi)) 3 hi {| self := agent0; budget := Some 1 |}).2 = 1
  ∧ (stream (world (Ok hi)) 3 hi start).1.1 = Fuel
  ∧ cleanups (stream (world (Ok hi)) 3 hi start).2 = 0.
Proof. vm_compute. by repeat split. Qed.

Lemma stream_cleans_up_once_witness :
  let res := stream (world (Ok hi)) 3 hi {| self := agent0; budget := Some 2 |} in
  stream (world (Ok hi)) 3 hi {| self := agent0; budget := Some 2 |}
  = (GeneratorExit, res.1.2, res.2)
  ∧ cleanups res.2 = 1.
Proof.
  assert (stream (world (Ok hi)) 3 hi {| self := agent0; budget := Some 2 |}
          = (GeneratorExit,
             (stream (world (Ok hi)) 3 hi {| self := agent0; budget := Some 2 |}).1.2,
             (stream (world (Ok hi)) 3 hi {| self := agent0; budget := Some 2 |}).2))
    as Hrun by (vm_compute; reflexivity).
  split; [exact Hrun|].
  refine (proj1 (proj1 (stream_cleans_up_once _ _ _ _ _ _ _ _ Hrun) _)); discriminate.
Defined.

Lemma think_restores_prompt_witness :
  let res := think (world (Ok [])) start in
  think (world (Ok [])) start = (Ret true, res.1.2, res.2)
  ∧ next_step_prompt (base (self res.1.2)) = next_step_prompt (base (self start)).
Proof.
  assert (think (world (Ok [])) start
          = (Ret true, (think (world (Ok [])) start).1.2,
             (think (world (Ok [])) start).2)) as Hrun
    by (vm_compute; reflexivity).
  split; [exact Hrun|].
  exact (proj1 (proj1 (think_restores_prompt (world (Ok []))) _ _ _ _ Hrun)).
Defined.

(** With the browser tool among the last three messages, the one
    inference call is made with the prompt of the helper, and the prompt
    is back when [think] returns. *)
Example think_augments_once :
  let res := think (world (Ok [])) {| self := browsing; budget := None |} in
  res.1.1 = Ret true
  ∧ filter stepping res.2
    = [Call format_next_step_prompt_called;
       Call (super_think_called (of_string "augmented"))]
  ∧ next_step_prompt (base (self res.1.2)) = of_string "next".
Proof. vm_compute. by repeat split. Qed.

(** Server [B] of the configuration does not answer: the initialization
    returns, the failure is logged, and the tools of [A] and [C] are
    registered. *)
Example initialize_with_unreachable_server :
  let res := initialize_mcp_servers (configured (Ok [])) start in
  res.1.1 = Ret tt
  ∧ Log (LConnectFailed (of_string "B") (of_string "unreachable")) ∈ res.2
  ∧ of_string "search" ∈ names (available_tools (self res.1.2))
  ∧ of_string "translate" ∈ names (available_tools (self res.1.2))
  ∧ sessions (mcp_clients (self res.1.2)) = {[of_string "A"; of_string "C"]}.
Proof.
  split; [vm_compute; reflexivity|]. do 3 (split; [by_computation|]). by_computation.
Qed.

(** C1, as stated, fails: [act] raises, the error event is emitted, and a
    content event follows it, the flush of the last assistant message. *)
Lemma content_event_follows_act_error :
  let res := stream (world (Err boom)) 3 hi start in
  res.1.1 = Ret tt
  ∧ Log (LActError (of_string "boom")) ∈ res.2
  ∧ filter (λ o, is_error_event o ∨ is_content_event o) res.2
    = [Emit (error_event (of_string "boom"));
       Emit (content_event (of_string "thinking"))].
Proof.
  split; [vm_compute; reflexivity|].
  split; [by_computation | vm_compute; reflexivity].
Qed.

Lemma act_error_ends_stream_witness :
  let res := stream (world (Err boom)) 3 hi start in
  stream (world (Err boom)) 3 hi start = (Ret tt, res.1.2, res.2)
  ∧ Log (LActError (of_string "boom")) ∈ res.2
  ∧ error_events res.2 = 1 ∧ cleanups res.2 = 1.
Proof.
  assert (stream (world (Err boom)) 3 hi start
          = (Ret tt, (stream (world (Err boom)) 3 hi start).1.2,
             (stream (world (Err boom)) 3 hi start).2))
    as Hrun by (vm_compute; reflexivity).
  assert (Log (LActError (of_string "boom"))
          ∈ (stream (world (Err boom)) 3 hi start).2) as Hin by by_computation.
  split; [exact Hrun|]. split; [exact Hin|].
  assert (budget start ≠ Some 0) as Hb by discriminate.
  pose proof (proj1 (act_error_ends_stream _ _ _ _ _ _ _ Hb Hrun) _ Hin)
    as (_ & H1 & H2 & _).
  exact (conj H1 H2).
Defined.

(** C2, as stated, fails: the result of [act] is the sentinel with a
    space before it and a line feed after it, not the sentinel itself; the
    loop is left through the termination branch all the same, after one
    [think] and one [act], and the agent is not in state [FINISHED]. *)
Lemma padded_result_ends_loop :
  let r := of_string " " ++ SENTINEL ++ [10%N] in
  let res := stream (world (Ok r)) 3 hi start in
  r ≠ SENTINEL
  ∧ res.1.1 = Ret tt
  ∧ Log LTermination ∈ res.2
  ∧ filter stepping res.2
    = [Call (super_think_called (of_string "next")); Call act_called]
  ∧ state (base (self res.1.2)) = IDLE.
Proof.
  split; [by_computation|]. split; [vm_compute; reflexivity|].
  split; [by_computation|]. split; vm_compute; reflexivity.
Qed.

Lemma termination_branch_witness :
  let res := stream (world (Ok SENTINEL)) 3 hi start in
  stream (world (Ok SENTINEL)) 3 hi start = (Ret tt, res.1.2, res.2)
  ∧ Log LTermination ∈ res.2
  ∧ cleanups res.2 = 1 ∧ error_events res.2 = 0.
Proof.
  assert (stream (world (Ok SENTINEL)) 3 hi start
          = (Ret tt, (stream (world (Ok SENTINEL)) 3 hi start).1.2,
             (stream (world (Ok SENTINEL)) 3 hi start).2))
    as Hrun by (vm_compute; reflexivity).
  assert (Log LTermination ∈ (stream (world (Ok SENTINEL)) 3 hi start).2)
    as Hin by by_computation.
  split; [exact Hrun|]. split; [exact Hin|].
  assert (budget start ≠ Some 0) as Hb by discriminate.
  pose proof (proj1 (termination_branch _ _ _ _ _ _ _ Hb Hrun) Hin)
    as (_ & H1 & H2 & _).
  exact (conj H1 H2).
Defined.

(** C4.  The restore of line 173 is not reached when the inference call
    raises.  The last three messages of the agent hold a call of the
    browser tool, the helper answers [augmented] and [super().think]
    raises: [think] raises and the next-step prompt stays [augmented].
    The substitution leaks into the next step: in the next stream on
    that agent the call of the browser tool is the fourth message from
    the end, the helper is not asked, and yet the inference call is made
    with [augmented], which is still the prompt when the stream has
    ended. *)
Lemma think_raise_leaks_prompt :
  let failing := world_of [] (Err boom) (Ok hi) IDLE (Ok tt) in
  let g := {| self := browsing; budget := None |} in
  let g1 := (think failing g).1.2 in
  let later := stream (world (Ok SENTINEL)) 3 hi g1 in
  browser_in_use failing (memory (base browsing)) = true
  ∧ next_step_prompt (base browsing) = of_string "next"
  ∧ (think failing g).1.1 = Raise boom
  ∧ filter stepping (think failing g).2
    = [Call format_next_step_prompt_called;
       Call (super_think_called (of_string "augmented"))]
  ∧ next_step_prompt (base (self g1)) = of_string "augmented"
  ∧ length (messages (memory (base (self g1)))) = 5
  ∧ messages (memory (base (self g1))) !! 2
    = Some {| role := assistant; content := None;
              tool_calls := Some [{| function_name := of_string "browser_use";
                                     function_arguments := of_string "{}" |}] |}
  ∧ browser_in_use failing
      (add_message (user_message hi) (memory (base (self g1)))) = false
  ∧ later.1.1 = Ret tt
  ∧ filter stepping later.2
    = [Call (super_think_called (of_string "augmented")); Call act_called]
  ∧ next_step_prompt (base (self later.1.2)) = of_string "augmented".
Proof. cbv zeta. repeat split; vm_compute; reflexivity. Qed.

(** C6, as stated, fails: servers [A] and [D] are reachable and both
    advertise [search]; the initialization returns and logs both
    connections, and the registry holds the tool [search] of [D] and of
    the tools of [A] only [summary]: the tool [search] of the reachable
    server [A] is not registered. *)
Lemma later_server_shadows_tool :
  let res := initialize_mcp_servers Overlap.configured start in
  res.1.1 = Ret tt
  ∧ answer Overlap.configured (false, of_string "http://a", None)
    = Ok [local "search"; local "summary"]
  ∧ Log (LConnectedSse (of_string "A") (of_string "http://a")) ∈ res.2
  ∧ Log (LConnectedSse (of_string "D") (of_string "http://d")) ∈ res.2
  ∧ (tag (of_string "A") (local "search") ∉ available_tools (self res.1.2))
  ∧ filter (λ t, server_id t = Some (of_string "A")) (available_tools (self res.1.2))
    = [tag (of_string "A") (local "summary")]
  ∧ tag (of_string "D") (local "search") ∈ available_tools (self res.1.2).
Proof.
  cbv zeta. split; [vm_compute; reflexivity|]. split; [vm_compute; reflexivity|].
  do 3 (split; [by_computation|]). split; [vm_compute; reflexivity | by_computation].
Qed.

Lemma initialize_mcp_servers_isolates_witness :
  tools (mcp_clients agent0) = []
  ∧ ∃ g' tr,
      initialize_mcp_servers (configured (Ok [])) start = (Ret tt, g', tr)
      ∧ Log (LConnectFailed (of_string "B") (of_string "unreachable")) ∈ tr
      ∧ ∃ t, t ∈ available_tools (self g') ∧ name t = of_string "translate"
             ∧ t ∈ tag (of_string "C") <$> [local "translate"].
Proof.
  split; [reflexivity|].
  destruct (initialize_mcp_servers_isolates (configured (Ok [])) start)
    as (g' & tr & Hrun & Hall).
  exists g', tr. split; [exact Hrun|].
  set (entry := λ u : string,
         {| type := of_string "sse"; url := Some (of_string u); command := None;
            args := [] |}).
  assert (config (configured (Ok []))
          = [(of_string "A", entry "http://a"); (of_string "B", entry "http://b");
             (of_string "C", entry "http://c")]) as Hconfig by reflexivity.
  assert (attempt (entry "http://b") = Some (false, of_string "http://b", None)) as HattB
    by (vm_compute; reflexivity).
  assert (attempt (entry "http://c") = Some (false, of_string "http://c", None)) as HattC
    by (vm_compute; reflexivity).
  assert (attempt (entry "http://a") = Some (false, of_string "http://a", None)) as HattA
    by (vm_compute; reflexivity).
  split.
  - destruct (Hall (of_string "B") (entry "http://b") _
                ltac:(rewrite Hconfig; right; left) HattB) as (_ & Hfail & _).
    apply (Hfail (Exception (of_string "unreachable"))). vm_compute. reflexivity.
  - destruct (Hall (of_string "C") (entry "http://c") _
                ltac:(rewrite Hconfig; right; right; left) HattC) as (_ & _ & Hok).
    destruct (Hok [local "translate"] ltac:(vm_compute; reflexivity)) as [_ Htools].
    destruct (Htools (local "translate") ltac:(left)) as [_ Hfresh].
    destruct (Hfresh eq_refl) as [_ Honly]. apply Honly.
    intros sid' cfg' att' adv' Hin Hatt Hans Hname. rewrite Hconfig in Hin.
    apply elem_of_cons in Hin as [[= -> ->]|Hin];
      [|apply elem_of_cons in Hin as [[= -> ->]|Hin];
        [|apply elem_of_cons in Hin as [[= -> ->]|Hin]; [|by apply elem_of_nil in Hin]]].
    + exfalso. rewrite HattA in Hatt. injection Hatt as <-.
      assert (Ok [local "search"; local "summary"] = Ok adv') as Heq
        by (rewrite <- Hans; vm_compute; reflexivity).
      injection Heq as <-.
      assert (name (local "translate") ∉ names [local "search"; local "summary"]) as Hno
        by by_computation.
      by apply Hno.
    + exfalso. rewrite HattB in Hatt. injection Hatt as <-.
      assert (Err (Exception (of_string "unreachable")) = Ok adv') as Heq
        by (rewrite <- Hans; vm_compute; reflexivity).
      discriminate Heq.
    + rewrite HattC in Hatt. injection Hatt as <-.
      assert (Ok [local "translate"] = Ok adv') as Heq
        by (rewrite <- Hans; vm_compute; reflexivity).
      injection Heq as <-. done.
Defined.

End sample_streams.

(** ** The Summary tool *)

Section summary_facts.

Import Summary.

(** C9.  [Summary.execute] never raises.  It returns the content extracted
    from the response when the key is configured, the request is answered
    with status 200 and the body has the expected shape, and the empty
    list in every other case: after a warning when the status is not 200,
    after an error record when anything raised. *)
Theorem execute_never_raises (w : World) (query : str) (num_results : option Z)
    (search_params : option Json) :
  ∃ v logs,
    execute w query num_results search_params = (Ok v, logs)
    ∧ ((∃ api_key response res,
          perplexity_api_key w = Ok api_key
          ∧ post w (request api_key query) = Ok response
          ∧ status_code response = 200%Z
          ∧ json response = Ok res
          ∧ extract res = Ok v
          ∧ logs = [])
       ∨ v = JArr []
         ∧ ((∃ api_key response,
               perplexity_api_key w = Ok api_key
               ∧ post w (request api_key query) = Ok response
               ∧ status_code response ≠ 200%Z
               ∧ logs = [LStatus (status_code response)])
            ∨ ∃ e, logs = [LSearchError (str_of e)]
                   ∧ (perplexity_api_key w = Err e
                      ∨ ∃ api_key, perplexity_api_key w = Ok api_key
                          ∧ (post w (request api_key query) = Err e
                             ∨ ∃ response,
                                 post w (request api_key query) = Ok response
                                 ∧ status_code response = 200%Z
                                 ∧ (json response = Err e
                                    ∨ ∃ res, json response = Ok res
                                             ∧ extract res = Err e))))).
Proof.
  unfold execute, try_block.
  destruct (perplexity_api_key w) as [api_key|e] eqn:Hkey.
  - destruct (post w (request api_key query)) as [response|e] eqn:Hpost.
    + destruct (status_code response =? 200)%Z eqn:Hstatus.
      * apply Z.eqb_eq in Hstatus.
        destruct (json response) as [res|e] eqn:Hjson.
        -- destruct (extract res) as [c|e] eqn:Hextract.
           ++ eexists _, _. split; [done|]. left. by exists api_key, response, res.
           ++ eexists _, _. split; [done|]. right. split; [done|]. right.
              exists e. split; [done|]. right. exists api_key. split; [done|].
              right. exists response. do 2 (split; [done|]). right. by exists res.
        -- eexists _, _. split; [done|]. right. split; [done|]. right.
           exists e. split; [done|]. right. exists api_key. split; [done|].
           right. exists response. do 2 (split; [done|]). by left.
      * apply Z.eqb_neq in Hstatus.
        eexists _, _. split; [done|]. right. split; [done|]. left.
        by exists api_key, response.
    + eexists _, _. split; [done|]. right. split; [done|]. right.
      exists e. split; [done|]. right. exists api_key. split; [done|]. by left.
  - eexists _, _. split; [done|]. right. split; [done|]. right.
    exists e. split; [done|]. by left.
Qed.

(** The extraction follows the shape [choices[0].message.content]; a
    status other than 200, a body that is not JSON and a body of another
    shape all give the empty list. *)
Example execute_samples :
  let hello := JStr (of_string "hello") in
  let w (r : Answer Response) : World :=
    {| perplexity_api_key := Ok (of_string "key"); post := λ _, r |} in
  (execute (w (Ok (answer_with hello))) (of_string "q") None None).1 = Ok hello
  ∧ (execute (w (Ok {| status_code := 500; json := Ok JNull |}))
       (of_string "q") None None).1 = Ok (JArr [])
  ∧ (execute (w (Ok {| status_code := 200;
                       json := Err (Exception (of_string "Expecting value")) |}))
       (of_string "q") None None).1 = Ok (JArr [])
  ∧ (execute (w (Ok {| status_code := 200; json := Ok (JArr []) |}))
       (of_string "q") None None).1 = Ok (JArr [])
  ∧ (execute (w (Err (Exception (of_string "timed out"))))
       (of_string "q") None None).1 = Ok (JArr []).
Proof. vm_compute. by repeat split. Qed.

End summary_facts.

(** ** The life cycle: [create], [think], [cleanup] *)

Section lifecycle.

Variable env : Env.

Implicit Types (g : Gen) (a : SuperAgent) (tr : list Obs) (t : Tool).
Implicit Types (c ts advertised : list Tool) (sid : str).

Lemma create_run g :
  ∃ g0 tr,
    initialize_mcp_servers env g = (Ret tt, g0, tr)
    ∧ create env g
      = (Ret tt, {| self := set_initialized true (self g0); budget := budget g0 |}, tr).
Proof.
  destruct (initialize_mcp_servers_run env g) as (g0 & tr0 & Hrun & _).
  exists g0, tr0. split; [done|].
  unfold create, mbind, M_bind. rewrite Hrun. unfold modify_self. by rewrite app_nil_r.
Qed.

(** A [think] on an agent whose flag is up goes straight to its step. *)
Lemma think_initialized g o g' tr :
  _initialized (self g) = true →
  think env g = (o, g', tr) →
  Forall stepping tr
  ∧ mcp_clients (self g') = mcp_clients (self g)
  ∧ available_tools (self g') = available_tools (self g)
  ∧ connected_servers (self g') = connected_servers (self g).
Proof.
  intros Hflag Hrun.
  destruct (think_run env g o g' tr Hrun)
    as (g1 & tr1 & tr2 & Hini & -> & Hstep & _ & Hm & Ht & Hc & _).
  destruct (ensure_initialized_run env g) as (g1' & tr1' & Hini' & _ & _ & _ & _ & Hcase).
  rewrite Hini in Hini'. injection Hini' as <- <-.
  rewrite Hflag in Hcase. destruct Hcase as [-> ->]. done.
Qed.

(** X1.  [create] returns whatever the servers answer: it has entered
    [initialize_mcp_servers] once, attempted every connection the
    configuration asks for and set the flag, and left the inherited
    attributes alone.  A [think] on the agent it returns makes no
    connection attempt: it only awaits its collaborators, and the
    registry, the sessions and the server table are as [create] left
    them. *)
Theorem create_then_think g :
  ∃ g1 tr1,
    create env g = (Ret tt, g1, tr1)
    ∧ _initialized (self g1) = true
    ∧ base (self g1) = base (self g)
    ∧ budget g1 = budget g
    ∧ initializations tr1 = 1
    ∧ (∀ sid server_config att,
         (sid, server_config) ∈ config env → attempt server_config = Some att →
         Call (connect_call sid att) ∈ tr1)
    ∧ ∀ o g2 tr2,
        think env g1 = (o, g2, tr2) →
        initializations tr2 = 0
        ∧ Forall stepping tr2
        ∧ mcp_clients (self g2) = mcp_clients (self g1)
        ∧ available_tools (self g2) = available_tools (self g1)
        ∧ connected_servers (self g2) = connected_servers (self g1).
Proof.
  destruct (create_run g) as (g0 & tr & Hini & Hrun).
  destruct (initialize_mcp_servers_run env g)
    as (g0' & tr0' & Hini' & Hb & Hbase & _ & _ & Hone & Hall).
  rewrite Hini in Hini'. injection Hini' as <- <-.
  eexists _, _. split; [exact Hrun|]. cbn [self budget].
  do 5 (split; [done|]).
  intros o g2 tr2 Hthink.
  destruct (think_initialized _ o g2 tr2 (eq_refl : _initialized (self {| self := set_initialized true (self g0); budget := budget g0 |}) = true) Hthink)
    as (Hst & Hrest).
  split; [by apply initializations_stepping | done].
Qed.

(** The loop of [initialize_mcp_servers] keeps what every successful
    connection keeps. *)
Lemma for_each_connect_entry_inv (P : SuperAgent → Prop) entries g o g' tr :
  (∀ endpoint sid advertised a, P a → P (connected endpoint sid advertised a)) →
  for_each entries (connect_entry env) g = (o, g', tr) →
  P (self g) → P (self g').
Proof.
  intros HP. revert g tr. induction entries as [|[sid cfg] entries IH]; intros g tr Hrun Hg.
  - by injection Hrun as <- <- <-.
  - rewrite for_each_cons, connect_entry_run in Hrun.
    destruct (attempt cfg) as [att|].
    + destruct (answer env att) as [advertised|e].
      * destruct (for_each entries (connect_entry env) _) as [[o2 g2] tr2] eqn:Hrest.
        injection Hrun as <- <- <-. apply (IH _ _ Hrest). cbn [self]. by apply HP.
      * destruct (for_each entries (connect_entry env) g) as [[o2 g2] tr2] eqn:Hrest.
        injection Hrun as <- <- <-. by apply (IH _ _ Hrest).
    + destruct (for_each entries (connect_entry env) g) as [[o2 g2] tr2] eqn:Hrest.
      injection Hrun as <- <- <-. by apply (IH _ _ Hrest).
Qed.

Lemma for_each_connect_entry_trace entries g :
  ∃ g', for_each entries (connect_entry env) g
        = (Ret tt, g', concat (entry_trace env <$> entries)).
Proof.
  revert g. induction entries as [|[sid cfg] entries IH]; intros g.
  - by exists g.
  - rewrite for_each_cons, connect_entry_run. rewrite fmap_cons. cbn [concat].
    unfold entry_trace at 1. cbn [fst snd].
    destruct (attempt cfg) as [att|].
    + destruct (answer env att) as [advertised|e].
      * destruct (IH {| self := connected att.1.2 sid advertised (self g);
                        budget := budget g |}) as [g' ->]. by exists g'.
      * destruct (IH g) as [g' ->]. by exists g'.
    + destruct (IH g) as [g' ->]. by exists g'.
Qed.

(** X2.  The trace of [initialize_mcp_servers] is fixed by the
    configuration and by what the servers answer: the entries are taken
    in the order of the configuration, each one that asks for a
    connection is attempted once and leaves one log record, of its
    success or of its failure, and the other entries leave nothing. *)
Theorem initialize_mcp_servers_trace g :
  ∃ g',
    initialize_mcp_servers env g
    = (Ret tt, g',
       Call initialize_mcp_servers_called :: concat (entry_trace env <$> config env)).
Proof.
  unfold initialize_mcp_servers, mbind, M_bind, call, observe_.
  destruct (for_each_connect_entry_trace (config env) g) as [g' ->]. by exists g'.
Qed.

End lifecycle.

(** ** Connecting and disconnecting in sequence *)

Section reconnecting.

Variable env : Env.

Implicit Types (g : Gen) (a : SuperAgent) (tr : list Obs) (t u : Tool).
Implicit Types (c ts advertised : list Tool) (sid : str).

Lemma difference_singleton_twice (s : gset str) sid : s ∖ {[sid]} ∖ {[sid]} = s ∖ {[sid]}.
Proof. apply set_eq. intros x. rewrite !elem_of_difference. tauto. Qed.

Lemma union_difference_singleton (s : gset str) sid : sid ∉ s → ({[sid]} ∪ s) ∖ {[sid]} = s.
Proof.
  intros Hsid. apply set_eq. intros x.
  rewrite elem_of_difference, elem_of_union, elem_of_singleton.
  split; [tauto|]. intros Hx. split; [by right|]. by intros ->.
Qed.

Lemma SuperAgent_eq a a' :
  base a = base a' → mcp_clients a = mcp_clients a' →
  available_tools a = available_tools a' →
  connected_servers a = connected_servers a' →
  _initialized a = _initialized a' → a = a'.
Proof. destruct a, a'; cbn; by intros -> -> -> -> ->. Qed.

(** A remote tool that is registered takes no place among the local
    ones; it may take the place of one. *)
Lemma filter_local_add_tool t c :
  is_Some (server_id t) →
  filter local_tool (add_tool t c) `sublist_of` filter local_tool c.
Proof.
  intros Ht.
  assert (¬ local_tool t) as Hnl by (unfold local_tool; by destruct Ht as [? ->]).
  induction c as [|u c IH]; cbn [add_tool].
  - by rewrite filter_cons_False.
  - case_bool_decide.
    + rewrite filter_cons_False by done. rewrite filter_cons.
      destruct (decide (local_tool u)); [by apply sublist_cons | done].
    + rewrite !filter_cons. destruct (decide (local_tool u)); [by apply sublist_skip | done].
Qed.

Lemma filter_local_add_tools c ts :
  Forall (λ t, is_Some (server_id t)) ts →
  filter local_tool (add_tools c ts) `sublist_of` filter local_tool c.
Proof.
  intros Hts. revert c. induction Hts as [|t ts Ht _ IH]; intros c; [done|].
  cbn [add_tools foldl]. etrans; [apply IH|]. by apply filter_local_add_tool.
Qed.

Lemma filter_local_connected endpoint sid advertised a :
  filter local_tool (available_tools (connected endpoint sid advertised a))
  `sublist_of` filter local_tool (available_tools a).
Proof.
  cbn [connected available_tools]. apply filter_local_add_tools.
  apply Forall_forall. intros t [Ht _]%list_elem_of_filter. by rewrite Ht.
Qed.

(** The tools of [mcp_clients] are not local. *)
Lemma filter_local_mcp a : consistent a → filter local_tool (tools (mcp_clients a)) = [].
Proof.
  intros Ha. apply filter_none, Forall_forall. intros t Hin Hl.
  destruct (mcp_tagged a Ha t Hin) as (sid & Hsid & _). unfold local_tool in Hl. congruence.
Qed.

Lemma filter_local_idempotent c : filter local_tool (filter local_tool c) = filter local_tool c.
Proof. apply filter_all, Forall_forall. by intros t [Ht _]%list_elem_of_filter. Qed.

Lemma filter_filter_same {A} (P : A → Prop) `{∀ x, Decision (P x)} (l : list A) :
  filter P (filter P l) = filter P l.
Proof.
  apply filter_all, Forall_forall. intros t Hin.
  by apply list_elem_of_filter in Hin as [Ht _].
Qed.

(** What [disconnect_mcp_server] leaves is left alone by the same call. *)
Lemma disconnected_idempotent sid a :
  consistent a → disconnected sid (disconnected sid a) = disconnected sid a.
Proof.
  intros Ha. pose proof (consistent_disconnected sid a Ha) as Ha'.
  assert (MCPClients_disconnect sid (mcp_clients (disconnected sid a))
          = mcp_clients (disconnected sid a)) as Hm.
  { cbn [disconnected mcp_clients]. unfold MCPClients_disconnect.
    destruct (truthy sid); cbn [sessions tools]; [|done].
    f_equal; [apply difference_singleton_twice | apply filter_filter_same]. }
  apply SuperAgent_eq.
  - done.
  - exact Hm.
  - rewrite (disconnected_registry sid _ Ha'), Hm.
    rewrite (disconnected_registry sid a Ha) at 1.
    rewrite filter_app, filter_local_idempotent.
    change (MCPClients_disconnect sid (mcp_clients a))
      with (mcp_clients (disconnected sid a)).
    rewrite (filter_local_mcp _ Ha'), app_nil_r.
    by rewrite (disconnected_registry sid a Ha).
  - cbn [disconnected connected_servers]. destruct (truthy sid); [|done].
    by rewrite delete_delete_eq.
  - done.
Qed.

(** X3.  [disconnect_mcp_server] is idempotent: on an agent that was built
    with local tools and has gone through any connections and
    disconnections, the call returns, and the same call made again
    returns and leaves the agent, its registry in its order included,
    exactly as the first call left it. *)
Theorem disconnect_mcp_server_idempotent a sid bud :
  reachable env a →
  ∃ g1 tr1 g2 tr2,
    disconnect_mcp_server sid {| self := a; budget := bud |} = (Ret tt, g1, tr1)
    ∧ disconnect_mcp_server sid g1 = (Ret tt, g2, tr2)
    ∧ g2 = g1.
Proof.
  intros Ha%reachable_consistent.
  eexists _, _, _, _. split; [apply disconnect_mcp_server_run|].
  split; [apply disconnect_mcp_server_run|].
  cbn [self budget]. by rewrite disconnected_idempotent.
Qed.

Lemma add_tool_app_fresh t c d :
  name t ∉ names c → add_tool t (c ++ d) = c ++ add_tool t d.
Proof.
  induction c as [|u c IH]; intros Hn; [done|].
  cbn [app add_tool]. unfold names in Hn. rewrite fmap_cons, not_elem_of_cons in Hn.
  destruct Hn as [Hne Hn]. rewrite bool_decide_eq_false_2 by done.
  by rewrite IH.
Qed.

(** Tools whose names are new are appended, as a collection of their
    own. *)
Lemma add_tools_app_fresh c ts :
  (∀ t, t ∈ ts → name t ∉ names c) → add_tools c ts = c ++ ToolCollection ts.
Proof.
  induction ts as [|t ts IH] using rev_ind; intros Hn.
  - cbn. by rewrite app_nil_r.
  - unfold ToolCollection. rewrite !add_tools_snoc.
    fold (ToolCollection ts). rewrite IH.
    + apply add_tool_app_fresh. apply Hn. set_solver.
    + intros u Hu. apply Hn. set_solver.
Qed.

Lemma elem_of_registry a t :
  consistent a →
  t ∈ filter local_tool (available_tools a) ++ tools (mcp_clients a) ↔ t ∈ available_tools a.
Proof.
  intros Ha. rewrite elem_of_app, list_elem_of_filter. split.
  - intros [[_ Hin]|Hin]; [done|].
    destruct (mcp_tagged a Ha t Hin) as (sid & Hsid & _).
    apply (registry_mcp a Ha); [by rewrite Hsid | done].
  - intros Hin. destruct (server_id t) as [sid|] eqn:Hsid.
    + right. apply (registry_mcp a Ha); [by rewrite Hsid | done].
    + by left.
Qed.

(** X4.  Connecting a server and disconnecting it again is a round trip,
    when the server was not connected and none of the names it advertises
    was registered: the sessions and tools of [mcp_clients] and the
    server table are what they were, and the registry holds the tools it
    held, the local ones first. *)
Theorem connect_then_disconnect a server_url sid use_stdio stdio_args advertised bud :
  reachable env a →
  sid ≠ [] →
  sid ∉ sessions (mcp_clients a) →
  connected_servers a !! sid = None →
  server env (transport_of use_stdio) server_url (arguments_of use_stdio stdio_args)
    = Ok advertised →
  (∀ d, d ∈ advertised → name d ∉ names (available_tools a)) →
  ∃ g1 tr1 g2 tr2,
    connect_mcp_server env server_url sid use_stdio stdio_args
      {| self := a; budget := bud |} = (Ret tt, g1, tr1)
    ∧ disconnect_mcp_server sid g1 = (Ret tt, g2, tr2)
    ∧ (∀ d, d ∈ advertised → name d ∈ names (available_tools (self g1)))
    ∧ mcp_clients (self g2) = mcp_clients a
    ∧ connected_servers (self g2) = connected_servers a
    ∧ base (self g2) = base a
    ∧ _initialized (self g2) = _initialized a
    ∧ available_tools (self g2)
      = filter local_tool (available_tools a) ++ tools (mcp_clients a)
    ∧ ∀ t, t ∈ available_tools (self g2) ↔ t ∈ available_tools a.
Proof.
  intros Ha%reachable_consistent Hsid Hclosed Htable Hanswer Hfresh.
  pose proof (consistent_connected server_url sid advertised a Ha) as Ha1.
  eexists _, _, _, _. split; [by apply connect_mcp_server_Ok|].
  split; [apply disconnect_mcp_server_run|]. cbn [self budget].
  assert (truthy sid = true) as Htruthy by by destruct sid.
  set (tagged := ToolCollection (tag sid <$> advertised)).
  assert (∀ t, t ∈ tagged → server_id t = Some sid ∧ name t ∈ names advertised) as Htagged.
  { intros t [Hin|Hin]%elem_of_add_tools_inv; [by apply elem_of_nil in Hin|].
    split; [by eapply elem_of_tag|]. rewrite <- (names_tag sid). by apply list_elem_of_fmap_2. }
  assert (∀ n, n ∈ names (tools (mcp_clients a)) → n ∈ names (available_tools a)) as Hsub.
  { intros n (t & -> & Hin)%list_elem_of_fmap. apply list_elem_of_fmap_2.
    destruct (mcp_tagged a Ha t Hin) as (s & Hs & _).
    apply (registry_mcp a Ha); [by rewrite Hs | done]. }
  assert (tools (mcp_clients (connected server_url sid advertised a))
          = tools (mcp_clients a) ++ tagged) as Hm1.
  { cbn [connected mcp_clients tools]. apply add_tools_app_fresh.
    intros t (d & -> & Hd)%list_elem_of_fmap Hin. by apply (Hfresh d Hd), Hsub. }
  assert (filter (λ t, server_id t = Some sid) (tools (mcp_clients a)) = []) as Hnone.
  { apply filter_none, Forall_forall. intros t Hin Ht.
    destruct (mcp_tagged a Ha t Hin) as (s & Hs & Hopen). congruence. }
  assert (available_tools (connected server_url sid advertised a)
          = available_tools a ++ tagged) as Hr1.
  { change (available_tools (connected server_url sid advertised a))
      with (add_tools (available_tools a)
              (filter (λ t, server_id t = Some sid)
                 (tools (mcp_clients (connected server_url sid advertised a))))).
    rewrite Hm1, filter_app, Hnone, app_nil_l.
    rewrite (filter_all _ tagged) by (apply Forall_forall; intros t Ht; by apply Htagged).
    rewrite add_tools_app_fresh.
    - f_equal. apply ToolCollection_id, ToolCollection_NoDup.
    - intros t Ht. destruct (Htagged t Ht) as [_ (d & Hn & Hd)%list_elem_of_fmap].
      rewrite Hn. by apply Hfresh. }
  assert (MCPClients_disconnect sid (mcp_clients (connected server_url sid advertised a))
          = mcp_clients a) as Hm2.
  { unfold MCPClients_disconnect. rewrite Htruthy, Hm1.
    cbn [connected mcp_clients sessions].
    destruct (mcp_clients a) as [s ts] eqn:Hmcp. cbn [sessions tools] in *. f_equal.
    - by apply union_difference_singleton.
    - rewrite filter_app. rewrite (filter_none _ tagged).
      + rewrite app_nil_r. apply filter_all, Forall_forall. intros t Hin Ht.
        destruct (mcp_tagged a Ha t) as (s' & Hs' & Hopen); [by rewrite Hmcp|].
        rewrite Hmcp in Hopen. cbn in Hopen. congruence.
      + apply Forall_forall. intros t Hin. destruct (Htagged t Hin) as [Ht _].
        by intros []. }
  split.
  { intros d Hd. by apply names_connected_advertised. }
  split; [exact Hm2|]. split.
  { cbn [disconnected connected connected_servers]. rewrite Htruthy.
    unfold or_else. rewrite Htruthy. by apply delete_insert_id. }
  split; [done|]. split; [done|].
  assert (available_tools (disconnected sid (connected server_url sid advertised a))
          = filter local_tool (available_tools a) ++ tools (mcp_clients a)) as Hr2.
  { rewrite (disconnected_registry sid _ Ha1), Hm2, Hr1, filter_app.
    rewrite (filter_none _ tagged); [by rewrite app_nil_r|].
    apply Forall_forall. intros t Hin. destruct (Htagged t Hin) as [Ht _].
    unfold local_tool. congruence. }
  split; [exact Hr2|]. intros t. rewrite Hr2. by apply elem_of_registry.
Qed.

End reconnecting.

(** ** From [create] to [cleanup] *)

Section closing_down.

Variable env : Env.

Implicit Types (g : Gen) (a : SuperAgent) (tr : list Obs).

Lemma initialize_mcp_servers_inv (P : SuperAgent → Prop) g o g' tr :
  (∀ endpoint sid advertised a, P a → P (connected endpoint sid advertised a)) →
  initialize_mcp_servers env g = (o, g', tr) →
  P (self g) → P (self g').
Proof.
  intros HP Hrun. unfold initialize_mcp_servers, mbind, M_bind, call, observe_ in Hrun.
  destruct (for_each (config env) (connect_entry env) g) as [[o1 g1] tr1] eqn:Hloop.
  injection Hrun as <- <- <-. by apply (for_each_connect_entry_inv env P _ _ _ _ _ HP Hloop).
Qed.

(** X5.  [cleanup] after [create] closes what [create] opened: no session
    and no remote tool are left in [mcp_clients], the server table is
    empty, the flag is down, and the registry holds the local tools that
    were registered when [cleanup] was called, in their order.  These are
    among the local tools the agent had before [create]; a local tool
    whose name a server advertised may be missing.  The next [think]
    enters [initialize_mcp_servers] again. *)
Theorem create_then_cleanup g :
  reachable env (self g) →
  ∃ g1 tr1 g2 tr2,
    create env g = (Ret tt, g1, tr1)
    ∧ cleanup g1 = (Ret tt, g2, tr2)
    ∧ sessions (mcp_clients (self g2)) = ∅
    ∧ tools (mcp_clients (self g2)) = []
    ∧ connected_servers (self g2) = ∅
    ∧ _initialized (self g2) = false
    ∧ available_tools (self g2) = filter local_tool (available_tools (self g1))
    ∧ available_tools (self g2) `sublist_of` filter local_tool (available_tools (self g))
    ∧ ∀ o g3 tr3, think env g2 = (o, g3, tr3) → initializations tr3 = 1.
Proof.
  intros Hg%reachable_consistent.
  destruct (create_run env g) as (g0 & tr & Hini & Hrun).
  assert (consistent (self g0)) as Hg0.
  { apply (initialize_mcp_servers_inv consistent _ _ _ _
             (λ e s ad a, consistent_connected e s ad a) Hini Hg). }
  assert (filter local_tool (available_tools (self g0))
          `sublist_of` filter local_tool (available_tools (self g))) as Hsub.
  { apply (initialize_mcp_servers_inv
             (λ a, filter local_tool (available_tools a)
                   `sublist_of` filter local_tool (available_tools (self g)))
             _ _ _ _ ltac:(intros e s ad a Ha; cbv beta in *; etrans; [apply filter_local_connected | exact Ha])
             Hini). done. }
  eexists _, _, _, _. split; [exact Hrun|]. split; [apply cleanup_run|].
  cbn [self budget]. unfold cleaned. cbn [set_initialized _initialized].
  cbn [mcp_clients connected_servers available_tools disconnected MCPClients_disconnect
       truthy sessions tools set_base].
  do 4 (split; [done|]).
  assert (add_tools
            (ToolCollection (filter (λ t, ¬ is_Some (server_id t)) (available_tools (self g0))))
            [] = filter local_tool (available_tools (self g0))) as Hreg.
  { pose proof (disconnected_registry [] (self g0) Hg0) as H.
    cbn [disconnected available_tools MCPClients_disconnect truthy tools] in H.
    by rewrite app_nil_r in H. }
  split; [exact Hreg|].
  split; [exact (eq_ind_r (λ l, l `sublist_of` _) Hsub Hreg)|].
  intros o g3 tr3 Hthink.
  destruct (think_run env _ o g3 tr3 Hthink)
    as (g1' & tr1' & tr2' & Hens & -> & Hstep & _).
  match type of Hens with
  | ensure_initialized _ ?gx = _ =>
      destruct (ensure_initialized_run env gx)
        as (g1'' & tr1'' & Hens' & _ & _ & _ & _ & Hcase);
      destruct (initialize_mcp_servers_run env gx)
        as (g0'' & tr0'' & Hini'' & _ & _ & _ & _ & Hone & _)
  end.
  rewrite Hens in Hens'. injection Hens' as <- <-.
  cbn [self set_initialized _initialized] in Hcase.
  destruct Hcase as (g0' & Hini' & _).
  rewrite Hini' in Hini''. injection Hini'' as <- <-.
  rewrite initializations_app, Hone, (initializations_stepping _ Hstep). done.
Qed.

End closing_down.

(** ** The stream: the failures of [think] and of [observe] *)

Section stream_errors.

Variable env : Env.

Implicit Types (g : Gen) (tr : list Obs) (k : Ending).

Lemma stream_started fuel prompt g o g' tr :
  budget g ≠ Some 0 →
  stream env fuel prompt g = (o, g', tr) →
  stream_body env fuel prompt g = (o, g', tr).
Proof. intros Hb Hrun. unfold stream in Hrun. by destruct (budget g) as [[|n]|]. Qed.

(** The records of the loop are not those of the handler of line 220. *)
Lemma ends_no_stream_error k gl ltr m : ends k gl ltr → Log (LStreamError m) ∉ ltr.
Proof.
  intros Hends Hin.
  inversion Hends as [k0 g0 tr0 H1 H2 | k0 g0 m0 p H1 H2 Hk Hg Htr
                     | k0 g0 m0 p H1 H2 Hk Hg Htr | g0 r p H1 H2 H3 Hk Hg Htr];
    [by apply (steady_no_record _ _ H1) in Hin | | |];
    subst ltr; (apply elem_of_app in Hin as [Hin|Hin];
      [by apply (steady_no_record _ _ H1) in Hin|]);
    apply elem_of_cons in Hin as [[=]|Hin];
    apply elem_of_cons in Hin as [[=]|Hin];
    by apply list_elem_of_singleton in Hin.
Qed.

(** X6.  When [think] raises inside [stream], the handler of line 220
    logs the exception and emits it as the one error event of the
    stream; this event is the last one: the final flush of the last
    assistant message is skipped, only [cleanup] follows, once. *)
Theorem think_error_ends_stream fuel prompt g o g' tr m :
  budget g ≠ Some 0 →
  stream env fuel prompt g = (o, g', tr) →
  Log (LStreamError m) ∈ tr →
  o ≠ Fuel ∧ error_events tr = 1 ∧ cleanups tr = 1
  ∧ ∃ pre post,
      tr = pre ++ [Log (LStreamError m); Emit (error_event m)] ++ post
      ∧ Forall steady pre
      ∧ Forall closing post
      ∧ ∀ ev, Emit ev ∉ post.
Proof.
  intros Hb Hrun%stream_started Hin; [|done].
  destruct (stream_body_run env fuel prompt g o g' tr Hb Hrun)
    as (ol & gl & ltr & rest & -> & Hends & Hcase).
  destruct (stream_rest ol o g' rest gl ltr Hcase) as (_ & Hlogs & _).
  apply elem_of_app in Hin as [Hin|Hin]; [by apply (ends_no_stream_error _ _ _ _ Hends) in Hin|].
  destruct (Hlogs _ Hin) as (e & -> & [= ->]).
  destruct Hcase as (Ho & Hst & ctr & -> & Hclosing & Hone).
  destruct (closing_facts ctr Hclosing) as (He & _ & _ & _ & Hne).
  split; [done|].
  rewrite !error_events_app, !cleanups_app, Hone, He.
  rewrite (error_events_steady _ Hst), (cleanups_steady _ Hst).
  split; [by vm_compute|]. split; [by vm_compute|].
  by exists ltr, ctr.
Qed.

(** X7.  When [observe] raises inside [stream], the stream ends: the
    exception is logged and emitted as the one error event of the stream,
    no step of the loop follows it, at most one content event follows it,
    the flush of the last assistant message, and [cleanup] is entered
    exactly once. *)
Theorem observe_error_ends_stream fuel prompt g o g' tr m :
  budget g ≠ Some 0 →
  stream env fuel prompt g = (o, g', tr) →
  Log (LObserveError m) ∈ tr →
  o ≠ Fuel ∧ error_events tr = 1 ∧ cleanups tr = 1
  ∧ ∃ pre post,
      tr = pre ++ [Call observe_called; Log (LObserveError m); Emit (error_event m)] ++ post
      ∧ Forall steady pre
      ∧ Forall (λ o, ¬ stepping o) post
      ∧ error_events post = 0
      ∧ content_events post ≤ 1
      ∧ ∀ c, Emit (content_event c) ∈ post →
             ∃ msg, get_last_assistant_message (memory (base (self g'))) = Some msg
                    ∧ content msg = Some c.
Proof.
  intros Hb Hrun%stream_started Hin; [|done].
  destruct (stream_body_run env fuel prompt g o g' tr Hb Hrun)
    as (ol & gl & ltr & rest & -> & Hends & Hcase).
  destruct (stream_rest ol o g' rest gl ltr Hcase) as (Hns & Hlogs & Hrest).
  apply elem_of_app in Hin as [Hin|Hin];
    [|destruct (Hlogs _ Hin) as (e & Hol & Heq); discriminate Heq].
  inversion Hends as [k0 g0 tr0 H1 H2 | k0 g0 m0 p H1 H2 Hk Hg Htr
                     | k0 g0 m0 p H1 H2 Hk Hg Htr | g0 r p H1 H2 H3 Hk Hg Htr].
  - by apply (steady_no_record _ _ H1) in Hin.
  - subst ltr. apply elem_of_app in Hin as [Hin|Hin];
      [by apply (steady_no_record _ _ H1) in Hin|].
    apply elem_of_cons in Hin as [[=]|Hin].
    apply elem_of_cons in Hin as [[=]|Hin].
    by apply list_elem_of_singleton in Hin.
  - subst ltr. apply elem_of_app in Hin as [Hin|Hin];
      [by apply (steady_no_record _ _ H1) in Hin|].
    assert (m0 = m) as ->.
    { apply elem_of_cons in Hin as [[=]|Hin].
      apply elem_of_cons in Hin as [[= ->]|Hin]; [done|].
      by apply list_elem_of_singleton in Hin. }
    destruct Hrest as (Ho & Hone & He & Hc & Hflush).
    { destruct H2 as [[-> _] | ->]; by auto. }
    split; [done|].
    rewrite !error_events_app, !cleanups_app, Hone, He.
    rewrite (error_events_steady _ H1), (cleanups_steady _ H1).
    split; [by vm_compute|]. split; [by vm_compute|].
    exists p, rest. by rewrite <- app_assoc.
  - subst ltr. apply elem_of_app in Hin as [Hin|Hin];
      [by apply (steady_no_record _ _ H1) in Hin|].
    apply elem_of_cons in Hin as [[=]|Hin].
    apply elem_of_cons in Hin as [[=]|Hin].
    by apply list_elem_of_singleton in Hin.
Qed.

Lemma error_events_none tr m : error_events tr = 0 → Emit (error_event m) ∉ tr.
Proof.
  unfold error_events. intros Hlen Hin.
  assert (Emit (error_event m) ∈ filter is_error_event tr) as Hf
    by (by apply list_elem_of_filter).
  destruct (filter is_error_event tr); [by apply elem_of_nil in Hf | done].
Qed.

Lemma steady_no_error_event tr m : Forall steady tr → Emit (error_event m) ∉ tr.
Proof. intros H Hin. rewrite Forall_forall in H. by apply H in Hin. Qed.

(** Membership in a trace that is given by its parts. *)
Ltac members :=
  split; intros;
  repeat match goal with
         | H : _ ∨ _ |- _ => destruct H
         | H : False |- _ => destruct H
         | H : _ ∈ _, N : _ ∉ _ |- _ => by destruct (N H)
         | H : @eq Obs _ _ |- _ => first [discriminate H | injection H as ->]
         end;
  auto 10.

Lemma steady_quiet tr m :
  Forall steady tr →
  (Emit (error_event m) ∉ tr) ∧ (Log (LActError m) ∉ tr)
  ∧ (Log (LObserveError m) ∉ tr) ∧ (Log (LStreamError m) ∉ tr).
Proof.
  intros H. rewrite Forall_forall in H.
  repeat split; intros Hin; by apply H in Hin.
Qed.

(** The error events of the loop are those of its act and observe steps. *)
Lemma ends_error_events k gl ltr :
  ends k gl ltr →
  error_events ltr ≤ 1
  ∧ (∀ e, k = raised e → error_events ltr = 0)
  ∧ ∀ m, Emit (error_event m) ∈ ltr ↔
         Log (LActError m) ∈ ltr ∨ Log (LObserveError m) ∈ ltr.
Proof.
  intros [k0 g0 tr0 H1 H2 | k0 g0 m0 p H1 H2 | k0 g0 m0 p H1 H2 | g0 r p H1 H2 H3].
  - rewrite (error_events_steady _ H1). split; [lia|]. split; [done|].
    intros m. destruct (steady_quiet tr0 m H1) as (? & ? & ? & _). tauto.
  - rewrite error_events_app, (error_events_steady _ H1).
    split; [by vm_compute|]. split; [by intros e ->; destruct H2 as [[? _]|?]|].
    intros m. destruct (steady_quiet p m H1) as (? & ? & ? & _).
    rewrite !elem_of_app, !elem_of_cons, !elem_of_nil. members.
  - rewrite error_events_app, (error_events_steady _ H1).
    split; [by vm_compute|]. split; [by intros e ->; destruct H2 as [[? _]|?]|].
    intros m. destruct (steady_quiet p m H1) as (? & ? & ? & _).
    rewrite !elem_of_app, !elem_of_cons, !elem_of_nil. members.
  - rewrite error_events_app, (error_events_steady _ H1).
    split; [vm_compute; lia|]. split; [by intros e [=]|].
    intros m. destruct (steady_quiet p m H1) as (? & ? & ? & _).
    rewrite !elem_of_app, !elem_of_cons, !elem_of_nil. members.
Qed.

(** X8.  A stream emits at most one error event, and it emits the error
    event of a text exactly when it has logged that text as the error of
    the act step, of the observe step, or of the stream. *)
Theorem stream_error_events fuel prompt g o g' tr :
  budget g ≠ Some 0 →
  stream env fuel prompt g = (o, g', tr) →
  error_events tr ≤ 1
  ∧ ∀ m, Emit (error_event m) ∈ tr ↔
         Log (LActError m) ∈ tr ∨ Log (LObserveError m) ∈ tr ∨ Log (LStreamError m) ∈ tr.
Proof.
  intros Hb Hrun%stream_started; [|done].
  destruct (stream_body_run env fuel prompt g o g' tr Hb Hrun)
    as (ol & gl & ltr & rest & -> & Hends & Hcase).
  destruct (stream_rest ol o g' rest gl ltr Hcase) as (_ & Hlogs & Hrest).
  destruct (ends_error_events _ _ _ Hends) as (Hle & Hzero & Hloop).
  assert (error_events ltr + error_events rest ≤ 1
          ∧ ∀ m, Emit (error_event m) ∈ rest ↔ Log (LStreamError m) ∈ rest)
    as [Hcount Hiff].
  { destruct ol as [[]|e| |].
    - destruct Hrest as (_ & _ & He & _); [by left|]. split; [lia|].
      intros m. split; [by intros ?%error_events_none|].
      by intros (? & [=] & _)%Hlogs.
    - destruct Hcase as (_ & Hst & ctr & -> & Hclosing & _).
      destruct (closing_facts ctr Hclosing) as (He & _ & _ & Hnl & Hne).
      rewrite (Hzero e eq_refl), error_events_app, He. split; [by vm_compute|].
      intros m. specialize (Hnl (LStreamError m)). specialize (Hne (error_event m)).
      rewrite !elem_of_app, !elem_of_cons, !elem_of_nil. members.
    - destruct Hrest as (_ & _ & He & _); [by right|]. split; [lia|].
      intros m. split; [by intros ?%error_events_none|].
      by intros (? & [=] & _)%Hlogs.
    - destruct Hcase as [_ ->]. split; [cbn; lia|].
      intros m. by rewrite !elem_of_nil. }
  rewrite error_events_app. split; [done|].
  intros m. rewrite !elem_of_app, Hloop, Hiff.
  pose proof (ends_no_stream_error _ _ _ m Hends) as Hns.
  assert (Log (LActError m) ∉ rest) as Hna by (by intros (? & _ & [=])%Hlogs).
  assert (Log (LObserveError m) ∉ rest) as Hno by (by intros (? & _ & [=])%Hlogs).
  tauto.
Qed.

End stream_errors.

(** ** What every observation of a run satisfies *)

Section tracing.

Context {A B : Type} (P : Obs → Prop).

Lemma traced_ret (a : A) : traced P (mret a).
Proof. intros g o g' tr [= <- <- <-]. constructor. Qed.

Lemma traced_raise e : traced P (@raise A e).
Proof. intros g o g' tr [= <- <- <-]. constructor. Qed.

Lemma traced_bind (m : M A) (k : A → M B) :
  traced P m → (∀ a, traced P (k a)) → traced P (m ≫= k).
Proof.
  intros Hm Hk g o g' tr Hrun. unfold mbind, M_bind in Hrun.
  destruct (m g) as [[[a|e| |] g1] tr1] eqn:E1.
  - destruct (k a g1) as [[o2 g2] tr2] eqn:E2. injection Hrun as <- <- <-.
    apply Forall_app. split; [by eapply Hm | by eapply Hk].
  - injection Hrun as <- <- <-. by eapply Hm.
  - injection Hrun as <- <- <-. by eapply Hm.
  - injection Hrun as <- <- <-. by eapply Hm.
Qed.

Lemma traced_try_except (m : M A) (h : Exn → M A) :
  traced P m → (∀ e, traced P (h e)) → traced P (try_except m h).
Proof.
  intros Hm Hh g o g' tr Hrun. unfold try_except in Hrun.
  destruct (m g) as [[[a|e| |] g1] tr1] eqn:E1.
  - injection Hrun as <- <- <-. by eapply Hm.
  - destruct (h e g1) as [[o2 g2] tr2] eqn:E2. injection Hrun as <- <- <-.
    apply Forall_app. split; [by eapply Hm | by eapply Hh].
  - injection Hrun as <- <- <-. by eapply Hm.
  - injection Hrun as <- <- <-. by eapply Hm.
Qed.

Lemma traced_try_finally (m : M A) (f : M unit) :
  traced P m → traced P f → traced P (try_finally m f).
Proof.
  intros Hm Hf g o g' tr Hrun. unfold try_finally in Hrun.
  destruct (m g) as [[[a|e| |] g1] tr1] eqn:E1;
    [| | |injection Hrun as <- <- <-; by eapply Hm];
    destruct (f g1) as [[[[]|e2| |] g2] tr2] eqn:E2; injection Hrun as <- <- <-;
    (apply Forall_app; split; [by eapply Hm | by eapply Hf]).
Qed.

Lemma traced_for_each (xs : list A) (body : A → M unit) :
  (∀ x, traced P (body x)) → traced P (for_each xs body).
Proof.
  intros Hbody. induction xs as [|x xs IH]; cbn [for_each].
  - intros g o g' tr [= <- <- <-]. constructor.
  - intros g o g' tr Hrun. unfold mbind, M_bind in Hrun.
    destruct (body x g) as [[[[]|e| |] g1] tr1] eqn:E1.
    + destruct (for_each xs body g1) as [[o2 g2] tr2] eqn:E2. injection Hrun as <- <- <-.
      apply Forall_app. split; [by eapply Hbody | by eapply IH].
    + injection Hrun as <- <- <-. by eapply Hbody.
    + injection Hrun as <- <- <-. by eapply Hbody.
    + injection Hrun as <- <- <-. by eapply Hbody.
Qed.

End tracing.

Section tracing_steps.

Context (P : Obs → Prop).

Lemma traced_observe o : P o → traced P (observe_ o).
Proof. intros Ho g o' g' tr [= <- <- <-]. by repeat constructor. Qed.

Lemma traced_log r : P (Log r) → traced P (log r).
Proof. apply traced_observe. Qed.

Lemma traced_call c : P (Call c) → traced P (call c).
Proof. apply traced_observe. Qed.

Lemma traced_get_self : traced P get_self.
Proof. intros g o g' tr [= <- <- <-]. constructor. Qed.

Lemma traced_modify_self f : traced P (modify_self f).
Proof. intros g o g' tr [= <- <- <-]. constructor. Qed.

Lemma traced_await {A} c (f : SuperAgent → Answer A * ToolCallAgent) :
  P (Call c) → traced P (await c f).
Proof.
  intros Hc g o g' tr Hrun. unfold await in Hrun.
  destruct (f (self g)) as [ans b]. injection Hrun as <- <- <-. by repeat constructor.
Qed.

Lemma traced_yield ev : P (Emit ev) → traced P (yield ev).
Proof.
  intros Hev g o g' tr Hrun. unfold yield in Hrun.
  destruct (budget g) as [[|[|n]]|]; injection Hrun as <- <- <-; by repeat constructor.
Qed.

Lemma traced_while fuel cond (body : M Flow) :
  traced P body → traced P (while fuel cond body).
Proof.
  intros Hbody. induction fuel as [|fuel IH]; intros g o g' tr Hrun; cbn [while] in Hrun.
  - destruct (cond (self g)); injection Hrun as <- <- <-; constructor.
  - destruct (cond (self g)); [|injection Hrun as <- <- <-; constructor].
    unfold mbind, M_bind in Hrun.
    destruct (body g) as [[[[|]|e| |] g1] tr1] eqn:E1.
    + destruct (while fuel cond body g1) as [[o2 g2] tr2] eqn:E2. injection Hrun as <- <- <-.
      apply Forall_app. split; [by eapply Hbody | by eapply IH].
    + unfold mret, M_ret in Hrun. injection Hrun as <- <- <-. rewrite app_nil_r. by eapply Hbody.
    + injection Hrun as <- <- <-. by eapply Hbody.
    + injection Hrun as <- <- <-. by eapply Hbody.
    + injection Hrun as <- <- <-. by eapply Hbody.
Qed.

End tracing_steps.

(** The structure of a method gives what its observations satisfy, up to
    the observations themselves. *)
Ltac traces :=
  repeat first
    [ assumption | apply traced_ret | apply traced_raise | apply traced_get_self
    | apply traced_modify_self | apply traced_log | apply traced_call
    | apply traced_await | apply traced_yield
    | apply traced_try_except | apply traced_try_finally
    | apply traced_while | apply traced_for_each | apply traced_bind
    | match goal with
      | |- traced _ (if ?b then _ else _) => destruct b eqn:?
      | |- traced _ (match ?x with _ => _ end) => destruct x eqn:?
      | |- traced _ (let '(_, _) := ?x in _) => destruct x eqn:?
      | |- ∀ _, _ => intro
      end ].

Section stream_events.

Variable env : Env.

Variable P : Obs → Prop.

Hypothesis P_Call : ∀ c, P (Call c).
Hypothesis P_Log : ∀ r, P (Log r).
Hypothesis P_error : ∀ m, P (Emit (error_event m)).
Hypothesis P_content : ∀ c, c ≠ [] → P (Emit (content_event c)).

Lemma truthy_nonempty (c : str) : truthy c = true → c ≠ [].
Proof. by destruct c. Qed.

Lemma think_traced : traced P (think env).
Proof using P_Call P_Log.
  unfold think, ensure_initialized, initialize_mcp_servers, connect_entry,
    connect_mcp_server, connect_stdio, connect_sse, MCPClients_connect.
  traces; auto.
Qed.

Lemma cleanup_traced : traced P cleanup.
Proof using P_Call. unfold cleanup, cleanup_browser, disconnect_mcp_server. traces; auto. Qed.

Lemma stream_traced fuel prompt : traced P (stream env fuel prompt).
Proof using All.
  intros g o g' tr Hrun. unfold stream in Hrun.
  assert (traced P (stream_body env fuel prompt)) as Hbody.
  { pose proof think_traced as Hthink. pose proof cleanup_traced as Hcleanup.
    unfold stream_body, iteration, act_step, observe_step, flush.
    traces; auto using truthy_nonempty. }
  destruct (budget g) as [[|n]|]; [injection Hrun as <- <- <-; constructor | |];
    by eapply Hbody.
Qed.

End stream_events.

Section stream_contents.

Variable env : Env.

(** X9.  A stream emits no empty content event: the result of [act] is
    emitted only when it is not empty (line 193), and so is the content
    of the last assistant message (line 217). *)
Theorem stream_content_events_worded fuel prompt g :
  Forall worded (stream env fuel prompt g).2.
Proof.
  destruct (stream env fuel prompt g) as [[o g'] tr] eqn:Hrun.
  by apply (stream_traced env worded) in Hrun.
Qed.

End stream_contents.

(** ** The loop of [stream] has no step budget *)

Section unbounded.

Variable env : Env.

Implicit Types (g : Gen) (tr : list Obs) (b : ToolCallAgent).

(** The collaborators go on: [super().think] asks for the next step,
    [act] returns a result that is not the termination text, [observe]
    and the browser context helper succeed, and none of them leaves the
    agent in state [FINISHED] or [ERROR]. *)
Hypothesis think_goes_on : ∀ ts b,
  alive b → ∃ b', super_think env ts b = (Ok true, b') ∧ alive b'.
Hypothesis format_goes_on : ∀ b,
  alive b → ∃ p b', format_next_step_prompt env b = (Ok p, b') ∧ alive b'.
Hypothesis act_goes_on : ∀ ts b,
  alive b → ∃ r b', act env ts b = (Ok r, b') ∧ is_termination r = false ∧ alive b'.
Hypothesis observe_goes_on : ∀ b,
  alive b → ∃ b', observe env b = (Ok tt, b') ∧ alive b'.

Lemma acts_app tr1 tr2 : acts (tr1 ++ tr2) = acts tr1 + acts tr2.
Proof. unfold acts. by rewrite filter_app, length_app. Qed.

Lemma acts_setup tr : Forall setup tr → acts tr = 0.
Proof.
  intros H. unfold acts. rewrite filter_none; [done|].
  eapply Forall_impl; [exact H|]. by intros o Ho ->.
Qed.

Lemma think_returns g :
  alive (base (self g)) →
  ∃ g' tr, think env g = (Ret true, g', tr) ∧ alive (base (self g')).
Proof using think_goes_on format_goes_on.
  intros Halive.
  destruct (ensure_initialized_run env g) as (g1 & tr1 & Hini & _ & Hbase1 & _).
  unfold think, mbind, M_bind. rewrite Hini.
  unfold get_self, await, modify_self, mret, M_ret. cbn [self budget].
  rewrite <- Hbase1 in Halive.
  destruct (browser_in_use env (memory (base (self g1)))).
  - destruct (format_goes_on _ Halive) as (p & b1 & Hf & Hb1). rewrite Hf.
    cbn [self budget set_base base available_tools].
    match goal with
    | |- context [super_think env ?ts ?b] =>
        destruct (think_goes_on ts b Hb1) as (b2 & Ht & Hb2); rewrite Ht
    end.
    eexists _, _. split; [reflexivity|]. exact Hb2.
  - cbn [self budget].
    match goal with
    | |- context [super_think env ?ts ?b] =>
        destruct (think_goes_on ts b Halive) as (b2 & Ht & Hb2); rewrite Ht
    end.
    eexists _, _. split; [reflexivity|]. exact Hb2.
Qed.

Lemma think_step g :
  alive (base (self g)) →
  ∃ g' tr,
    think env g = (Ret true, g', tr)
    ∧ alive (base (self g')) ∧ budget g' = budget g
    ∧ acts tr = 0 ∧ cleanups tr = 0.
Proof using think_goes_on format_goes_on.
  intros Halive. destruct (think_returns g Halive) as (g' & tr & Hrun & Halive').
  exists g', tr. split; [done|]. split; [done|].
  destruct (think_steady env g _ g' tr Hrun) as (Hst & Hb & _).
  split; [done|]. split; [|by apply cleanups_steady].
  destruct (think_run env g _ g' tr Hrun)
    as (g1 & tr1 & tr2 & Hini & -> & _ & _ & _ & _ & _ & _ & _ & Hshape).
  destruct (ensure_initialized_run env g) as (g1' & tr1' & Hini' & _ & _ & _ & Hsetup & _).
  rewrite Hini in Hini'. injection Hini' as <- <-.
  rewrite acts_app, (acts_setup _ Hsetup).
  destruct (browser_in_use env (memory (base (self g)))).
  - by destruct Hshape as (p & b & _ & ->).
  - by rewrite Hshape.
Qed.

Lemma act_step_goes_on g :
  budget g = None → alive (base (self g)) →
  ∃ g' tr,
    act_step env g = (Ret Next, g', tr)
    ∧ alive (base (self g')) ∧ budget g' = None
    ∧ acts tr = 1 ∧ cleanups tr = 0.
Proof using act_goes_on.
  destruct g as [a bud]. cbn [self budget]. intros -> Halive.
  destruct (act_goes_on (available_tools a) (base a) Halive) as (r & b' & Hact & Hterm & Hb').
  unfold act_step, try_except, mbind, M_bind, await, yield, log, observe_, mret, M_ret.
  cbn [self budget]. rewrite Hact.
  destruct (truthy r); cbn [self budget]; rewrite ?Hterm;
    eexists _, _; (split; [reflexivity|]); by repeat split.
Qed.

Lemma observe_step_goes_on g :
  alive (base (self g)) →
  ∃ g' tr,
    observe_step env g = (Ret Next, g', tr)
    ∧ alive (base (self g')) ∧ budget g' = budget g
    ∧ acts tr = 0 ∧ cleanups tr = 0.
Proof using observe_goes_on.
  intros Halive.
  destruct (observe_goes_on (base (self g)) Halive) as (b' & Hobs & Hb').
  unfold observe_step, try_except, mbind, M_bind, await, mret, M_ret. rewrite Hobs.
  eexists _, _. split; [reflexivity|]. by repeat split.
Qed.

Lemma iteration_goes_on g :
  budget g = None → alive (base (self g)) →
  ∃ g' tr,
    iteration env g = (Ret Next, g', tr)
    ∧ alive (base (self g')) ∧ budget g' = None
    ∧ acts tr = 1 ∧ cleanups tr = 0.
Proof using All.
  intros Hb Halive.
  destruct (think_step g Halive) as (g1 & tr1 & Hthink & Ha1 & Hb1 & Hn1 & Hc1).
  rewrite Hb in Hb1.
  destruct (act_step_goes_on g1 Hb1 Ha1) as (g2 & tr2 & Hact & Ha2 & Hb2 & Hn2 & Hc2).
  destruct (observe_step_goes_on g2 Ha2) as (g3 & tr3 & Hobs & Ha3 & Hb3 & Hn3 & Hc3).
  unfold iteration, mbind, M_bind. rewrite Hthink. cbn [negb]. rewrite Hact, Hobs.
  eexists _, _. split; [reflexivity|]. split; [done|]. split; [by rewrite Hb3|].
  rewrite !acts_app, !cleanups_app, Hn1, Hn2, Hn3, Hc1, Hc2, Hc3. done.
Qed.

Lemma while_goes_on fuel g :
  budget g = None → alive (base (self g)) →
  ∃ g' tr,
    while fuel running (iteration env) g = (Fuel, g', tr)
    ∧ acts tr = fuel ∧ cleanups tr = 0.
Proof using All.
  revert g. induction fuel as [|fuel IH]; intros g Hb Halive; cbn [while];
    (assert (running (self g) = true) as -> by (by apply bool_decide_eq_true_2)).
  - by eexists _, _.
  - destruct (iteration_goes_on g Hb Halive) as (g1 & tr1 & Hit & Ha1 & Hb1 & Hn1 & Hc1).
    destruct (IH g1 Hb1 Ha1) as (g2 & tr2 & Hloop & Hn2 & Hc2).
    unfold mbind, M_bind. rewrite Hit, Hloop.
    eexists _, _. split; [reflexivity|].
    rewrite acts_app, cleanups_app, Hn1, Hn2, Hc1, Hc2. done.
Qed.

(** X10.  The loop of [stream] is bounded by nothing but its
    collaborators (it does not read [max_steps]): as long as
    [super().think] asks for the next step, [act] returns results other
    than the termination text, [observe] and the browser context helper
    succeed and none of them leaves the agent in state [FINISHED] or
    [ERROR], the loop of a stream that is consumed to its end is still
    running after any number of iterations, with one [act] awaited in
    each, and [cleanup] has not been entered. *)
Theorem stream_has_no_step_bound fuel prompt g :
  budget g = None → alive (base (self g)) →
  ∃ g' tr,
    stream env fuel prompt g = (Fuel, g', tr)
    ∧ acts tr = fuel ∧ cleanups tr = 0.
Proof using All.
  intros Hb Halive. unfold stream. rewrite Hb.
  unfold stream_body, try_finally, try_except, mbind, M_bind, modify_self.
  match goal with
  | |- context [while fuel ?c ?body ?g0] =>
      destruct (while_goes_on fuel g0) as (g' & tr & Hloop & Hn & Hc);
        [exact Hb | exact Halive | rewrite Hloop]
  end.
  by eexists _, _.
Qed.

End unbounded.

(** ** The Summary tool: the shape of an answer *)

Section summary_shape.

Import Summary.

(** X11.  The extraction of line 71 succeeds on one shape of body only:
    an object whose member [choices] is a list, not empty, whose first
    item is an object whose member [message] is an object that has a
    member [content]; the content is returned as it is, whatever its
    type, and the other choices are not read. *)
Theorem extract_shape (res c : Json) :
  extract res = Ok c ↔
  ∃ members first_members rest message_members,
    res = JObj members
    ∧ lookup_member (of_string "choices") members
      = Some (JArr (JObj first_members :: rest))
    ∧ lookup_member (of_string "message") first_members = Some (JObj message_members)
    ∧ lookup_member (of_string "content") message_members = Some c.
Proof.
  split.
  - unfold extract, getitem, getitem0.
    destruct res as [| | | | |items|members]; try done.
    destruct (lookup_member (of_string "choices") members) as [choices|] eqn:Hchoices;
      [|done].
    destruct choices as [| | | |[|ch s]|[|choice rest]|ms]; try done.
    destruct choice as [| | | | |items|first_members]; try done.
    destruct (lookup_member (of_string "message") first_members) as [message|] eqn:Hmessage;
      [|done].
    destruct message as [| | | | |items|message_members]; try done.
    destruct (lookup_member (of_string "content") message_members) as [v|] eqn:Hcontent;
      [|done].
    intros [= ->]. by exists members, first_members, rest, message_members.
  - intros (members & first_members & rest & message_members & -> & Hc & Hm & Hv).
    unfold extract, getitem, getitem0. by rewrite Hc, Hm, Hv.
Qed.

End summary_shape.

(** ** The web endpoint *)

Section api_chunks.

Import Api.

Ltac literal_printable :=
  cbn; repeat (apply Forall_cons; split; [unfold printable; lia|]); apply Forall_nil_2.

Lemma hex_digit_printable n : (n < 16)%N → printable (hex_digit n).
Proof.
  intros Hn. unfold printable, hex_digit.
  destruct (n <? 10)%N eqn:Hlt; [apply N.ltb_lt in Hlt | apply N.ltb_ge in Hlt]; lia.
Qed.

Lemma backslash_u_printable n : Forall printable (backslash_u n).
Proof.
  unfold backslash_u, hex4. cbn [app].
  do 2 (apply Forall_cons; split; [unfold printable; lia|]).
  repeat (apply Forall_cons; split; [apply hex_digit_printable, N.mod_lt; lia|]).
  apply Forall_nil_2.
Qed.

Lemma escape_printable c : Forall printable (escape c).
Proof.
  unfold escape.
  repeat match goal with
         | |- Forall _ (if ?b then _ else _) => destruct b eqn:?
         end;
    try literal_printable.
  - match goal with
    | H : (_ && _) = true |- _ => apply andb_prop in H as [H1%N.leb_le H2%N.leb_le]
    end.
    apply Forall_cons. split; [unfold printable; lia | apply Forall_nil_2].
  - apply backslash_u_printable.
  - apply Forall_app. split; apply backslash_u_printable.
Qed.

Lemma encode_basestring_ascii_printable s : Forall printable (encode_basestring_ascii s).
Proof.
  unfold encode_basestring_ascii. apply Forall_app. split; [literal_printable|].
  apply Forall_app. split; [|literal_printable].
  apply Forall_concat, Forall_fmap, Forall_forall. intros c _. apply escape_printable.
Qed.

Lemma dumps_printable key value : Forall printable (dumps key value).
Proof.
  unfold dumps.
  apply Forall_app. split; [literal_printable|].
  apply Forall_app. split; [apply encode_basestring_ascii_printable|].
  apply Forall_app. split; [literal_printable|].
  apply Forall_app. split; [apply encode_basestring_ascii_printable | literal_printable].
Qed.

(** The chunk of an event is one event of the event stream. *)
Lemma frame_one_event ev : one_event (frame ev).
Proof.
  unfold frame. eexists. split; [reflexivity|].
  destruct ev; apply dumps_printable.
Qed.

End api_chunks.

Section api_tracing.

Import Api.

Context {A B : Type} (P : Api.Obs → Prop).

Lemma api_traced_ret (a : A) : traced P (mret a).
Proof. intros g o g' tr [= <- <- <-]. constructor. Qed.

Lemma api_traced_bind (m : G A) (k : A → G B) :
  traced P m → (∀ a, traced P (k a)) → traced P (m ≫= k).
Proof.
  intros Hm Hk g o g' tr Hrun. unfold mbind, G_bind in Hrun.
  destruct (m g) as [[[a|e| |] g1] tr1] eqn:E1.
  - destruct (k a g1) as [[o2 g2] tr2] eqn:E2. injection Hrun as <- <- <-.
    apply Forall_app. split; [by eapply Hm | by eapply Hk].
  - injection Hrun as <- <- <-. by eapply Hm.
  - injection Hrun as <- <- <-. by eapply Hm.
  - injection Hrun as <- <- <-. by eapply Hm.
Qed.

Lemma api_traced_try_except (m : G A) (h : Exn → G A) :
  traced P m → (∀ e, traced P (h e)) → traced P (try_except m h).
Proof.
  intros Hm Hh g o g' tr Hrun. unfold try_except in Hrun.
  destruct (m g) as [[[a|e| |] g1] tr1] eqn:E1.
  - injection Hrun as <- <- <-. by eapply Hm.
  - destruct (h e g1) as [[o2 g2] tr2] eqn:E2. injection Hrun as <- <- <-.
    apply Forall_app. split; [by eapply Hm | by eapply Hh].
  - injection Hrun as <- <- <-. by eapply Hm.
  - injection Hrun as <- <- <-. by eapply Hm.
Qed.

Lemma api_traced_await c (f : ToolCallAgent → Answer A * ToolCallAgent) :
  P (Call c) → traced P (await c f).
Proof.
  intros Hc g o g' tr Hrun. unfold await in Hrun.
  destruct (f (agent g)) as [ans b]. injection Hrun as <- <- <-. by repeat constructor.
Qed.

End api_tracing.

Section api_tracing_steps.

Import Api.

Context (P : Api.Obs → Prop).

Lemma api_traced_get_agent : traced P get_agent.
Proof. intros g o g' tr [= <- <- <-]. constructor. Qed.

Lemma api_traced_modify_agent f : traced P (modify_agent f).
Proof. intros g o g' tr [= <- <- <-]. constructor. Qed.

Lemma api_traced_yield ev : P (Chunk (frame ev)) → traced P (yield ev).
Proof.
  intros Hev g o g' tr Hrun. unfold yield in Hrun.
  destruct (budget g) as [[|[|n]]|]; injection Hrun as <- <- <-; by repeat constructor.
Qed.

Lemma api_traced_while fuel cond (body : G Flow) :
  traced P body → traced P (while fuel cond body).
Proof.
  intros Hbody. induction fuel as [|fuel IH]; intros g o g' tr Hrun; cbn [while] in Hrun.
  - destruct (cond (agent g)); injection Hrun as <- <- <-; constructor.
  - destruct (cond (agent g)); [|injection Hrun as <- <- <-; constructor].
    unfold mbind, G_bind in Hrun.
    destruct (body g) as [[[[|]|e| |] g1] tr1] eqn:E1.
    + destruct (while fuel cond body g1) as [[o2 g2] tr2] eqn:E2. injection Hrun as <- <- <-.
      apply Forall_app. split; [by eapply Hbody | by eapply IH].
    + unfold mret, G_ret in Hrun. injection Hrun as <- <- <-. rewrite app_nil_r. by eapply Hbody.
    + injection Hrun as <- <- <-. by eapply Hbody.
    + injection Hrun as <- <- <-. by eapply Hbody.
    + injection Hrun as <- <- <-. by eapply Hbody.
Qed.

Lemma api_traced_final_thoughts msgs :
  (∀ ev, P (Chunk (frame ev))) → traced P (final_thoughts msgs).
Proof.
  intros HP. induction msgs as [|msg msgs IH]; cbn [final_thoughts].
  - apply api_traced_ret.
  - destruct (has_thoughts msg); [by apply api_traced_yield | done].
Qed.

End api_tracing_steps.

Ltac api_traces :=
  repeat first
    [ assumption | apply api_traced_ret | apply api_traced_get_agent
    | apply api_traced_modify_agent | apply api_traced_await | apply api_traced_yield
    | apply api_traced_final_thoughts
    | apply api_traced_try_except | apply api_traced_while | apply api_traced_bind
    | match goal with
      | |- Api.traced _ (if ?b then _ else _) => destruct b eqn:?
      | |- ∀ _, _ => intro
      end ].

Section api_generate.

Import Api.

Variable w : Manus.

Implicit Types (g : Api.Gen) (tr : list Api.Obs).

(** What is inside the [try] of line 26, with its handler. *)
Lemma guarded_traced (P : Api.Obs → Prop) fuel prompt g o g' tr :
  (∀ ev, P (Chunk (frame ev))) → P (Call think_called) → P (Call act_called) →
  generate_body w fuel prompt g = (o, g', tr) →
  ∃ pre, Forall P pre
         ∧ (o = Fuel ∧ tr = pre
            ∨ o ≠ Fuel ∧ tr = pre ++ [Call cleanup_called]
              ∧ ∀ e, o = Raise e → ∃ a, (cleanup w a).1 = Err e).
Proof.
  intros Hchunk Hthink Hact Hrun. unfold generate_body, try_finally in Hrun.
  match type of Hrun with
  | context [try_except ?m ?h g] =>
      assert (traced P (try_except m h)) as Htraced
        by (unfold iteration, act_step; api_traces; auto);
      assert (∀ e, (try_except m h g).1.1 ≠ Raise e) as Hquiet;
      [|destruct (try_except m h g) as [[ob gb] trb] eqn:Hbody]
  end.
  { intros e. unfold try_except.
    match goal with |- context [mbind ?k ?m g] => destruct (mbind k m g) as [[[[]|e'| |] g1] tr1] end;
      try done.
    unfold yield. by destruct (budget g1) as [[|[|n]]|]. }
  exists trb. split; [by eapply Htraced|].
  cbn [fst] in Hquiet. unfold await in Hrun.
  destruct ob as [[]|e| |]; [| by destruct (Hquiet e) | |by left; injection Hrun as <- <- <-].
  - destruct (cleanup w (agent gb)) as [[[]|e] a'] eqn:Hc; injection Hrun as <- <- <-;
      right; (split; [done|]); (split; [done|]); intros e' [=]. subst e'.
    exists (agent gb). by rewrite Hc.
  - destruct (cleanup w (agent gb)) as [[[]|e] a'] eqn:Hc; injection Hrun as <- <- <-;
      right; (split; [done|]); (split; [done|]); intros e' [=]. subst e'.
    exists (agent gb). by rewrite Hc.
Qed.

(** X12.  Every chunk the endpoint yields is one event of the event
    stream, whatever the texts it carries (the result of [act], the
    message of an exception, the content of a message): the field [data]
    with a text of printable ASCII characters, in which no line ends, and
    the empty line that ends the event. *)
Theorem generate_chunks_framed fuel prompt g :
  Forall framed (generate w fuel prompt g).2.
Proof.
  destruct (generate w fuel prompt g) as [[o g'] tr] eqn:Hrun. cbn [snd].
  unfold generate in Hrun.
  assert (generate_body w fuel prompt g = (o, g', tr) → Forall framed tr) as Hbody.
  { intros Hb.
    destruct (guarded_traced framed fuel prompt g o g' tr) as (pre & Hpre & Hcase);
      [intros ev; apply frame_one_event | done | done | done |].
    destruct Hcase as [[_ ->]|(_ & -> & _)]; [done|].
    apply Forall_app. split; [done | by repeat constructor]. }
  destruct (budget g) as [[|n]|]; [injection Hrun as <- <- <-; constructor | |]; auto.
Qed.

Lemma api_cleanups_none tr : Forall (λ o, o ≠ Call cleanup_called) tr → cleanups tr = 0.
Proof.
  intros H. unfold cleanups. rewrite filter_none; [done|].
  eapply Forall_impl; [exact H|]. by intros o Ho.
Qed.

(** X13.  Once the server has started the generator of the endpoint,
    however it ends (the loop condition, [think] answering no, the
    termination test, an exception of [think] or of [act], the server
    closing it at any chunk), [cleanup] has been awaited exactly once, as
    the last thing the generator does, and the generator raises only what
    [cleanup] raises: the exceptions of [think] and of [act] become
    chunks.  [cleanup] has not been awaited while the loop is still
    running. *)
Theorem generate_ends_with_cleanup fuel prompt g o g' tr :
  Api.budget g ≠ Some 0 →
  generate w fuel prompt g = (o, g', tr) →
  (o = Fuel → cleanups tr = 0)
  ∧ (o ≠ Fuel →
     cleanups tr = 1
     ∧ (∃ pre, tr = pre ++ [Call cleanup_called])
     ∧ ∀ e, o = Raise e → ∃ a, (cleanup w a).1 = Err e).
Proof.
  intros Hb Hrun.
  assert (generate_body w fuel prompt g = (o, g', tr)) as Hbody.
  { unfold generate in Hrun. by destruct (Api.budget g) as [[|n]|]. }
  destruct (guarded_traced (λ o, o ≠ Call cleanup_called) fuel prompt g o g' tr)
    as (pre & Hpre & Hcase); [done | done | done | done |].
  apply api_cleanups_none in Hpre.
  destruct Hcase as [[-> ->]|(Ho & -> & Hraise)]; [by split|].
  split; [done|]. intros _. split; [|split; [by exists pre | done]].
  unfold cleanups in *. rewrite filter_app, length_app, Hpre. done.
Qed.

End api_generate.

(** ** [think] when the inference call fails *)

Section think_failure.

Variable env : Env.

Implicit Types (g : Gen) (b : ToolCallAgent).

(** X15.  The prompt is restored on the return path only.  When the
    browser tool is in use and [super().think] raises, [think] raises the
    same exception and leaves the inherited attributes as the inference
    call left them: the next-step prompt stays the prompt of the browser
    context helper unless the inference call itself changed it. *)
Theorem think_failure_keeps_prompt g p b1 e b2 :
  _initialized (self g) = true →
  browser_in_use env (memory (base (self g))) = true →
  format_next_step_prompt env (base (self g)) = (Ok p, b1) →
  super_think env (available_tools (self g)) (set_next_step_prompt p b1) = (Err e, b2) →
  think env g
  = (Raise e, {| self := set_base b2 (self g); budget := budget g |},
     [Call format_next_step_prompt_called; Call (super_think_called p)])
  ∧ (next_step_prompt b2 = next_step_prompt (set_next_step_prompt p b1) →
     next_step_prompt (base (set_base b2 (self g))) = p).
Proof.
  intros Hflag Hbrowser Hformat Hthink.
  split; [|intros Hsame; cbn [set_base base]; by rewrite Hsame].
  destruct (ensure_initialized_run env g) as (g1 & tr1 & Hini & _ & _ & _ & _ & Hcase).
  rewrite Hflag in Hcase. destruct Hcase as [-> ->].
  unfold think, mbind, M_bind. rewrite Hini.
  unfold get_self, await, modify_self, mret, M_ret. cbn [self budget].
  rewrite Hbrowser, Hformat. cbn [self budget set_base base available_tools].
  rewrite Hthink. destruct g as [[] ?]. reflexivity.
Qed.

End think_failure.

(** ** The consumer that closes the stream *)

Section closing_consumer.

Implicit Types (g : Gen) (tr : list Obs).

Lemma events_app tr1 tr2 : events (tr1 ++ tr2) = events tr1 + events tr2.
Proof. unfold events. by rewrite filter_app, length_app. Qed.

Lemma events_none tr : Forall (λ o, ¬ is_event o) tr → events tr = 0.
Proof. intros H. unfold events. by rewrite filter_none. Qed.

(** A method that emits nothing and leaves the consumer alone. *)
Lemma polite_quiet {A} (m : M A) :
  (∀ g o g' tr, m g = (o, g', tr) →
     budget g' = budget g ∧ events tr = 0 ∧ o ≠ GeneratorExit) →
  polite m.
Proof.
  intros Hm g o g' tr Hb Hrun. destruct (Hm g o g' tr Hrun) as (Hb' & Hev & Ho).
  rewrite Hb', Hev. split.
  - destruct (budget g) as [k|]; [by exists k | done].
  - by destruct o.
Qed.

Lemma polite_ret {A} (a : A) : polite (mret a).
Proof. apply polite_quiet. by intros g o g' tr [= <- <- <-]. Qed.

Lemma polite_get_self : polite get_self.
Proof. apply polite_quiet. by intros g o g' tr [= <- <- <-]. Qed.

Lemma polite_modify_self f : polite (modify_self f).
Proof. apply polite_quiet. by intros g o g' tr [= <- <- <-]. Qed.

Lemma polite_log r : polite (log r).
Proof. apply polite_quiet. by intros g o g' tr [= <- <- <-]. Qed.

Lemma polite_await {A} c (f : SuperAgent → Answer A * ToolCallAgent) : polite (await c f).
Proof.
  apply polite_quiet. intros g o g' tr Hrun. unfold await in Hrun.
  destruct (f (self g)) as [[a|e] b]; by injection Hrun as <- <- <-.
Qed.

Lemma polite_yield ev : polite (yield ev).
Proof.
  intros g o g' tr Hb Hrun. unfold yield in Hrun.
  destruct (budget g) as [[|[|n]]|] eqn:Hbud; [done| | |];
    injection Hrun as <- <- <-; cbn [budget].
  - split; [by exists 0|]. split; [done|]. by exists [], ev.
  - split; [by exists (S n) | done].
  - by rewrite Hbud.
Qed.

Lemma polite_bind {A B} (m : M A) (k : A → M B) :
  polite m → (∀ a, polite (k a)) → polite (m ≫= k).
Proof.
  intros Hm Hk g o g' tr Hb Hrun. unfold mbind, M_bind in Hrun.
  destruct (m g) as [[[a|e| |] g1] tr1] eqn:E1;
    [|injection Hrun as <- <- <-; exact (Hm g _ g1 tr1 Hb E1)..].
  destruct (Hm g _ g1 tr1 Hb E1) as [Hacc1 Hb1].
  destruct (k a g1) as [[o2 g2] tr2] eqn:E2. injection Hrun as <- <- <-.
  destruct (Hk a g1 o2 g2 tr2 Hb1 E2) as [Hacc2 Ho2]. split.
  - destruct (budget g) as [k0|].
    + destruct Hacc1 as (k1 & Hk1 & Hsum1). rewrite Hk1 in Hacc2.
      destruct Hacc2 as (k2 & Hk2 & Hsum2). exists k2. split; [done|].
      rewrite events_app. lia.
    + by rewrite Hacc1 in Hacc2.
  - destruct o2 as [b|e| |]; try done.
    destruct Ho2 as (Hzero & pre & ev & ->). split; [done|].
    exists (tr1 ++ pre), ev. by rewrite app_assoc.
Qed.

Lemma polite_try_except {A} (m : M A) (h : Exn → M A) :
  polite m → (∀ e, polite (h e)) → polite (try_except m h).
Proof.
  intros Hm Hh g o g' tr Hb Hrun. unfold try_except in Hrun.
  destruct (m g) as [[[a|e| |] g1] tr1] eqn:E1;
    [injection Hrun as <- <- <-; exact (Hm g _ g1 tr1 Hb E1)
    | |injection Hrun as <- <- <-; exact (Hm g _ g1 tr1 Hb E1)..].
  destruct (Hm g _ g1 tr1 Hb E1) as [Hacc1 Hb1].
  destruct (h e g1) as [[o2 g2] tr2] eqn:E2. injection Hrun as <- <- <-.
  destruct (Hh e g1 o2 g2 tr2 Hb1 E2) as [Hacc2 Ho2]. split.
  - destruct (budget g) as [k0|].
    + destruct Hacc1 as (k1 & Hk1 & Hsum1). rewrite Hk1 in Hacc2.
      destruct Hacc2 as (k2 & Hk2 & Hsum2). exists k2. split; [done|].
      rewrite events_app. lia.
    + by rewrite Hacc1 in Hacc2.
  - destruct o2 as [b|e2| |]; try done.
    destruct Ho2 as (Hzero & pre & ev & ->). split; [done|].
    exists (tr1 ++ pre), ev. by rewrite app_assoc.
Qed.

Lemma polite_while fuel cond (body : M Flow) :
  polite body → polite (while fuel cond body).
Proof.
  intros Hbody. induction fuel as [|fuel IH]; intros g o g' tr Hb Hrun.
  - cbn [while] in Hrun. destruct (cond (self g)); injection Hrun as <- <- <-;
      (split; [destruct (budget g) as [k|]; [by exists k | done] | done]).
  - cbn [while] in Hrun. destruct (cond (self g)).
    + revert g o g' tr Hb Hrun.
      change (polite (body ≫= λ f, match f with
                                     | Break => mret tt
                                     | Next => while fuel cond body
                                     end)).
      apply polite_bind; [done|]. intros [|]; [exact IH | apply polite_ret].
    + injection Hrun as <- <- <-.
      split; [destruct (budget g) as [k|]; [by exists k | done] | done].
Qed.

End closing_consumer.

Ltac polites :=
  repeat first
    [ assumption | apply polite_ret | apply polite_get_self
    | apply polite_modify_self | apply polite_log
    | apply polite_await | apply polite_yield
    | apply polite_try_except | apply polite_while | apply polite_bind
    | match goal with
      | |- polite (if ?b then _ else _) => destruct b eqn:?
      | |- polite (match ?x with _ => _ end) => destruct x eqn:?
      | |- ∀ _, _ => intro
      end ].

Section closed_stream.

Variable env : Env.

Implicit Types (g : Gen) (tr : list Obs).

Lemma events_setup tr : Forall setup tr → events tr = 0.
Proof.
  intros H. apply events_none. eapply Forall_impl; [exact H|].
  intros [?|?|?]; simpl; tauto.
Qed.

Lemma events_stepping tr : Forall stepping tr → events tr = 0.
Proof.
  intros H. apply events_none. eapply Forall_impl; [exact H|].
  intros [?|?|?]; simpl; tauto.
Qed.

Lemma events_closing tr : Forall closing tr → events tr = 0.
Proof.
  intros H. apply events_none. eapply Forall_impl; [exact H|].
  intros [?|?|?]; simpl; tauto.
Qed.

Lemma polite_think : polite (think env).
Proof.
  apply polite_quiet. intros g o g' tr Hrun.
  destruct (think_steady env g o g' tr Hrun) as (_ & Hb & _ & Ho).
  destruct (think_run env g o g' tr Hrun)
    as (g1 & tr1 & tr2 & Hini & -> & Hstep & _).
  destruct (ensure_initialized_run env g) as (g1' & tr1' & Hini' & _ & _ & _ & Hsetup & _).
  rewrite Hini in Hini'. injection Hini' as <- <-.
  by rewrite events_app, (events_setup _ Hsetup), (events_stepping _ Hstep).
Qed.

(** X16.  A consumer that closes the stream after [k] events gets no more
    than [k] events; and when the stream is left because the consumer
    closed it, the consumer has got its [k] events and nothing follows
    the last of them but [cleanup], entered once: no collaborator is
    awaited, nothing is logged and no event is emitted any more. *)
Theorem closed_stream_stops_at_once fuel prompt g o g' tr :
  budget g ≠ Some 0 →
  stream env fuel prompt g = (o, g', tr) →
  (∀ k, budget g = Some k → events tr ≤ k)
  ∧ (o = GeneratorExit →
     ∃ k pre ev post,
       budget g = Some k
       ∧ events tr = k
       ∧ tr = pre ++ [Emit ev] ++ post
       ∧ Forall closing post
       ∧ cleanups post = 1).
Proof.
  intros Hb Hrun. unfold stream in Hrun.
  assert (stream_body env fuel prompt g = (o, g', tr)) as Hbody
    by (by destruct (budget g) as [[|n]|]).
  clear Hrun. unfold stream_body, try_finally in Hbody.
  match type of Hbody with
  | context [try_except ?m ?h g] =>
      assert (polite (try_except m h)) as Hpolite
        by (pose proof polite_think;
            unfold iteration, act_step, observe_step, flush; polites);
      destruct (try_except m h g) as [[ob gb] trb] eqn:Hguarded
  end.
  destruct (Hpolite g ob gb trb Hb Hguarded) as [Hacc Hob].
  destruct (cleanup_closing gb) as (gc & ctr & Hc & Hclosing & Hone & _).
  pose proof (events_closing _ Hclosing) as Hev.
  destruct ob as [[]|e| |]; [| | |injection Hbody as <- <- <-];
    try (rewrite Hc in Hbody; injection Hbody as <- <- <-).
  - split; [|done]. intros k Hk. rewrite Hk in Hacc.
    destruct Hacc as (k' & _ & Hsum). rewrite events_app, Hev. lia.
  - split; [|done]. intros k Hk. rewrite Hk in Hacc.
    destruct Hacc as (k' & _ & Hsum). rewrite events_app, Hev. lia.
  - destruct Hob as (Hzero & pre & ev & ->).
    destruct (budget g) as [k|] eqn:Hk; [|by rewrite Hzero in Hacc].
    destruct Hacc as (k' & Hk' & Hsum). rewrite Hzero in Hk'. injection Hk' as <-.
    split.
    + intros k0 [= <-]. rewrite events_app, Hev. lia.
    + intros _. exists k, pre, ev, ctr. split; [done|].
      split; [rewrite events_app, Hev; lia|]. by rewrite <- app_assoc.
  - split; [|done]. intros k Hk. rewrite Hk in Hacc.
    destruct Hacc as (k' & _ & Hsum). lia.
Qed.

End closed_stream.

Section api_final_thoughts.

Import Api.

Implicit Types (g : Api.Gen) (msg : Message) (msgs : list Message).

Lemma last_thoughts_snoc msgs msg :
  last_thoughts (msgs ++ [msg]) = if has_thoughts msg then Some msg else last_thoughts msgs.
Proof.
  unfold last_thoughts. rewrite filter_app, filter_cons, filter_nil.
  destruct (has_thoughts msg) eqn:Hmsg.
  - rewrite decide_True by done. by rewrite last_snoc.
  - rewrite decide_False by done. by rewrite app_nil_r.
Qed.

Lemma last_thoughts_spec msgs msg :
  last_thoughts msgs = Some msg ↔
  ∃ older newer,
    msgs = older ++ msg :: newer
    ∧ has_thoughts msg = true
    ∧ Forall (λ m, has_thoughts m = false) newer.
Proof.
  split.
  - induction msgs as [|x msgs IH] using rev_ind; [done|].
    rewrite last_thoughts_snoc. destruct (has_thoughts x) eqn:Hx.
    + intros [= ->]. by exists msgs, [].
    + intros (older & newer & -> & Hmsg & Hnewer)%IH.
      exists older, (newer ++ [x]). split; [by rewrite <- app_assoc|].
      split; [done|]. apply Forall_app. by split; [|repeat constructor].
  - intros (older & newer & -> & Hmsg & Hnewer).
    unfold last_thoughts. rewrite filter_app, filter_cons_True by done.
    rewrite (filter_none _ newer).
    + by rewrite last_snoc.
    + eapply Forall_impl; [exact Hnewer|]. intros m Hm. by rewrite Hm.
Qed.

(** X14.  After the loop the endpoint yields one chunk of final thoughts
    at most: the content of the most recent message of the memory that is
    an assistant message and has a content that is not empty, the
    messages after it being no such messages; it yields none when the
    memory has no such message.  The agent is left as it is. *)
Theorem final_thoughts_selects msgs g :
  Api.budget g ≠ Some 0 →
  ∃ o g',
    final_thoughts (reverse msgs) g
    = (o, g',
       match last_thoughts msgs with
       | Some msg =>
           [Chunk (frame (content_event
                            (of_string "Final thoughts: " ++ default [] (content msg))))]
       | None => []
       end)
    ∧ agent g' = agent g
    ∧ (o = Ret tt ∨ o = GeneratorExit)
    ∧ ∀ msg, last_thoughts msgs = Some msg ↔
             ∃ older newer,
               msgs = older ++ msg :: newer
               ∧ has_thoughts msg = true
               ∧ Forall (λ m, has_thoughts m = false) newer.
Proof.
  intros Hb.
  assert (∃ o g',
            final_thoughts (reverse msgs) g
            = (o, g',
               match last_thoughts msgs with
               | Some msg =>
                   [Chunk (frame (content_event
                                    (of_string "Final thoughts: "
                                     ++ default [] (content msg))))]
               | None => []
               end)
            ∧ agent g' = agent g
            ∧ (o = Ret tt ∨ o = GeneratorExit)) as (o & g' & Hrun & Hagent & Ho).
  { induction msgs as [|x msgs IH] using rev_ind.
    - exists (Ret tt), g. by auto.
    - rewrite reverse_app, reverse_singleton. cbn [app final_thoughts].
      rewrite last_thoughts_snoc. destruct (has_thoughts x); [|exact IH].
      unfold yield. destruct (Api.budget g) as [[|[|n]]|]; [done| | |];
        eexists _, _; (split; [reflexivity|]); by auto. }
  exists o, g'. do 3 (split; [done|]). apply last_thoughts_spec.
Qed.

End api_final_thoughts.

(** ** The sample agent: the life cycle, the stream and the endpoint *)

Section sample_extras.

Import Sample.

Let start : Gen := {| self := agent0; budget := None |}.
Let hi : str := of_string "hi".

Lemma agent0_built (env : Env) : reachable env agent0.
Proof. apply (reachable_new env fresh_base). repeat constructor. Qed.

Lemma agent1_connected : reachable (configured (Ok [])) agent1.
Proof.
  apply (reachable_connect (configured (Ok [])) agent0 (of_string "http://a")
           (of_string "A") false None None (Ret tt)
           {| self := agent1; budget := None |}
           [Call (connect_called SSE (of_string "http://a") (of_string "A"))]).
  - apply agent0_built.
  - by apply connect_mcp_server_Ok.
Qed.

Lemma disconnect_mcp_server_idempotent_witness :
  reachable (configured (Ok [])) agent1
  ∧ ∃ g1 tr1 g2 tr2,
      disconnect_mcp_server (of_string "A") {| self := agent1; budget := None |}
      = (Ret tt, g1, tr1)
      ∧ disconnect_mcp_server (of_string "A") g1 = (Ret tt, g2, tr2)
      ∧ g2 = g1.
Proof.
  split; [apply agent1_connected|].
  apply (disconnect_mcp_server_idempotent (configured (Ok [])) agent1 (of_string "A") None).
  apply agent1_connected.
Defined.

Lemma connect_then_disconnect_witness :
  reachable (world (Ok [])) agent0
  ∧ (of_string "C" ∉ sessions (mcp_clients agent0))
  ∧ ∃ g1 tr1 g2 tr2,
      connect_mcp_server (world (Ok [])) (of_string "http://c") (of_string "C") false None
        start = (Ret tt, g1, tr1)
      ∧ disconnect_mcp_server (of_string "C") g1 = (Ret tt, g2, tr2)
      ∧ of_string "translate" ∈ names (available_tools (self g1))
      ∧ available_tools (self g2) = available_tools agent0.
Proof.
  assert (of_string "C" ∉ sessions (mcp_clients agent0)) as Hclosed by by_computation.
  assert (connected_servers agent0 !! of_string "C" = None) as Htable
    by (vm_compute; reflexivity).
  assert (server (world (Ok [])) (transport_of false) (of_string "http://c")
            (arguments_of false None) = Ok [local "translate"]) as Hanswer
    by (vm_compute; reflexivity).
  assert (∀ d, d ∈ [local "translate"] → name d ∉ names (available_tools agent0)) as Hfresh.
  { intros d ->%list_elem_of_singleton. by_computation. }
  assert (filter local_tool (available_tools agent0) ++ tools (mcp_clients agent0)
          = available_tools agent0) as Hcanonical by (vm_compute; reflexivity).
  split; [apply agent0_built|]. split; [exact Hclosed|].
  destruct (connect_then_disconnect (world (Ok [])) agent0 (of_string "http://c")
              (of_string "C") false None [local "translate"] None
              (agent0_built _) ltac:(discriminate) Hclosed Htable Hanswer Hfresh)
    as (g1 & tr1 & g2 & tr2 & Hc & Hd & Hnames & _ & _ & _ & _ & Hreg & _).
  exists g1, tr1, g2, tr2. split; [exact Hc|]. split; [exact Hd|].
  split; [apply (Hnames (local "translate")), list_elem_of_singleton; reflexivity|].
  by rewrite Hreg.
Defined.

Lemma create_then_cleanup_witness :
  reachable (configured (Ok [])) agent0
  ∧ ∃ g1 tr1 g2 tr2,
      create (configured (Ok [])) start = (Ret tt, g1, tr1)
      ∧ cleanup g1 = (Ret tt, g2, tr2)
      ∧ sessions (mcp_clients (self g2)) = ∅
      ∧ available_tools (self g2) `sublist_of` filter local_tool (available_tools agent0).
Proof.
  split; [apply agent0_built|].
  destruct (create_then_cleanup (configured (Ok [])) start (agent0_built _))
    as (g1 & tr1 & g2 & tr2 & Hc & Hd & Hs & _ & _ & _ & _ & Hsub & _).
  by exists g1, tr1, g2, tr2.
Defined.

(** The local tool [summary], whose name server [A] advertises, is not
    registered any more after [create] and [cleanup]; the other five
    local tools are. *)
Example create_then_cleanup_loses_shadowed_tool :
  let g1 := (create (configured (Ok [])) start).1.2 in
  let g2 := (cleanup g1).1.2 in
  names (available_tools agent0)
  = of_string <$> ["python_execute"; "browser_use"; "summary"; "str_replace_editor";
                   "ask_human"; "terminate"]
  ∧ names (available_tools (self g2))
    = of_string <$> ["python_execute"; "browser_use"; "str_replace_editor";
                     "ask_human"; "terminate"].
Proof. split; vm_compute; reflexivity. Qed.

Lemma think_error_ends_stream_witness :
  let env := world_of [] (Err boom) (Ok hi) IDLE (Ok tt) in
  stream env 3 hi start = (Ret tt, (stream env 3 hi start).1.2, (stream env 3 hi start).2)
  ∧ Log (LStreamError (of_string "boom")) ∈ (stream env 3 hi start).2
  ∧ error_events (stream env 3 hi start).2 = 1
  ∧ cleanups (stream env 3 hi start).2 = 1.
Proof.
  cbv zeta.
  assert (stream (world_of [] (Err boom) (Ok hi) IDLE (Ok tt)) 3 hi start
          = (Ret tt, (stream (world_of [] (Err boom) (Ok hi) IDLE (Ok tt)) 3 hi start).1.2,
             (stream (world_of [] (Err boom) (Ok hi) IDLE (Ok tt)) 3 hi start).2))
    as Hrun by (vm_compute; reflexivity).
  assert (Log (LStreamError (of_string "boom"))
          ∈ (stream (world_of [] (Err boom) (Ok hi) IDLE (Ok tt)) 3 hi start).2)
    as Hin by by_computation.
  split; [exact Hrun|]. split; [exact Hin|].
  assert (budget start ≠ Some 0) as Hb by discriminate.
  pose proof (think_error_ends_stream _ _ _ _ _ _ _ _ Hb Hrun Hin) as (_ & H1 & H2 & _).
  exact (conj H1 H2).
Defined.

Lemma observe_error_ends_stream_witness :
  let env := world_of [] (Ok true) (Ok hi) IDLE (Err boom) in
  stream env 3 hi start = (Ret tt, (stream env 3 hi start).1.2, (stream env 3 hi start).2)
  ∧ Log (LObserveError (of_string "boom")) ∈ (stream env 3 hi start).2
  ∧ error_events (stream env 3 hi start).2 = 1
  ∧ cleanups (stream env 3 hi start).2 = 1.
Proof.
  cbv zeta.
  assert (stream (world_of [] (Ok true) (Ok hi) IDLE (Err boom)) 3 hi start
          = (Ret tt, (stream (world_of [] (Ok true) (Ok hi) IDLE (Err boom)) 3 hi start).1.2,
             (stream (world_of [] (Ok true) (Ok hi) IDLE (Err boom)) 3 hi start).2))
    as Hrun by (vm_compute; reflexivity).
  assert (Log (LObserveError (of_string "boom"))
          ∈ (stream (world_of [] (Ok true) (Ok hi) IDLE (Err boom)) 3 hi start).2)
    as Hin by by_computation.
  split; [exact Hrun|]. split; [exact Hin|].
  assert (budget start ≠ Some 0) as Hb by discriminate.
  pose proof (observe_error_ends_stream _ _ _ _ _ _ _ _ Hb Hrun Hin) as (_ & H1 & H2 & _).
  exact (conj H1 H2).
Defined.

Lemma stream_error_events_witness :
  stream (world (Err boom)) 3 hi start
  = (Ret tt, (stream (world (Err boom)) 3 hi start).1.2,
     (stream (world (Err boom)) 3 hi start).2)
  ∧ error_events (stream (world (Err boom)) 3 hi start).2 ≤ 1
  ∧ Emit (error_event (of_string "boom")) ∈ (stream (world (Err boom)) 3 hi start).2.
Proof.
  assert (stream (world (Err boom)) 3 hi start
          = (Ret tt, (stream (world (Err boom)) 3 hi start).1.2,
             (stream (world (Err boom)) 3 hi start).2))
    as Hrun by (vm_compute; reflexivity).
  assert (Log (LActError (of_string "boom"))
          ∈ (stream (world (Err boom)) 3 hi start).2) as Hin by by_computation.
  split; [exact Hrun|].
  assert (budget start ≠ Some 0) as Hb by discriminate.
  pose proof (stream_error_events _ _ _ _ _ _ _ Hb Hrun) as [H1 H2].
  split; [exact H1|]. apply H2. left. exact Hin.
Defined.

(** After twelve iterations, two more than [max_steps], the loop is
    still running. *)
Lemma stream_has_no_step_bound_witness :
  alive (base (self start))
  ∧ ∃ g' tr,
      stream (world (Ok hi)) 12 hi start = (Fuel, g', tr)
      ∧ acts tr = 12 ∧ cleanups tr = 0.
Proof.
  assert (alive (base (self start))) as Halive by by_computation.
  split; [exact Halive|].
  apply (stream_has_no_step_bound (world (Ok hi))).
  - intros ts b Hb. eexists. split; [reflexivity | exact Hb].
  - intros b Hb. eexists _, _. split; [reflexivity | exact Hb].
  - intros ts b Hb. eexists _, _. split; [reflexivity|].
    split; [vm_compute; reflexivity | by_computation].
  - intros b Hb. eexists. split; [reflexivity | exact Hb].
  - reflexivity.
  - exact Halive.
Defined.

Lemma think_failure_keeps_prompt_witness :
  let env := world_of [] (Err boom) (Ok hi) IDLE (Ok tt) in
  let g := {| self := set_initialized true browsing; budget := None |} in
  (think env g).1.1 = Raise boom
  ∧ next_step_prompt (base (self g)) = of_string "next"
  ∧ next_step_prompt (base (self (think env g).1.2)) = of_string "augmented".
Proof.
  cbv zeta.
  set (env := world_of [] (Err boom) (Ok hi) IDLE (Ok tt)).
  set (g := {| self := set_initialized true browsing; budget := None |}).
  set (p := of_string "augmented").
  set (b2 := (super_think env (available_tools (self g))
                (set_next_step_prompt p (base (self g)))).2).
  assert (browser_in_use env (memory (base (self g))) = true) as Hbrowser
    by (vm_compute; reflexivity).
  assert (format_next_step_prompt env (base (self g)) = (Ok p, base (self g))) as Hformat
    by reflexivity.
  assert (super_think env (available_tools (self g))
            (set_next_step_prompt p (base (self g))) = (Err boom, b2)) as Hthink
    by reflexivity.
  assert (next_step_prompt b2 = next_step_prompt (set_next_step_prompt p (base (self g))))
    as Hsame by reflexivity.
  destruct (think_failure_keeps_prompt env g p (base (self g)) boom b2
              eq_refl Hbrowser Hformat Hthink) as [Hrun Hprompt].
  rewrite Hrun. cbn [fst snd self].
  split; [reflexivity|]. split; [reflexivity|]. exact (Hprompt Hsame).
Defined.

Lemma closed_stream_stops_at_once_witness :
  let g := {| self := agent0; budget := Some 2 |} in
  stream (world (Ok hi)) 3 hi g
  = (GeneratorExit, (stream (world (Ok hi)) 3 hi g).1.2, (stream (world (Ok hi)) 3 hi g).2)
  ∧ events (stream (world (Ok hi)) 3 hi g).2 = 2.
Proof.
  cbv zeta.
  assert (stream (world (Ok hi)) 3 hi {| self := agent0; budget := Some 2 |}
          = (GeneratorExit,
             (stream (world (Ok hi)) 3 hi {| self := agent0; budget := Some 2 |}).1.2,
             (stream (world (Ok hi)) 3 hi {| self := agent0; budget := Some 2 |}).2))
    as Hrun by (vm_compute; reflexivity).
  split; [exact Hrun|].
  assert (budget {| self := agent0; budget := Some 2 |} ≠ Some 0) as Hb by discriminate.
  destruct (proj2 (closed_stream_stops_at_once _ _ _ _ _ _ _ Hb Hrun) eq_refl)
    as (k & pre & ev & post & Hk & Hev & _).
  injection Hk as <-. exact Hev.
Defined.

(** The endpoint and [SuperAgent.stream] do not flush the same message:
    when the last assistant message has no content, the stream emits
    nothing, and the endpoint goes back to the assistant message before
    it. *)
Example final_thoughts_looks_further_back :
  let m := {| messages :=
                [assistant_says "plan";
                 {| role := assistant; content := None; tool_calls := Some [] |}] |} in
  (flush {| self := set_base (set_memory m fresh_base) agent0; budget := None |}).2 = []
  ∧ Api.chunks (Api.final_thoughts (reverse (messages m))
                  {| Api.agent := fresh_base; Api.budget := None |}).2
    = [Api.frame (content_event (of_string "Final thoughts: plan"))].
Proof. split; vm_compute; reflexivity. Qed.

End sample_extras.

Section sample_endpoint.

Import Sample Api.

Let start : Api.Gen := {| agent := fresh_base; budget := None |}.
Let hi : str := of_string "hi".

Lemma generate_ends_with_cleanup_witness :
  let w := manus (Ok SENTINEL) (Err boom) in
  generate w 3 hi start = (Raise boom, (generate w 3 hi start).1.2, (generate w 3 hi start).2)
  ∧ cleanups (generate w 3 hi start).2 = 1.
Proof.
  cbv zeta.
  assert (generate (manus (Ok SENTINEL) (Err boom)) 3 hi start
          = (Raise boom, (generate (manus (Ok SENTINEL) (Err boom)) 3 hi start).1.2,
             (generate (manus (Ok SENTINEL) (Err boom)) 3 hi start).2))
    as Hrun by (vm_compute; reflexivity).
  split; [exact Hrun|].
  assert (Api.budget start ≠ Some 0) as Hb by discriminate.
  refine (proj1 (proj2 (generate_ends_with_cleanup _ _ _ _ _ _ _ Hb Hrun) _)).
  discriminate.
Defined.

Lemma final_thoughts_selects_witness :
  let msgs := [user_message hi; assistant_says "plan";
               {| role := assistant; content := None; tool_calls := Some [] |};
               {| role := tool; content := Some (of_string "done"); tool_calls := None |}] in
  Api.budget start ≠ Some 0
  ∧ last_thoughts msgs = Some (assistant_says "plan")
  ∧ ∃ o g',
      final_thoughts (reverse msgs) start
      = (o, g', [Chunk (frame (content_event (of_string "Final thoughts: plan")))]).
Proof.
  cbv zeta.
  assert (Api.budget start ≠ Some 0) as Hb by discriminate.
  split; [exact Hb|]. split; [vm_compute; reflexivity|].
  destruct (final_thoughts_selects
              [user_message hi; assistant_says "plan";
               {| role := assistant; content := None; tool_calls := Some [] |};
               {| role := tool; content := Some (of_string "done"); tool_calls := None |}]
              start Hb) as (o & g' & Hrun & _).
  exists o, g'. exact Hrun.
Defined.

(** The chunks of a run in which [act] answers the termination text: the
    action, the completion, the final thoughts.  The double quotes of the
    result are escaped, and so are a line feed and the code points 233
    and 128512 of an error text. *)
Example generate_chunks_sample :
  chunks (generate (manus (Ok SENTINEL) (Ok tt)) 3 hi start).2
  = [of_string "data: {" ++ dquote ++ of_string "content" ++ dquote ++ of_string ": "
       ++ dquote ++ of_string "Action taken: {" ++ [92%N] ++ dquote ++ of_string "status"
       ++ [92%N] ++ dquote ++ of_string ":" ++ [92%N] ++ dquote ++ of_string "success"
       ++ [92%N] ++ dquote ++ of_string "}" ++ dquote ++ of_string "}" ++ [10%N; 10%N];
     of_string "data: {" ++ dquote ++ of_string "content" ++ dquote ++ of_string ": "
       ++ dquote ++ of_string "Task completed successfully!" ++ dquote
       ++ of_string "}" ++ [10%N; 10%N];
     of_string "data: {" ++ dquote ++ of_string "content" ++ dquote ++ of_string ": "
       ++ dquote ++ of_string "Final thoughts: thinking" ++ dquote
       ++ of_string "}" ++ [10%N; 10%N]]
  ∧ frame (error_event [97%N; 10%N; 233%N; 128512%N])
    = of_string "data: {" ++ dquote ++ of_string "error" ++ dquote ++ of_string ": "
      ++ dquote ++ of_string "a" ++ [92%N] ++ of_string "n"
      ++ [92%N] ++ of_string "u00e9" ++ [92%N] ++ of_string "ud83d"
      ++ [92%N] ++ of_string "ude00" ++ dquote
      ++ of_string "}" ++ [10%N; 10%N].
Proof. split; vm_compute; reflexivity. Qed.

End sample_endpoint.
